(** * The tabular data engine of the upload editor

    A shallow embedding of the client-side logic of
    [src/components/file-upload.tsx] (the parser and the format dispatch)
    and [src/components/data-table.tsx] (the formatter, the query engine,
    the pagination with a pinned tail and the structural edits), followed
    by the properties of the specification that were checked against it.

    Conventions of the embedding.
    - A JavaScript string is a [string]: a sequence of code units, here the
      code units below 256.  [trim], [toLowerCase] and the comparison [<]
      are the ECMAScript ones restricted to that range.
    - A value read from a row is a [value]: [undefined], [null], a string,
      a number, or a member of [Object.prototype] read through the row.
      Numbers are integers, as [Z]; the sign of [a - b] and the decimal
      [String(n)] are those of the engine on the safe integers
      ([|n| < 2^53]).
    - A row object is the list of its own properties in enumeration order
      (array-index keys ascending, then the other keys in creation order).
      Every row is built by [{}] or by an object rest pattern, so its
      prototype is [Object.prototype]: reading a key that is not an own
      property gives the member of [Object.prototype] of that name, or
      [undefined]; assigning to ["__proto__"] reaches the setter of
      [Object.prototype] and creates no property.
    - Row objects live in a store; a table holds references.  Reference
      equality ([===] on objects) is equality of addresses.  Row objects are
      never written after they are built, so the store only grows.
    - [Array.prototype.sort] is the stable insertion sort.  That is the
      order ECMAScript prescribes when the comparison function is a
      consistent comparator for the elements; for any other comparison
      function ECMAScript leaves the order to the engine, and the
      properties about the order assume a consistent comparator.
    - What the browser and the libraries provide ([XLSX.read], [Date],
      [toLocaleDateString]) is a parameter of the functions that call it;
      what the [FileReader] does with a file is part of the file.
    - The effects of a handler ([onDataUpdate], [alert],
      [setEditingHeader], a thrown [Error]) are its result. *)

From Stdlib Require Import Ascii.
From stdpp Require Import prelude strings pretty gmap sorting.
From Stdlib Require Import Permutation.

Local Open Scope string_scope.
Local Open Scope list_scope.

(** ** JavaScript strings *)

Module JS.

Definition code (c : ascii) : N := N_of_ascii c.

(** White space and line terminators of ECMAScript below code unit 256:
    TAB, LF, VT, FF, CR, SP and NBSP. *)
Definition isWhiteSpace (c : ascii) : bool :=
  let n := code c in
  ((9 <=? n) && (n <=? 13) || (n =? 32) || (n =? 160))%N.

Fixpoint trimStart (s : string) : string :=
  match s with
  | EmptyString => EmptyString
  | String c s' => if isWhiteSpace c then trimStart s' else s
  end.

Fixpoint trimEnd (s : string) : string :=
  match s with
  | EmptyString => EmptyString
  | String c s' =>
      match trimEnd s' with
      | EmptyString => if isWhiteSpace c then EmptyString else String c EmptyString
      | t => String c t
      end
  end.

(** [s.trim()] *)
Definition trim (s : string) : string := trimEnd (trimStart s).

(** [s.split(sep)] for a separator of one code unit.  The result always has
    at least one element: [("").split(sep)] is [[""]]. *)
Fixpoint split (sep : ascii) (s : string) : list string :=
  match s with
  | EmptyString => [EmptyString]
  | String c s' =>
      if Ascii.eqb c sep then EmptyString :: split sep s'
      else match split sep s' with
           | x :: xs => String c x :: xs
           | [] => [String c EmptyString]
           end
  end.

Definition lowerChar (c : ascii) : ascii :=
  let n := code c in
  if ((65 <=? n) && (n <=? 90) ||
      (192 <=? n) && (n <=? 222) && negb (n =? 215))%N
  then ascii_of_N (n + 32) else c.

(** [s.toLowerCase()].  On the code units below 256 the lower-case form
    is taken code unit by code unit: the letters [A]-[Z] and the letters
    of U+00C0-U+00DE other than the multiplication sign move up by 32, and
    nothing depends on the neighbours of a code unit. *)
Fixpoint toLowerCase (s : string) : string :=
  match s with
  | EmptyString => EmptyString
  | String c s' => String (lowerChar c) (toLowerCase s')
  end.

(** [s.includes(t)] *)
Fixpoint includes (s t : string) : bool :=
  String.prefix t s ||
  match s with
  | EmptyString => false
  | String _ s' => includes s' t
  end.

(** [s.endsWith(t)] *)
Fixpoint endsWith (s t : string) : bool :=
  String.eqb s t ||
  match s with
  | EmptyString => false
  | String _ s' => endsWith s' t
  end.

(** [a < b] on strings: lexicographic on code units. *)
Definition ltStr (a b : string) : bool :=
  match String.compare a b with Lt => true | _ => false end.

(** Truthiness of a string: [""] is the only falsy one. *)
Definition truthyStr (s : string) : bool := negb (String.eqb s EmptyString).

Definition LF : ascii := ascii_of_N 10.
Definition comma : ascii := ascii_of_N 44.

(** ** Values *)

(** [VInherited name] is [Object.prototype[name]]: the prototype object
    itself for ["__proto__"], a built-in function for the other names.
    Two of them are the same object exactly when the names are equal. *)
Inductive value : Type :=
  | VUndefined
  | VNull
  | VString (s : string)
  | VNumber (n : Z)
  | VInherited (name : string).

#[global] Instance value_eq_dec : EqDecision value.
Proof. solve_decision. Defined.

(** The own property names of [Object.prototype]. *)
Definition objectPrototypeKeys : list string :=
  ["constructor"; "__defineGetter__"; "__defineSetter__"; "hasOwnProperty";
   "__lookupGetter__"; "__lookupSetter__"; "isPrototypeOf";
   "propertyIsEnumerable"; "toString"; "valueOf"; "__proto__";
   "toLocaleString"].

(** [String(v)].  [String(Object.prototype)] is ["[object Object]"]; the
    text of a built-in function is the one V8 and JavaScriptCore print
    (other engines lay out the same [NativeFunction] differently). *)
Definition toString (v : value) : string :=
  match v with
  | VUndefined => "undefined"
  | VNull => "null"
  | VString s => s
  | VNumber n => pretty n
  | VInherited name =>
      if String.eqb name "__proto__" then "[object Object]"
      else "function " +:+ name +:+ "() { [native code] }"
  end.

(** [v === null || v === undefined] *)
Definition isNullish (v : value) : bool :=
  match v with
  | VUndefined | VNull => true
  | _ => false
  end.

(** ** Objects used as records *)

Abbreviation Obj := (list (string * value)).

Definition digitOf (c : ascii) : option N :=
  let n := code c in
  if ((48 <=? n) && (n <=? 57))%N then Some (n - 48)%N else None.

Fixpoint parseDigits (acc : N) (s : string) : option N :=
  match s with
  | EmptyString => Some acc
  | String c s' =>
      match digitOf c with
      | Some d => parseDigits (10 * acc + d)%N s'
      | None => None
      end
  end.

(** A property key is an array index when it is the canonical decimal
    form of an integer in [0, 2^32 - 2]. *)
Definition arrayIndex (k : string) : option N :=
  match k with
  | EmptyString => None
  | String c rest =>
      if (code c =? 48)%N then
        match rest with EmptyString => Some 0%N | _ => None end
      else
        match parseDigits 0 k with
        | Some n => if (n <? 4294967295)%N then Some n else None
        | None => None
        end
  end.

Fixpoint ownProperty (k : string) (o : Obj) : option value :=
  match o with
  | [] => None
  | (k', v) :: o' => if String.eqb k k' then Some v else ownProperty k o'
  end.

(** [Object.prototype[k]] *)
Definition inherited (k : string) : value :=
  if existsb (String.eqb k) objectPrototypeKeys then VInherited k
  else VUndefined.

(** [o[k]]: the own property, else the one of [Object.prototype]. *)
Definition get (o : Obj) (k : string) : value :=
  match ownProperty k o with
  | Some v => v
  | None => inherited k
  end.

Fixpoint update (k : string) (v : value) (o : Obj) : Obj :=
  match o with
  | [] => []
  | (k', v') :: o' =>
      if String.eqb k k' then (k', v) :: o' else (k', v') :: update k v o'
  end.

Fixpoint insertIndex (n : N) (k : string) (v : value) (o : Obj) : Obj :=
  match o with
  | [] => [(k, v)]
  | (k', v') :: o' =>
      match arrayIndex k' with
      | Some n' => if (n <? n')%N then (k, v) :: o
                   else (k', v') :: insertIndex n k v o'
      | None => (k, v) :: o
      end
  end.

(** The creation of an own data property, as [o[k] = v] does it for a key
    that does not reach a setter: an existing property keeps its place, a
    new one is created (among the array indices if it is one, last
    otherwise). *)
Definition defineOwn (k : string) (v : value) (o : Obj) : Obj :=
  match ownProperty k o with
  | Some _ => update k v o
  | None =>
      match arrayIndex k with
      | Some n => insertIndex n k v o
      | None => o ++ [(k, v)]
      end
  end.

(** [o[k] = v].  The members of [Object.prototype] are writable data
    properties, which an assignment shadows by an own property, except
    ["__proto__"], an accessor: unless the object has an own property of
    that name, the assignment calls its setter, which creates no property
    and, for a value that is neither an object nor [null] (the program
    assigns strings), leaves the object as it is. *)
Definition set (k : string) (v : value) (o : Obj) : Obj :=
  if String.eqb k "__proto__" && negb (bool_decide (is_Some (ownProperty k o)))
  then o
  else defineOwn k v o.

(** [const { [k]: _, ...rest } = o] *)
Definition rest (k : string) (o : Obj) : Obj :=
  filter (λ kv, kv.1 ≠ k) o.

(** [Object.keys(o)], [Object.values(o)], [Object.entries(o)] *)
Definition keys (o : Obj) : list string := o.*1.
Definition values (o : Obj) : list value := o.*2.
Definition entries (o : Obj) : list (string * value) := o.

End JS.

(** ** The store of row objects *)

Module Store.

Abbreviation loc := nat (only parsing).
Abbreviation Heap := (list JS.Obj) (only parsing).

(** Computations that allocate and read objects. *)
Definition M (A : Type) : Type := Heap → A * Heap.

#[global] Instance M_ret : MRet M := λ A a h, (a, h).
#[global] Instance M_bind : MBind M := λ A B f m h,
  let '(a, h') := m h in f a h'.

(** A fresh object gets the next free address. *)
Definition alloc (o : JS.Obj) : M loc := λ h, (length h, h ++ [o]).

Definition deref (h : Heap) (r : loc) : JS.Obj := default [] (h !! r).

Definition load (r : loc) : M JS.Obj := λ h, (deref h r, h).

(** [l.map(f)] for an [f] that runs in the store. *)
Fixpoint mapM {A B : Type} (f : A → M B) (l : list A) : M (list B) :=
  match l with
  | [] => mret []
  | x :: l' => y ← f x; ys ← mapM f l'; mret (y :: ys)
  end.

(** A thrown [Error] carries its message. *)
Inductive result (A : Type) : Type :=
  | Ok (a : A)
  | Throw (msg : string).
Arguments Ok {A} a.
Arguments Throw {A} msg.

End Store.

Import Store.

(** ** The table model ([file-upload-editor]) *)

Record TableData : Type := mkTable {
  headers : list string;
  rows : list loc
}.

(** The row objects of a table, read from the store. *)
Definition rowObjects (h : Heap) (data : TableData) : list JS.Obj :=
  deref h <$> rows data.

(** ** The parser ([file-upload.tsx]) *)

Module FileUpload.

(** [a || b] where [a] is a string or [undefined]. *)
Definition orStr (a : option string) (b : string) : string :=
  match a with
  | Some s => if JS.truthyStr s then s else b
  | None => b
  end.

(** The body of [headers.forEach((header, index) => ...)] in [parseCSV]. *)
Definition zipRow (headers values : list string) : JS.Obj :=
  foldl (λ row ih, JS.set ih.2 (JS.VString (orStr (values !! ih.1) "")) row)
        [] (imap pair headers).

Definition parseCSV (text : string) : M (result TableData) :=
  let lines := JS.split JS.LF (JS.trim text) in
  match lines with
  | [] => mret (Throw "Empty file")
  | line0 :: lines1 =>
      let headers := JS.trim <$> JS.split JS.comma line0 in
      rows ← mapM (λ line,
                let values := JS.trim <$> JS.split JS.comma line in
                alloc (zipRow headers values)) lines1;
      mret (Ok (mkTable headers rows))
  end.

(** *** Sheets, as the spreadsheet library hands them over

    A sheet is its bounding range ([sheet["!ref"]], decoded) and its cells,
    keyed by (row, column) instead of the encoded address. *)

Inductive CellValue : Type :=
  | CVString (s : string)
  | CVNumber (n : Z)
  | CVBool (b : bool).

Record Cell : Type := mkCell {
  cell_w : option string;      (* formatted text *)
  cell_v : option CellValue    (* raw value *)
}.

Record Range : Type := mkRange {
  s_r : nat; s_c : nat;
  e_r : nat; e_c : nat
}.

Record Sheet : Type := mkSheet {
  sheet_ref : option Range;
  sheet_cells : gmap (nat * nat) Cell
}.

Definition cvToString (v : CellValue) : string :=
  match v with
  | CVString s => s
  | CVNumber n => pretty n
  | CVBool b => if b then "true" else "false"
  end.

Definition cvTruthy (v : CellValue) : bool :=
  match v with
  | CVString s => JS.truthyStr s
  | CVNumber n => negb (n =? 0)%Z
  | CVBool b => b
  end.

(** [decode_range(sheet["!ref"] || "A1")] *)
Definition rangeOf (sheet : Sheet) : Range :=
  default (mkRange 0 0 0 0) (sheet_ref sheet).

(** [for (let col = range.s.c; col <= range.e.c; col++)] *)
Definition colsOf (range : Range) : list nat :=
  seq (s_c range) (S (e_c range) - s_c range).

(** [cell && (cell.w || cell.v)] *)
Definition cellHasData (sheet : Sheet) (row col : nat) : bool :=
  match sheet_cells sheet !! (row, col) with
  | Some cell =>
      match cell_w cell with
      | Some w => JS.truthyStr w || from_option cvTruthy false (cell_v cell)
      | None => from_option cvTruthy false (cell_v cell)
      end
  | None => false
  end.

(** [cell ? cell.w || cell.v?.toString() || "" : ""] *)
Definition cellText (sheet : Sheet) (row col : nat) : string :=
  match sheet_cells sheet !! (row, col) with
  | Some cell => orStr (cell_w cell) (orStr (cvToString <$> cell_v cell) "")
  | None => ""
  end.

(** The first loop: the first row of the range with data, and the row
    after it; both stay 0 when no row has data. *)
Definition findHeaderRow (sheet : Sheet) (range : Range) : nat * nat :=
  match List.find (λ row, existsb (cellHasData sheet row) (colsOf range))
                  (seq (s_r range) (S (e_r range) - s_r range)) with
  | Some row => (row, row + 1)%nat
  | None => (0, 0)%nat
  end.

Definition extractHeaders (sheet : Sheet) (range : Range)
    (headerRowIndex : nat) : list string :=
  (λ col, let headerValue := cellText sheet headerRowIndex col in
          orStr (Some headerValue) ("Column " +:+ pretty (col + 1)%nat))
  <$> colsOf range.

(** [headers[col]] used as a property key: out of range it is [undefined],
    whose key is ["undefined"]. *)
Definition headerKey (headers : list string) (col : nat) : string :=
  default "undefined" (headers !! col).

(** One pass of the inner loop of the data rows: the row object and
    [hasAnyValue]. *)
Definition extractRow (sheet : Sheet) (range : Range)
    (headers : list string) (row : nat) : JS.Obj * bool :=
  foldl (λ acc col,
           let value := cellText sheet row col in
           (JS.set (headerKey headers col) (JS.VString value) acc.1,
            if JS.truthyStr value then true else acc.2))
        ([], false) (colsOf range).

Fixpoint extractRows (sheet : Sheet) (range : Range)
    (headers : list string) (rowIdxs : list nat) : M (list loc) :=
  match rowIdxs with
  | [] => mret []
  | row :: rest =>
      let '(rowData, hasAnyValue) := extractRow sheet range headers row in
      if hasAnyValue then
        r ← alloc rowData; rs ← extractRows sheet range headers rest;
        mret (r :: rs)
      else extractRows sheet range headers rest
  end.

(** The body of [reader.onload] in [parseExcel], from the sheet on.  Only
    the rows that are kept are given an address. *)
Definition parseSheet (sheet : Sheet) : M (result TableData) :=
  let range := rangeOf sheet in
  let '(headerRowIndex, dataStartRowIndex) := findHeaderRow sheet range in
  let headers := extractHeaders sheet range headerRowIndex in
  rows ← extractRows sheet range headers
           (seq dataStartRowIndex (S (e_r range) - dataStartRowIndex));
  if (length headers =? 0)%nat then mret (Throw "No data found in Excel file")
  else mret (Ok (mkTable headers rows)).

(** What the [FileReader] does with a file: it fires [load] with the
    contents of the file, or [error]. *)
Inductive Reading : Type :=
  | Loaded (contents : string)
  | ReadError.

(** A file: its name, its MIME type, and what reading it does. *)
Record File : Type := mkFile {
  file_name : string;
  file_type : string;
  file_reading : Reading
}.

(** What a call into the spreadsheet library does: it returns, it throws
    an [Error] with a message, or it throws a value that is not an
    [Error]. *)
Inductive Outcome (A : Type) : Type :=
  | Returned (a : A)
  | ThrewError (msg : string)
  | ThrewOther.
Arguments Returned {A} a.
Arguments ThrewError {A} msg.
Arguments ThrewOther {A}.

Inductive Path : Type := ExcelPath | CSVPath.

(** The tests of [handleFile], in their order. *)
Definition dispatch (file : File) : result Path :=
  let name := file_name file in
  let type := file_type file in
  if negb (JS.truthyStr type) && negb (JS.endsWith name ".xlsx") &&
     negb (JS.endsWith name ".xls") && negb (JS.endsWith name ".csv")
  then Throw "Invalid file format. Please upload a CSV or Excel file."
  else if JS.endsWith name ".xlsx" || JS.endsWith name ".xls" ||
          JS.includes type "spreadsheet"
  then Ok ExcelPath
  else if JS.endsWith name ".csv" || String.eqb type "text/csv"
  then Ok CSVPath
  else Throw "Unsupported file format. Please upload CSV or Excel files.".

Section WithLibrary.

(** The steps of [reader.onload] in [parseExcel] that are not code of this
    repository, taken together: the dynamic import of the library,
    [XLSX.read] on the binary string, and the look-up of the first sheet of
    the workbook.  An [Error] is the rejection of the import, an error of
    [XLSX.read], or the [TypeError] of reading ["!ref"] when the workbook
    has no first sheet. *)
Variable XLSX_read : string → Outcome Sheet.

(** [reader.onerror] rejects with "Failed to read file"; so does
    [reader.onload] on an empty result.  What the [catch] of [onload] gets
    is passed on when it is an [Error] and replaced when it is not. *)
Definition parseExcel (file : File) : M (result TableData) :=
  match file_reading file with
  | ReadError => mret (Throw "Failed to read file")
  | Loaded data =>
      if negb (JS.truthyStr data) then mret (Throw "Failed to read file")
      else match XLSX_read data with
           | Returned sheet => parseSheet sheet
           | ThrewError msg => mret (Throw msg)
           | ThrewOther => mret (Throw "Failed to parse Excel file")
           end
  end.

(** [readAsText] delivers a string, so the [typeof text !== "string"] guard
    of [reader.onload] does not fire; [parseCSV] throws nothing but an
    [Error], so the [catch] passes on what it gets.  [reader.onerror]
    rejects with "Failed to read file". *)
Definition parseCSVFile (file : File) : M (result TableData) :=
  match file_reading file with
  | ReadError => mret (Throw "Failed to read file")
  | Loaded text => parseCSV text
  end.

(** The parsers reject with an [Error] only, so the message shown is the
    message of the error: the "Failed to parse file" of the [catch] is not
    reached. *)
Definition handleFile (file : File) : M (result TableData) :=
  match dispatch file with
  | Ok ExcelPath => parseExcel file
  | Ok CSVPath => parseCSVFile file
  | Throw msg => mret (Throw msg)
  end.

End WithLibrary.

End FileUpload.

(** Where a reading is expected, a string stands for the reading that
    loads it: [mkFile name type contents] is a file that is read. *)
Coercion FileUpload.Loaded : string >-> FileUpload.Reading.

(** ** The data table ([data-table.tsx]) *)

Module DataTable.

Definition RECORDS_PER_PAGE : Z := 30.

(** *** Formatter *)

Inductive YearFormat : Type := YearNumeric | YearTwoDigit.
Inductive MonthFormat : Type :=
  MonthNumeric | MonthTwoDigit | MonthShort | MonthLong | MonthNarrow.
Inductive DayFormat : Type := DayNumeric | DayTwoDigit.

Record DateFormatOptions : Type := mkDateOptions {
  opt_year : YearFormat;
  opt_month : MonthFormat;
  opt_day : DayFormat
}.

Definition monthNames : list string :=
  ["Jan"; "Feb"; "Mar"; "Apr"; "May"; "Jun";
   "Jul"; "Aug"; "Sep"; "Oct"; "Nov"; "Dec"].

Section Formatter.

(** The engine's [Date]: [new Date(s).getTime()], [None] for [NaN], and
    [toLocaleDateString(locale, options)] on a time value.  Both calls sit
    in the [try] block, so either may throw. *)
Variable Date_getTime : string → result (option Z).
Variable toLocaleDateString : Z → string → DateFormatOptions → result string.

Definition formatCellValue (value : JS.value) (header : string) : string :=
  if JS.isNullish value then ""
  else
    let isDateColumn :=
      JS.includes (JS.toLowerCase header) "date" ||
      JS.includes (JS.toLowerCase header) "time" in
    let plain :=
      match value with
      | JS.VNumber n => pretty n
      | _ => JS.toString value
      end in
    match value with
    | JS.VString s =>
        if isDateColumn then
          let hasMonthName := existsb (λ month, JS.includes s month) monthNames in
          if hasMonthName then s
          else match Date_getTime s with
               | Ok (Some t) =>
                   match toLocaleDateString t "en-US"
                           (mkDateOptions YearNumeric MonthShort DayNumeric) with
                   | Ok text => text
                   | Throw _ => plain
                   end
               | Ok None => plain
               | Throw _ => plain
               end
        else plain
    | _ => plain
    end.

(** The cells of one row, left to right:
    [data.headers.map((header) => formatCellValue(row[header], header))]. *)
Definition renderCells (headers : list string) (row : JS.Obj) : list string :=
  (λ header, formatCellValue (JS.get row header) header) <$> headers.

End Formatter.

(** *** Query engine: filter and sort *)

Inductive Direction : Type := Asc | Desc.

Record SortConfig : Type := mkSort {
  sort_key : string;
  sort_direction : Direction
}.

(** The predicate of [processedRows.filter] on one row object. *)
Definition rowMatches (lowerTerm : string) (row : JS.Obj) : bool :=
  existsb (λ value, JS.includes (JS.toLowerCase (JS.toString value)) lowerTerm)
          (JS.values row).

(** The comparison function handed to [sort]; only its sign matters. *)
Definition compareValues (direction : Direction) (aValue bValue : JS.value) : Z :=
  if decide (aValue = bValue) then 0
  else if JS.isNullish aValue then 1
  else if JS.isNullish bValue then -1
  else
    match aValue, bValue with
    | JS.VNumber a, JS.VNumber b =>
        match direction with Asc => a - b | Desc => b - a end
    | _, _ =>
        let aString := JS.toLowerCase (JS.toString aValue) in
        let bString := JS.toLowerCase (JS.toString bValue) in
        if JS.ltStr aString bString then
          match direction with Asc => -1 | Desc => 1 end
        else if JS.ltStr bString aString then
          match direction with Asc => 1 | Desc => -1 end
        else 0
    end%Z.

Definition compareRows (h : Heap) (cfg : SortConfig) (a b : loc) : Z :=
  compareValues (sort_direction cfg)
    (JS.get (deref h a) (sort_key cfg)) (JS.get (deref h b) (sort_key cfg)).

(** [Array.prototype.sort] is stable; it is modelled by the stable
    insertion sort.  For a comparison function that is a consistent
    comparator on the elements ([consistentComparator] below), the list
    computed here is the one ECMAScript prescribes, whatever the engine
    ([sort_sortedStably], [sortedStably_unique]).  For any other comparison
    function (here: a column that mixes numbers with text, or [null] with
    [undefined]) ECMAScript leaves the order to the engine, and the list
    computed here is one of the orders an engine may produce. *)
Fixpoint insertSorted {A : Type} (cmp : A → A → Z) (a : A) (l : list A) : list A :=
  match l with
  | [] => [a]
  | b :: l' => if (cmp a b <=? 0)%Z then a :: l else b :: insertSorted cmp a l'
  end.

Definition sort {A : Type} (cmp : A → A → Z) (l : list A) : list A :=
  foldr (insertSorted cmp) [] l.

Definition getProcessedRows (h : Heap) (data : TableData)
    (searchTerm : string) (sortConfig : option SortConfig) : list loc :=
  let processedRows := rows data in
  let processedRows :=
    if JS.truthyStr searchTerm then
      let lowerTerm := JS.toLowerCase searchTerm in
      filter (λ row, rowMatches lowerTerm (deref h row)) processedRows
    else processedRows in
  match sortConfig with
  | Some cfg => sort (compareRows h cfg) processedRows
  | None => processedRows
  end.

(** *** Query engine: pagination with the pinned tail *)

Section Pagination.
Local Open Scope Z_scope.

(** [Math.ceil(a / b)] for integers [a] and [b > 0]. *)
Definition ceilDiv (a b : Z) : Z := - ((- a) / b).

(** The relative index of [Array.prototype.slice]. *)
Definition relIndex (len i : Z) : Z :=
  if i <? 0 then Z.max (len + i) 0 else Z.min i len.

(** [l.slice(start, end)] *)
Definition slice {A : Type} (l : list A) (start end_ : Z) : list A :=
  let len := Z.of_nat (length l) in
  let k := relIndex len start in
  let final := relIndex len end_ in
  take (Z.to_nat (final - k)) (drop (Z.to_nat k) l).

(** [l.slice(start)] *)
Definition sliceFrom {A : Type} (l : list A) (start : Z) : list A :=
  slice l start (Z.of_nat (length l)).

Record Paginated : Type := mkPaginated {
  pg_rows : list loc;
  pg_displayIndicesStart : Z
}.

Definition getPaginatedRows (processedRows : list loc) (currentPage : Z) : Paginated :=
  let totalRows := Z.of_nat (length processedRows) in
  if totalRows <=? RECORDS_PER_PAGE + 5 then mkPaginated processedRows 0
  else
    let maxPage := ceilDiv (totalRows - 5) RECORDS_PER_PAGE in
    let page := Z.min currentPage maxPage in
    let startIdx := (page - 1) * RECORDS_PER_PAGE in
    let endIdx := Z.min (startIdx + RECORDS_PER_PAGE) (totalRows - 5) in
    let mainPart := slice processedRows startIdx endIdx in
    let lastPart := sliceFrom processedRows (-5) in
    mkPaginated (mainPart ++ lastPart) startIdx.

(** [Math.ceil(Math.max(total - 5, 0) / RECORDS_PER_PAGE) || 1] *)
Definition totalPages (totalFilteredRows : Z) : Z :=
  let p := ceilDiv (Z.max (totalFilteredRows - 5) 0) RECORDS_PER_PAGE in
  if p =? 0 then 1 else p.

Definition hasGap (totalFilteredRows currentPage : Z) : bool :=
  (RECORDS_PER_PAGE + 5 <? totalFilteredRows) &&
  (currentPage <? totalPages totalFilteredRows).

(** What the table body shows, top to bottom. *)
Inductive Line : Type :=
  | NoMatch                              (* "No data matches your search" *)
  | GapMarker (more : Z)                 (* "... N more records ..." *)
  | RowLine (displayIndex : Z) (row : loc).

(** The callback of [paginatedRows.map((row, index) => ...)]. *)
Definition renderRow (totalFilteredRows displayIndicesStart : Z) (gap : bool)
    (index : nat) (row : loc) : list Line :=
  let index := Z.of_nat index in
  let isLastFive := gap && (RECORDS_PER_PAGE <=? index) in
  let displayIndex :=
    if isLastFive then totalFilteredRows - 5 + (index - RECORDS_PER_PAGE) + 1
    else displayIndicesStart + index + 1 in
  let isLastFiveStart := gap && (index =? RECORDS_PER_PAGE) in
  (if isLastFiveStart
   then [GapMarker (totalFilteredRows - RECORDS_PER_PAGE - 5)] else [])
  ++ [RowLine displayIndex row].

Definition renderRows (processedRows : list loc) (currentPage : Z) : list Line :=
  let totalFilteredRows := Z.of_nat (length processedRows) in
  let pg := getPaginatedRows processedRows currentPage in
  concat (imap (renderRow totalFilteredRows (pg_displayIndicesStart pg)
                  (hasGap totalFilteredRows currentPage))
               (pg_rows pg)).

Definition renderBody (processedRows : list loc) (currentPage : Z) : list Line :=
  match pg_rows (getPaginatedRows processedRows currentPage) with
  | [] => [NoMatch]
  | _ => renderRows processedRows currentPage
  end.

End Pagination.

(** *** Structural edits *)

Definition handleRemoveColumn (data : TableData) (columnName : string) : M TableData :=
  let newHeaders := filter (λ h, h ≠ columnName) (headers data) in
  newRows ← mapM (λ row, o ← load row; alloc (JS.rest columnName o)) (rows data);
  mret (mkTable newHeaders newRows).

Definition handleRemoveRowByRef (data : TableData) (rowRef : loc) : TableData :=
  let newRows := filter (λ r, r ≠ rowRef) (rows data) in
  mkTable (headers data) newRows.

(** What [handleRenameHeader] does besides building the new table. *)
Inductive RenameOutcome : Type :=
  | RenameCancelled                  (* [setEditingHeader(null)], nothing else *)
  | RenameRejected (alert : string)  (* [alert(...)], the editor stays open *)
  | RenameApplied (data : TableData). (* [onDataUpdate], [setEditingHeader(null)] *)

Definition renameKey (oldName newName key : string) : string :=
  if String.eqb key oldName then newName else key.

(** The row built by [Object.entries(row).forEach(...)]. *)
Definition renameRow (oldName newName : string) (row : JS.Obj) : JS.Obj :=
  foldl (λ newRow kv, JS.set (renameKey oldName newName kv.1) kv.2 newRow)
        [] (JS.entries row).

Definition handleRenameHeader (data : TableData) (oldName newName : string)
    : M RenameOutcome :=
  if negb (JS.truthyStr (JS.trim newName)) then mret RenameCancelled
  else if negb (String.eqb newName oldName) &&
          bool_decide (newName ∈ headers data)
  then mret (RenameRejected "A column with this name already exists")
  else
    let newHeaders := renameKey oldName newName <$> headers data in
    newRows ← mapM (λ row, o ← load row; alloc (renameRow oldName newName o))
                   (rows data);
    mret (RenameApplied (mkTable newHeaders newRows)).

(** *** View state and its handlers *)

(** [handleSort]: the new sort configuration and the page it resets to. *)
Definition handleSort (sortConfig : option SortConfig) (key : string)
    : SortConfig * Z :=
  let direction :=
    match sortConfig with
    | Some cfg =>
        if String.eqb (sort_key cfg) key &&
           match sort_direction cfg with Asc => true | Desc => false end
        then Desc else Asc
    | None => Asc
    end in
  (mkSort key direction, 1%Z).

(** The callback of [Array.from({ length: Math.min(5, maxPage) }, ...)]:
    the page of button [i], [None] where it returns [null]. *)
Definition pageNumber (currentPage maxPage i : Z) : option Z :=
  let pageNum := (i + 1)%Z in
  let pageNum :=
    if (5 <? maxPage)%Z && (3 <? currentPage)%Z then (currentPage - 2 + i)%Z
    else pageNum in
  if (maxPage <? pageNum)%Z then None else Some pageNum.

Definition pageButtons (currentPage maxPage : Z) : list (option Z) :=
  (λ i, pageNumber currentPage maxPage (Z.of_nat i))
  <$> seq 0 (Z.to_nat (Z.min 5 maxPage)).

Record ViewState : Type := mkView {
  vs_sortConfig : option SortConfig;
  vs_searchTerm : string;
  vs_currentPage : Z
}.

(** What the user can do to the view. *)
Inductive Event : Type :=
  | ClickHeader (key : string)     (* [handleSort(header)] *)
  | TypeSearch (text : string)     (* [onChange] of the search box *)
  | ClickFirst                     (* [<<] *)
  | ClickPrevious
  | ClickPage (i : nat)            (* the [i]-th numbered button *)
  | ClickNext
  | ClickLast.                     (* [>>] *)

(** The [onClick] and [onChange] handlers of the controls; a disabled
    button does nothing. *)
Definition handleEvent (isLoadingMore : bool) (maxPage : Z)
    (st : ViewState) (e : Event) : ViewState :=
  let currentPage := vs_currentPage st in
  let setCurrentPage p := mkView (vs_sortConfig st) (vs_searchTerm st) p in
  match e with
  | ClickHeader key =>
      let '(cfg, page) := handleSort (vs_sortConfig st) key in
      mkView (Some cfg) (vs_searchTerm st) page
  | TypeSearch text => mkView (vs_sortConfig st) text 1%Z
  | ClickFirst =>
      if (currentPage =? 1)%Z || isLoadingMore then st else setCurrentPage 1%Z
  | ClickPrevious =>
      if (currentPage =? 1)%Z || isLoadingMore then st
      else setCurrentPage (Z.max 1 (currentPage - 1))
  | ClickPage i =>
      match pageButtons currentPage maxPage !! i with
      | Some (Some pageNum) =>
          if isLoadingMore then st else setCurrentPage pageNum
      | _ => st
      end
  | ClickNext =>
      if (currentPage =? maxPage)%Z || isLoadingMore then st
      else setCurrentPage (Z.min maxPage (currentPage + 1))
  | ClickLast =>
      if (currentPage =? maxPage)%Z || isLoadingMore then st
      else setCurrentPage maxPage
  end.

(** The range shown in the footer:
    [(currentPage - 1) * RECORDS_PER_PAGE + 1] and
    [Math.min(currentPage * RECORDS_PER_PAGE, totalFilteredRows - 5)]. *)
Definition footerRange (currentPage totalFilteredRows : Z) : Z * Z :=
  (((currentPage - 1) * RECORDS_PER_PAGE + 1)%Z,
   Z.min (currentPage * RECORDS_PER_PAGE) (totalFilteredRows - 5)).

End DataTable.

(** * Vocabulary of the properties *)

(** ** Values *)

(** The integers that are numbers of the engine without rounding. *)
Definition safeInteger (n : Z) : Prop := (- 2 ^ 53 < n < 2 ^ 53)%Z.

(** ** Tables in the store *)

(** Every row reference of the table points into the store. *)
Definition validRows (h : Heap) (data : TableData) : Prop :=
  Forall (λ r, (r < length h)%nat) (rows data).

(** An object as the program builds it, by assignments to [{}] and by
    object rest patterns: each own property once, and none named
    ["__proto__"], which no assignment creates. *)
Definition wfObj (o : JS.Obj) : Prop :=
  NoDup (JS.keys o) ∧ "__proto__" ∉ JS.keys o.

(** The objects of the store are objects that the program built. *)
Definition wfHeap (h : Heap) : Prop := Forall wfObj h.

(** The invariant of the data model: every row's key set is a subset of
    the headers. *)
Definition rowKeysWithinHeaders (h : Heap) (data : TableData) : Prop :=
  Forall (λ r, JS.keys (deref h r) ⊆ headers data) (rows data).

(** The rows of [data'] are new objects, one per row of [data], built by
    [g] from the old ones. *)
Definition rebuiltBy (g : JS.Obj → JS.Obj) (h : Heap) (data : TableData)
    (h' : Heap) (data' : TableData) : Prop :=
  length (rows data') = length (rows data) ∧
  NoDup (rows data') ∧
  (∀ r, r ∈ rows data' → r ∉ rows data) ∧
  (∀ i r, rows data !! i = Some r →
     deref h' r = deref h r ∧
     ∃ r', rows data' !! i = Some r' ∧ r' ≠ r ∧ deref h' r' = g (deref h r)).

(** One entry of a row under the renaming of [handleRenameHeader]. *)
Definition renameEntry (oldName newName : string) (kv : string * JS.value)
    : string * JS.value :=
  (DataTable.renameKey oldName newName kv.1, kv.2).

(** The error shown to the user, if any. *)
Definition reportedError (out : DataTable.RenameOutcome) : option string :=
  match out with
  | DataTable.RenameRejected msg => Some msg
  | _ => None
  end.

(** Two objects have the same own properties with the same values (their
    enumeration order may differ). *)
Definition sameProperties (o1 o2 : JS.Obj) : Prop :=
  ∀ k, JS.ownProperty k o1 = JS.ownProperty k o2.

(** The contents of two tables agree: same headers and, row by row, the
    same properties. *)
Definition sameContents (h1 : Heap) (data1 : TableData)
    (h2 : Heap) (data2 : TableData) : Prop :=
  headers data1 = headers data2 ∧
  Forall2 sameProperties (rowObjects h1 data1) (rowObjects h2 data2).

(** ** Pages *)

(** [page] clamped into [[lo, hi]]. *)
Definition clamp (lo hi page : Z) : Z := Z.max lo (Z.min page hi).

(** [rows[a : b]] for [0 ≤ a ≤ b ≤ length rows]. *)
Definition rowsBetween (l : list nat) (a b : Z) : list nat :=
  take (Z.to_nat (b - a)%Z) (drop (Z.to_nat a) l).

(** The rows [l] shown in order, the one at offset [i] under the number
    [first + i + 1]. *)
Definition numbered (first : Z) (l : list nat) : list DataTable.Line :=
  imap (λ offset row, DataTable.RowLine (first + Z.of_nat offset + 1)%Z row) l.

(** ** Sorted rows *)

(** The value a row is sorted by. *)
Definition keyValue (h : Heap) (key : string) (r : nat) : JS.value :=
  JS.get (deref h r) key.

(** The rows of [l] with a value under the sort key, and those whose value
    is [null] or [undefined]. *)
Definition valuedRows (h : Heap) (key : string) (l : list nat) : list nat :=
  filter (λ r, JS.isNullish (keyValue h key r) = false) l.
Definition nullRows (h : Heap) (key : string) (l : list nat) : list nat :=
  filter (λ r, JS.isNullish (keyValue h key r) = true) l.

(** [a] is strictly before [b] for the comparison [cmp]. *)
Definition comesBefore {A : Type} (cmp : A → A → Z) (a b : A) : Prop :=
  (cmp a b < 0)%Z.

(** [cmp] is a consistent comparator for the elements of [l], in the
    sense of ECMAScript for [Array.prototype.sort]: comparing equal is an
    equivalence on them, and so are transitive comparing below and
    comparing above.  For such a comparison the result of [sort] is the
    same in every engine; for any other the order is left to the engine. *)
Definition consistentComparator {A : Type} (cmp : A → A → Z) (l : list A) : Prop :=
  (∀ a, a ∈ l → cmp a a = 0%Z) ∧
  (∀ a b, a ∈ l → b ∈ l → cmp a b = 0%Z → cmp b a = 0%Z) ∧
  (∀ a b c, a ∈ l → b ∈ l → c ∈ l →
     cmp a b = 0%Z → cmp b c = 0%Z → cmp a c = 0%Z) ∧
  (∀ a b c, a ∈ l → b ∈ l → c ∈ l →
     (cmp a b < 0 → cmp b c < 0 → cmp a c < 0)%Z) ∧
  (∀ a b c, a ∈ l → b ∈ l → c ∈ l →
     (0 < cmp a b → 0 < cmp b c → 0 < cmp a c)%Z).

(** An occurrence of [a] is before an occurrence of [b] in [l]. *)
Definition before {A : Type} (l : list A) (a b : A) : Prop :=
  [a; b] `sublist_of` l.

(** [l'] is [l] as [Array.prototype.sort] has to leave it for a consistent
    comparator: a rearrangement of [l] in which no element is before one
    that compares below it, and elements that compare equal are in their
    order of [l]. *)
Definition sortedStably {A : Type} (cmp : A → A → Z) (l l' : list A) : Prop :=
  l' ≡ₚ l ∧
  (∀ a b, before l' a b → ¬ (cmp b a < 0)%Z) ∧
  (∀ a b, before l a b → cmp a b = 0%Z → before l' a b).

(** Values of one kind: strings only or safe integers only, apart from
    the missing ones, which are all [null] or all [undefined]. *)
Definition oneKind (values : list JS.value) : Prop :=
  ∃ missing, (missing = JS.VNull ∨ missing = JS.VUndefined) ∧
    (Forall (λ v, v = missing ∨ ∃ s, v = JS.VString s) values ∨
     Forall (λ v, v = missing ∨ ∃ n, v = JS.VNumber n ∧ safeInteger n) values).

(** A string, a number or [undefined]: a value that [o["__proto__"] = v]
    does nothing with. *)
Definition plainValue (v : JS.value) : Prop :=
  match v with
  | JS.VUndefined | JS.VString _ | JS.VNumber _ => True
  | JS.VNull | JS.VInherited _ => False
  end.

(** The elements without a value are at the end of [l]. *)
Fixpoint nullsLast {A : Type} (isNull : A → bool) (l : list A) : Prop :=
  match l with
  | [] => True
  | x :: l' =>
      if isNull x then Forall (λ y, isNull y = true) l' else nullsLast isNull l'
  end.

(** ** The view *)

(** The states of the view that the user can reach: it starts unsorted,
    unfiltered and on page 1, and every event is handled with the page
    count of the rows found at that time. *)
Inductive reachableView (isLoadingMore : bool) : DataTable.ViewState → Prop :=
  | reachable_initial :
      reachableView isLoadingMore (DataTable.mkView None "" 1%Z)
  | reachable_event st total e :
      reachableView isLoadingMore st →
      reachableView isLoadingMore
        (DataTable.handleEvent isLoadingMore (DataTable.totalPages total) st e).

(** The pages of the numbered buttons that are shown. *)
Definition shownPages (buttons : list (option Z)) : list Z := omap id buttons.

(** The numbers and the rows of the row lines, top to bottom. *)
Definition lineNumbers (lines : list DataTable.Line) : list Z :=
  omap (λ line, match line with
                | DataTable.RowLine n _ => Some n
                | _ => None
                end) lines.
Definition lineRows (lines : list DataTable.Line) : list nat :=
  omap (λ line, match line with
                | DataTable.RowLine _ r => Some r
                | _ => None
                end) lines.

(** * Sample data *)

(** The lines of a text file. *)
Definition csv_lines (ls : list string) : string :=
  String.concat (String JS.LF "") ls.

(** The MIME type of an [.xlsx] workbook. *)
Definition xlsx_mime : string :=
  "application/vnd.openxmlformats-officedocument.spreadsheetml.sheet".

(** One row [{a: "1"}] under the headers [a; b]. *)
Definition oneRowStore : list JS.Obj := [[("a", JS.VString "1")]].
Definition oneRowTable : TableData := mkTable ["a"; "b"] [0%nat].

(** The sheet [B1:C2] with the header cells [x], [y] and the data cells
    [1], [2]. *)
Definition sheet_B1_C2 : FileUpload.Sheet :=
  FileUpload.mkSheet (Some (FileUpload.mkRange 0 1 1 2))
    (list_to_map
       [((0, 1)%nat, FileUpload.mkCell (Some "x") None);
        ((0, 2)%nat, FileUpload.mkCell (Some "y") None);
        ((1, 1)%nat, FileUpload.mkCell (Some "1") None);
        ((1, 2)%nat, FileUpload.mkCell (Some "2") None)]).

(** A sample engine that parses one date, written in two ways. *)
Definition sampleGetTime (s : string) : result (option Z) :=
  Ok (if String.eqb s "2024-01-05" || String.eqb s "5 January 2024"
      then Some 1704412800000%Z else None).
Definition sampleToLocaleDateString (t : Z) (locale : string)
    (options : DataTable.DateFormatOptions) : result string :=
  Ok "Jan 5, 2024".

(** Three rows under the headers [a; b]: [{a: null}], [{a: "x"}] and
    [{a: undefined}]. *)
Definition nullRowsStore : list JS.Obj :=
  [[("a", JS.VNull)]; [("a", JS.VString "x")]; [("a", JS.VUndefined)]].
Definition nullRowsTable : TableData := mkTable ["a"; "b"] [0; 1; 2]%nat.

(** Two rows with the same value under the sort key. *)
Definition tiedRowsStore : list JS.Obj :=
  [[("a", JS.VString "x"); ("b", JS.VString "1")];
   [("a", JS.VString "x"); ("b", JS.VString "2")]].
Definition tiedRowsTable : TableData := mkTable ["a"; "b"] [0; 1]%nat.

(** Six rows with numbers and text under the sort key: 20 is below 100 as
    a number, 100 below ["1a"] and ["1a"] below 20 as text. *)
Definition mixedRowsStore : list JS.Obj :=
  [[("a", JS.VNumber 2)]; [("a", JS.VNumber 10)]; [("a", JS.VNumber 3)];
   [("a", JS.VNumber 100)]; [("a", JS.VString "1a")]; [("a", JS.VNumber 20)]].
Definition mixedRowsTable : TableData := mkTable ["a"] [0; 1; 2; 3; 4; 5]%nat.

(** Three rows sorted by a column of distinct strings. *)
Definition distinctRowsStore : list JS.Obj :=
  [[("a", JS.VString "pear")]; [("a", JS.VString "Apple")];
   [("a", JS.VString "fig")]].
Definition distinctRowsTable : TableData := mkTable ["a"] [0; 1; 2]%nat.

(** * Properties *)

(** ** Strings and objects *)

Section ObjectFacts.
Import JS.

Lemma split_nonempty sep s : ∃ x xs, split sep s = x :: xs.
Proof.
  induction s as [|c s IH]; simpl; [by eauto|].
  destruct (Ascii.eqb c sep); [by eauto|].
  destruct IH as (x & xs & ->). by eauto.
Qed.

Lemma ownProperty_None_keys k o : ownProperty k o = None ↔ k ∉ keys o.
Proof.
  unfold keys. induction o as [|[k' v'] o IH]; simpl.
  - split; [intros _; apply not_elem_of_nil | done].
  - rewrite not_elem_of_cons. destruct (String.eqb_spec k k') as [->|Hne].
    + split; [done | by intros [? _]].
    + rewrite IH. tauto.
Qed.

Lemma ownProperty_is_Some_keys k o : is_Some (ownProperty k o) ↔ k ∈ keys o.
Proof.
  destruct (ownProperty k o) eqn:E.
  - split; [intros _ | by eauto].
    destruct (decide (k ∈ keys o)) as [|Hn]; [done|].
    apply ownProperty_None_keys in Hn. congruence.
  - split; [by intros [? ?]|]. intros Hin.
    by apply ownProperty_None_keys in E.
Qed.

Lemma ownProperty_update k v o k' :
  is_Some (ownProperty k o) →
  ownProperty k' (update k v o) =
    if decide (k' = k) then Some v else ownProperty k' o.
Proof.
  induction o as [|[k0 v0] o IH]; simpl; [by intros [? ?]|].
  destruct (String.eqb_spec k k0) as [->|Hne]; simpl.
  - intros _. destruct (String.eqb_spec k' k0) as [->|Hne'].
    + by rewrite decide_True.
    + by rewrite decide_False.
  - intros Hs. rewrite (IH Hs).
    destruct (String.eqb_spec k' k0) as [->|Hne']; [|done].
    by rewrite decide_False.
Qed.

Lemma ownProperty_insertIndex n k v o k' :
  ownProperty k o = None →
  ownProperty k' (insertIndex n k v o) =
    if decide (k' = k) then Some v else ownProperty k' o.
Proof.
  induction o as [|[k0 v0] o IH]; simpl.
  - intros _. destruct (String.eqb_spec k' k) as [->|Hne].
    + by rewrite decide_True.
    + by rewrite decide_False.
  - destruct (String.eqb_spec k k0) as [->|Hne]; [done|]. intros Hn.
    assert (Hhead : ownProperty k' ((k, v) :: (k0, v0) :: o) =
              if decide (k' = k) then Some v
              else if String.eqb k' k0 then Some v0 else ownProperty k' o).
    { simpl. destruct (String.eqb_spec k' k) as [->|Hne'].
      - by rewrite decide_True.
      - by rewrite decide_False. }
    destruct (arrayIndex k0) as [n'|]; [|exact Hhead].
    destruct (n <? n')%N; [exact Hhead|]. simpl.
    rewrite (IH Hn). destruct (String.eqb_spec k' k0) as [->|Hne']; [|done].
    by rewrite decide_False.
Qed.

Lemma ownProperty_snoc k v o k' :
  ownProperty k o = None →
  ownProperty k' (o ++ [(k, v)]) =
    if decide (k' = k) then Some v else ownProperty k' o.
Proof.
  induction o as [|[k0 v0] o IH]; simpl.
  - intros _. destruct (String.eqb_spec k' k) as [->|Hne].
    + by rewrite decide_True.
    + by rewrite decide_False.
  - destruct (String.eqb_spec k k0) as [->|Hne]; [done|]. intros Hn.
    rewrite (IH Hn). destruct (String.eqb_spec k' k0) as [->|Hne']; [|done].
    by rewrite decide_False.
Qed.

(** Reading after the creation of a property. *)
Lemma ownProperty_defineOwn k v o k' :
  ownProperty k' (defineOwn k v o) =
    if decide (k' = k) then Some v else ownProperty k' o.
Proof.
  unfold defineOwn. destruct (ownProperty k o) eqn:E.
  - apply ownProperty_update. by rewrite E.
  - destruct (arrayIndex k).
    + by apply ownProperty_insertIndex.
    + by apply ownProperty_snoc.
Qed.

Lemma elem_of_keys_defineOwn k v o k' :
  k' ∈ keys (defineOwn k v o) ↔ k' = k ∨ k' ∈ keys o.
Proof.
  rewrite <-!ownProperty_is_Some_keys, ownProperty_defineOwn.
  destruct (decide (k' = k)) as [->|Hne].
  - split; [by left | by eauto].
  - split; [by right | by intros [?|?]].
Qed.

(** An assignment creates a property, except under ["__proto__"]. *)
Lemma set_plain k v o : k ≠ "__proto__" → set k v o = defineOwn k v o.
Proof.
  intros Hk. unfold set. by destruct (String.eqb_spec k "__proto__").
Qed.

Lemma set_own k v o : k ∈ keys o → set k v o = defineOwn k v o.
Proof.
  intros Hk%ownProperty_is_Some_keys. unfold set.
  by rewrite (bool_decide_eq_true_2 _ Hk), andb_false_r.
Qed.

Lemma set_proto v o : "__proto__" ∉ keys o → set "__proto__" v o = o.
Proof.
  intros Hk. unfold set. rewrite bool_decide_eq_false_2; [done|].
  by rewrite ownProperty_is_Some_keys.
Qed.

(** Reading after writing. *)
Lemma ownProperty_set k v o k' :
  k ≠ "__proto__" →
  ownProperty k' (set k v o) =
    if decide (k' = k) then Some v else ownProperty k' o.
Proof. intros Hk. rewrite set_plain by done. apply ownProperty_defineOwn. Qed.

Lemma ownProperty_set_ne k v o k' :
  k' ≠ k → ownProperty k' (set k v o) = ownProperty k' o.
Proof.
  intros Hne. unfold set. destruct (_ && _); [done|].
  by rewrite ownProperty_defineOwn, decide_False.
Qed.

Lemma elem_of_keys_set k v o k' :
  k' ∈ keys (set k v o) ↔ k' = k ∧ k ≠ "__proto__" ∨ k' ∈ keys o.
Proof.
  destruct (decide (k = "__proto__")) as [->|Hk].
  - destruct (decide ("__proto__" ∈ keys o)) as [Hown|Hown].
    + rewrite set_own, elem_of_keys_defineOwn by done.
      split; [intros [->|?]; by right|intros [[_ ?]|?]; [done|by right]].
    + rewrite set_proto by done. split; [by right|by intros [[_ ?]|?]].
  - rewrite set_plain, elem_of_keys_defineOwn by done.
    split; [intros [->|?]; [by left|by right]|intros [[-> _]|?]; [by left|by right]].
Qed.

(** No assignment creates a property ["__proto__"]. *)
Lemma proto_not_key_set k v o :
  "__proto__" ∉ keys o → "__proto__" ∉ keys (set k v o).
Proof. rewrite elem_of_keys_set. by intros ? [[-> ?]|?]. Qed.

Lemma elem_of_keys_rest k o k' :
  k' ∈ keys (rest k o) ↔ k' ≠ k ∧ k' ∈ keys o.
Proof.
  unfold keys, rest. rewrite !list_elem_of_fmap. split.
  - intros ([k0 v0] & -> & Hin). apply list_elem_of_filter in Hin as [Hne Hin].
    split; [done|]. by exists (k0, v0).
  - intros [Hne ([k0 v0] & -> & Hin)]. exists (k0, v0). split; [done|].
    by apply list_elem_of_filter.
Qed.

Lemma ownProperty_rest k o k' :
  ownProperty k' (rest k o) =
    if decide (k' = k) then None else ownProperty k' o.
Proof.
  unfold rest. induction o as [|[k0 v0] o IH].
  - simpl. by destruct (decide (k' = k)).
  - rewrite filter_cons. simpl. destruct (decide (k0 ≠ k)) as [Hne|Heq]; simpl.
    + rewrite IH. destruct (String.eqb_spec k' k0) as [->|Hne']; [|done].
      by rewrite decide_False.
    + apply dec_stable in Heq as ->. rewrite IH.
      destruct (decide (k' = k)) as [->|Hne']; [done|].
      by destruct (String.eqb_spec k' k).
Qed.

Lemma keys_update k v o : keys (update k v o) = keys o.
Proof.
  unfold keys. induction o as [|[k0 v0] o IH]; [done|]. simpl.
  destruct (String.eqb k k0); [done|]. simpl. by f_equal.
Qed.

Lemma keys_insertIndex n k v o : keys (insertIndex n k v o) ≡ₚ k :: keys o.
Proof.
  unfold keys. induction o as [|[k0 v0] o IH]; [done|]. simpl.
  destruct (arrayIndex k0) as [n'|]; [|done].
  destruct (n <? n')%N; [done|]. simpl. rewrite IH. apply Permutation_swap.
Qed.

(** Writing a property keeps every key once. *)
Lemma NoDup_keys_defineOwn k v o :
  NoDup (keys o) → NoDup (keys (defineOwn k v o)).
Proof.
  intros Hnd. unfold defineOwn. destruct (ownProperty k o) eqn:E.
  - by rewrite keys_update.
  - apply ownProperty_None_keys in E.
    assert (Hcons : NoDup (k :: keys o)) by by apply NoDup_cons.
    destruct (arrayIndex k).
    + by rewrite keys_insertIndex.
    + unfold keys in *. rewrite fmap_app. simpl.
      by rewrite <-Permutation_cons_append.
Qed.

Lemma NoDup_keys_set k v o : NoDup (keys o) → NoDup (keys (set k v o)).
Proof.
  intros Hnd. unfold set. destruct (_ && _); [done|].
  by apply NoDup_keys_defineOwn.
Qed.

Lemma NoDup_keys_foldl_set {B : Type} (f : Obj → B → Obj) (l : list B) (acc : Obj) :
  (∀ o b, NoDup (keys o) → NoDup (keys (f o b))) →
  NoDup (keys acc) → NoDup (keys (foldl f acc l)).
Proof.
  intros Hf. revert acc. induction l as [|b l IH]; intros acc Hacc; simpl; [done|].
  by apply IH, Hf.
Qed.

Lemma NoDup_keys_rest k o : NoDup (keys o) → NoDup (keys (rest k o)).
Proof.
  unfold rest. induction o as [|[k0 v0] o IH]; [done|].
  unfold keys in *. rewrite fmap_cons, filter_cons. simpl.
  intros [Hk0 Hnd]%NoDup_cons. destruct (decide (k0 ≠ k)); [|by apply IH].
  rewrite fmap_cons. apply NoDup_cons. split; [|by apply IH].
  intros Hin. apply Hk0. by apply elem_of_keys_rest in Hin as [_ ?].
Qed.

End ObjectFacts.

(** ** The store *)

Section StoreFacts.

Lemma deref_app_l (h h' : Heap) r : (r < length h)%nat → deref (h ++ h') r = deref h r.
Proof. intros Hr. unfold deref. by rewrite lookup_app_l. Qed.

Lemma deref_app_r (h h' : Heap) i : deref (h ++ h') (length h + i) = deref h' i.
Proof.
  unfold deref. rewrite lookup_app_r by lia.
  by replace (length h + i - length h)%nat with i by lia.
Qed.

(** Allocating one object per element: the new rows get the consecutive
    addresses after the old store, which is left untouched. *)
Lemma mapM_alloc {A : Type} (f : A → JS.Obj) (l : list A) (h : Heap) :
  mapM (λ x, alloc (f x)) l h = (seq (length h) (length l), h ++ (f <$> l)).
Proof.
  revert h. induction l as [|x l IH]; intros h; simpl.
  - by rewrite app_nil_r.
  - unfold mbind, M_bind, alloc. rewrite IH. unfold mret, M_ret.
    rewrite length_app. simpl.
    replace (length h + 1)%nat with (S (length h)) by lia.
    by rewrite <-app_assoc.
Qed.

Lemma bind_run {A B : Type} (m : M A) (f : A → M B) (h : Heap) :
  (m ≫= f) h = let '(a, h') := m h in f a h'.
Proof. done. Qed.

Lemma mapM_load_alloc (g : JS.Obj → JS.Obj) (rs : list loc) (h : Heap) :
  Forall (λ r, (r < length h)%nat) rs →
  mapM (λ r, o ← load r; alloc (g o)) rs h =
    (seq (length h) (length rs), h ++ ((λ r, g (deref h r)) <$> rs)).
Proof.
  intros Hvalid.
  enough (Hgen : ∀ pre,
    mapM (λ r, o ← load r; alloc (g o)) rs (h ++ pre) =
      (seq (length (h ++ pre)) (length rs),
       (h ++ pre) ++ ((λ r, g (deref h r)) <$> rs))).
  { specialize (Hgen []). by rewrite app_nil_r in Hgen. }
  induction Hvalid as [|r rs Hr Hrs IH]; intros pre; simpl.
  - by rewrite app_nil_r.
  - unfold mbind, M_bind, load, alloc. rewrite deref_app_l by done.
    rewrite <-(app_assoc h pre), IH. unfold mret, M_ret.
    rewrite !length_app. simpl. rewrite <-!app_assoc. simpl.
    by replace (length h + (length pre + 1))%nat
      with (S (length h + length pre)) by lia.
Qed.

End StoreFacts.

Section WellFormedStore.
Import JS.

Lemma wfObj_nil : wfObj [].
Proof. split; [apply NoDup_nil_2|apply not_elem_of_nil]. Qed.

Lemma wfObj_deref (h : Heap) r : wfHeap h → wfObj (deref h r).
Proof.
  intros Hwf. unfold deref. destruct (h !! r) as [o|] eqn:E; simpl.
  - unfold wfHeap in Hwf. rewrite Forall_forall in Hwf.
    apply Hwf. by eapply list_elem_of_lookup_2.
  - apply wfObj_nil.
Qed.

Lemma wfHeap_deref (h : Heap) r : wfHeap h → NoDup (keys (deref h r)).
Proof. intros Hwf. by apply wfObj_deref. Qed.

Lemma wfHeap_deref_proto (h : Heap) r :
  wfHeap h → "__proto__" ∉ keys (deref h r).
Proof. intros Hwf. by apply wfObj_deref. Qed.

Lemma wfObj_set k v o : wfObj o → wfObj (set k v o).
Proof.
  intros [Hnd Hproto]. split; [by apply NoDup_keys_set|].
  by apply proto_not_key_set.
Qed.

Lemma wfObj_rest k o : wfObj o → wfObj (rest k o).
Proof.
  intros [Hnd Hproto]. split; [by apply NoDup_keys_rest|].
  rewrite elem_of_keys_rest. by intros [_ ?].
Qed.

Lemma wfObj_foldl_set {B : Type} (f : Obj → B → Obj) (l : list B) (acc : Obj) :
  (∀ o b, wfObj o → wfObj (f o b)) → wfObj acc → wfObj (foldl f acc l).
Proof.
  intros Hf. revert acc. induction l as [|b l IH]; intros acc Hacc; simpl; [done|].
  by apply IH, Hf.
Qed.

(** Objects added to the store by one allocation per element. *)
Lemma wfHeap_app_fmap {B : Type} (g : B → Obj) (h : Heap) (l : list B) :
  (∀ b, wfObj (g b)) → wfHeap h → wfHeap (h ++ (g <$> l)).
Proof.
  intros Hg Hwf. unfold wfHeap in *. apply Forall_app. split; [done|].
  apply Forall_fmap, Forall_forall. intros b _. apply Hg.
Qed.

End WellFormedStore.

(** ** The parser *)

Section ParserFacts.
Import JS FileUpload.

Lemma orStr_empty (o : option string) : orStr o "" = default "" o.
Proof.
  destruct o as [s|]; simpl; [|done].
  unfold truthyStr. by destruct (String.eqb_spec s "") as [->|].
Qed.

Lemma zipRow_snoc hs h values :
  zipRow (hs ++ [h]) values =
    set h (VString (orStr (values !! length hs) "")) (zipRow hs values).
Proof.
  unfold zipRow. rewrite imap_app, foldl_app. simpl.
  by rewrite Nat.add_0_r.
Qed.

(** The keys of a parsed row are the headers, except ["__proto__"]. *)
Lemma keys_zipRow hs values k :
  k ∈ keys (zipRow hs values) ↔ k ∈ hs ∧ k ≠ "__proto__".
Proof.
  induction hs as [|h hs IH] using rev_ind.
  - unfold zipRow. simpl. rewrite !elem_of_nil. tauto.
  - rewrite zipRow_snoc, elem_of_keys_set, IH, elem_of_app, list_elem_of_singleton.
    split; [intros [[-> ?]|[? ?]]; tauto|intros [[?| ->] ?]; tauto].
Qed.

(** The header at position [i] reads field [i] of the line, unless the
    same header occurs again further right. *)
Lemma ownProperty_zipRow hs values i hd :
  hd ≠ "__proto__" →
  hs !! i = Some hd →
  (∀ j, (i < j)%nat → hs !! j ≠ Some hd) →
  ownProperty hd (zipRow hs values) = Some (VString (default "" (values !! i))).
Proof.
  intros Hproto. revert i.
  induction hs as [|h hs IH] using rev_ind; intros i Hi Hlast.
  - done.
  - rewrite zipRow_snoc.
    destruct (decide (i = length hs)) as [->|Hne].
    + rewrite list_lookup_middle in Hi by done. injection Hi as ->.
      by rewrite ownProperty_set, orStr_empty, decide_True.
    + assert (Hlt : (i < length hs)%nat).
      { apply lookup_lt_Some in Hi. rewrite length_app in Hi. simpl in Hi. lia. }
      rewrite lookup_app_l in Hi by done.
      rewrite ownProperty_set_ne.
      * apply IH; [done|]. intros j Hj Hjh.
        apply (Hlast j Hj). rewrite lookup_app_l; [done|].
        by apply lookup_lt_Some in Hjh.
      * intros ->. apply (Hlast (length hs) Hlt).
        by rewrite list_lookup_middle.
Qed.

Lemma wfObj_zipRow hs values : wfObj (zipRow hs values).
Proof.
  unfold zipRow. apply wfObj_foldl_set; [|apply wfObj_nil].
  intros o ih. apply wfObj_set.
Qed.

Lemma NoDup_keys_zipRow hs values : NoDup (keys (zipRow hs values)).
Proof. apply wfObj_zipRow. Qed.

Lemma parseCSV_unfold text (h : Heap) line0 lines1 :
  split LF (trim text) = line0 :: lines1 →
  let hs := trim <$> split comma line0 in
  parseCSV text h =
    (Ok (mkTable hs (seq (length h) (length lines1))),
     h ++ ((λ line, zipRow hs (trim <$> split comma line)) <$> lines1)).
Proof.
  intros Hs hs. unfold parseCSV. rewrite Hs.
  unfold mbind, M_bind. by rewrite mapM_alloc.
Qed.

(** [parseCSV] has no failing run: [split] never returns the empty array. *)
Lemma parseCSV_never_throws text (h : Heap) :
  ∃ data h', parseCSV text h = (Ok data, h').
Proof.
  destruct (split_nonempty LF (trim text)) as (line0 & lines1 & Hs).
  rewrite (parseCSV_unfold _ _ _ _ Hs). by eauto.
Qed.

End ParserFacts.

(** C8. [parseCSV] succeeds on every text; its headers are the trimmed
    comma-separated fields of the first line, and every further line gives
    one row in which the header at position [i] (not repeated to its right,
    and not ["__proto__"]) holds the trimmed field [i] of the line, or the
    empty string when the line has no field [i].  The text [a,b / 1,2 / 3,4]
    gives the headers [a; b] and the rows [{a:"1", b:"2"}; {a:"3", b:"4"}];
    the short line [1] gives [{a:"1", b:""}]; white space around a field is
    dropped.  Under a header ["__proto__"] the assignment [row[header] = ...]
    creates no property: for the text [a,__proto__ / 1,2] the row is
    [{a:"1"}], the field [2] is lost, and the cell of that column reads
    [Object.prototype] and shows ["[object Object]"]. *)
Theorem parseCSV_zips_lines_with_headers :
  (∀ text (h : Heap), ∃ line0 lines1 data h',
     JS.split JS.LF (JS.trim text) = line0 :: lines1 ∧
     FileUpload.parseCSV text h = (Ok data, h') ∧
     headers data = JS.trim <$> JS.split JS.comma line0 ∧
     length (rows data) = length lines1 ∧
     ∀ n line, lines1 !! n = Some line →
       ∃ r, rows data !! n = Some r ∧
         JS.keys (deref h' r) ⊆ headers data ∧
         ∀ i hd, headers data !! i = Some hd →
           (∀ j, (i < j)%nat → headers data !! j ≠ Some hd) →
           hd ≠ "__proto__" →
           JS.get (deref h' r) hd =
             JS.VString (default "" ((JS.trim <$> JS.split JS.comma line) !! i)))
  ∧ (∃ data h', FileUpload.parseCSV (csv_lines ["a,b"; "1,2"; "3,4"]) [] = (Ok data, h') ∧
       headers data = ["a"; "b"] ∧
       rowObjects h' data =
         [[("a", JS.VString "1"); ("b", JS.VString "2")];
          [("a", JS.VString "3"); ("b", JS.VString "4")]])
  ∧ (∃ data h', FileUpload.parseCSV (csv_lines ["a,b"; "1"]) [] = (Ok data, h') ∧
       headers data = ["a"; "b"] ∧
       rowObjects h' data = [[("a", JS.VString "1"); ("b", JS.VString "")]])
  ∧ (∃ data h',
       FileUpload.parseCSV (csv_lines ["  name ,  home town "; " Ann , New York  "; "Bob "]) [] =
         (Ok data, h') ∧
       headers data = ["name"; "home town"] ∧
       rowObjects h' data =
         [[("name", JS.VString "Ann"); ("home town", JS.VString "New York")];
          [("name", JS.VString "Bob"); ("home town", JS.VString "")]])
  ∧ (∃ data h',
       FileUpload.parseCSV (csv_lines ["a,__proto__"; "1,2"]) [] = (Ok data, h') ∧
       headers data = ["a"; "__proto__"] ∧
       rowObjects h' data = [[("a", JS.VString "1")]] ∧
       Forall (λ row, JS.get row "__proto__" = JS.VInherited "__proto__" ∧
                 ∀ getTime toLocale,
                   DataTable.renderCells getTime toLocale (headers data) row =
                     ["1"; "[object Object]"])
              (rowObjects h' data)).
Proof.
  split; [|split; [|split; [|split]]].
  - intros text h.
    destruct (split_nonempty JS.LF (JS.trim text)) as (line0 & lines1 & Hs).
    eexists line0, lines1, _, _. split; [done|].
    split; [by apply parseCSV_unfold|]. simpl.
    split; [done|]. split; [by rewrite length_seq|].
    intros n line Hn. exists (length h + n)%nat.
    pose proof (lookup_lt_Some _ _ _ Hn) as Hlt.
    split; [by rewrite lookup_seq_lt|].
    rewrite deref_app_r. unfold deref. rewrite list_lookup_fmap, Hn. simpl.
    split.
    + intros k Hk. by apply keys_zipRow in Hk as [? _].
    + intros i hd Hi Hlast Hproto. unfold JS.get.
      by rewrite (ownProperty_zipRow _ _ i hd Hproto Hi Hlast).
  - exists (mkTable ["a"; "b"] [0; 1]%nat),
      [[("a", JS.VString "1"); ("b", JS.VString "2")];
       [("a", JS.VString "3"); ("b", JS.VString "4")]].
    split; [by vm_compute|]. by split.
  - exists (mkTable ["a"; "b"] [0]%nat),
      [[("a", JS.VString "1"); ("b", JS.VString "")]].
    split; [by vm_compute|]. by split.
  - exists (mkTable ["name"; "home town"] [0; 1]%nat),
      [[("name", JS.VString "Ann"); ("home town", JS.VString "New York")];
       [("name", JS.VString "Bob"); ("home town", JS.VString "")]].
    split; [by vm_compute|]. by split.
  - exists (mkTable ["a"; "__proto__"] [0]%nat), [[("a", JS.VString "1")]].
    split; [by vm_compute|]. split; [done|]. split; [done|].
    apply Forall_singleton. split; [done|]. intros getTime toLocale.
    by vm_compute.
Qed.

(** The text [ a , b / 1 ] with white space around the fields: the row
    holds ["1"] under [a] and the empty string under [b]. *)
Lemma parseCSV_zips_lines_with_headers_witness :
  ∃ data h' r,
    FileUpload.parseCSV (csv_lines ["  a , b "; "  1  "]) [] = (Ok data, h') ∧
    rows data !! 0%nat = Some r ∧
    JS.get (deref h' r) "a" = JS.VString "1" ∧
    JS.get (deref h' r) "b" = JS.VString "".
Proof.
  destruct parseCSV_zips_lines_with_headers as [Hgen _].
  destruct (Hgen (csv_lines ["  a , b "; "  1  "]) []) as
    (line0 & lines1 & data & h' & Hs & Hp & Hh & Hl & Hrows).
  vm_compute in Hs. injection Hs as <- <-.
  destruct (Hrows 0%nat "  1" eq_refl) as (r & Hr & _ & Hget).
  exists data, h', r. split; [exact Hp|]. split; [exact Hr|].
  rewrite Hh in Hget. split.
  - apply (Hget 0%nat "a" eq_refl); [|done].
    intros j Hj Hja. destruct j as [|[|j]]; [lia|done|done].
  - apply (Hget 1%nat "b" eq_refl); [|done].
    intros j Hj Hjb. destruct j as [|[|j]]; [lia|lia|done].
Defined.

(** C2. On the empty text [parseCSV] does not throw: the "Empty file"
    branch is never taken, and the result is a table with the single
    header [""] and no rows.  So an empty [.csv] file is uploaded as that
    table. *)
Theorem parseCSV_empty_text_returns_table (h : Heap) :
  FileUpload.parseCSV "" h = (Ok (mkTable [""] []), h) ∧
  ∀ XLSX_read,
    FileUpload.handleFile XLSX_read (FileUpload.mkFile "empty.csv" "text/csv" "") h =
      (Ok (mkTable [""] []), h).
Proof.
  assert (Hparse : FileUpload.parseCSV "" h = (Ok (mkTable [""] []), h)).
  { rewrite (parseCSV_unfold "" h "" []) by reflexivity.
    simpl. by rewrite app_nil_r. }
  split; [done|]. intros XLSX_read. exact Hparse.
Qed.

(** ** Format dispatch *)

(** A file named [report.csv] whose MIME type contains [spreadsheet] is
    sent to the Excel path, and a MIME type that merely contains
    [text/csv] does not select the CSV path. *)
Lemma dispatch_csv_extension_not_decisive :
  JS.endsWith "report.csv" ".csv" = true ∧
  FileUpload.dispatch (FileUpload.mkFile "report.csv" xlsx_mime "a,b") = Ok FileUpload.ExcelPath ∧
  JS.includes "text/csv;charset=utf-8" "text/csv" = true ∧
  FileUpload.dispatch (FileUpload.mkFile "report" "text/csv;charset=utf-8" "a,b") =
    Throw "Unsupported file format. Please upload CSV or Excel files.".
Proof. by vm_compute. Qed.

(** C3 (amended). The tests of the dispatch, in their order: a name ending
    in [.xlsx] or [.xls] selects the Excel path whatever the MIME type;
    otherwise a MIME type containing [spreadsheet] selects the Excel path,
    also for a name ending in [.csv]; otherwise a name ending in [.csv] or
    the MIME type [text/csv] itself selects the CSV path; every other file
    is refused with a format error (the "invalid format" one when it has no
    MIME type, the "unsupported format" one otherwise). *)
Theorem dispatch_order_of_tests (file : FileUpload.File) :
  let name := FileUpload.file_name file in
  let type := FileUpload.file_type file in
  let excelName := JS.endsWith name ".xlsx" || JS.endsWith name ".xls" in
  let excelType := JS.includes type "spreadsheet" in
  let csvName := JS.endsWith name ".csv" in
  let csvType := String.eqb type "text/csv" in
  (excelName = true → FileUpload.dispatch file = Ok FileUpload.ExcelPath) ∧
  (excelName = false → excelType = true →
     FileUpload.dispatch file = Ok FileUpload.ExcelPath) ∧
  (excelName = false → excelType = false → csvName || csvType = true →
     FileUpload.dispatch file = Ok FileUpload.CSVPath) ∧
  (excelName = false → excelType = false → csvName = false → csvType = false →
     FileUpload.dispatch file =
       Throw (if JS.truthyStr type
              then "Unsupported file format. Please upload CSV or Excel files."
              else "Invalid file format. Please upload a CSV or Excel file.")).
Proof.
  destruct file as [name type contents]. simpl. unfold FileUpload.dispatch. simpl.
  assert (Hempty : JS.truthyStr type = false → JS.includes type "spreadsheet" = false
                   ∧ String.eqb type "text/csv" = false).
  { unfold JS.truthyStr. destruct (String.eqb_spec type "") as [->|]; [done|].
    by intros [=]. }
  destruct (JS.truthyStr type); simpl.
  - clear Hempty.
    destruct (JS.endsWith name ".xlsx"), (JS.endsWith name ".xls"),
      (JS.includes type "spreadsheet"), (JS.endsWith name ".csv"),
      (String.eqb type "text/csv"); simpl; naive_solver.
  - pose proof (Hempty eq_refl) as [He1 He2]. clear Hempty. rewrite He1, He2.
    destruct (JS.endsWith name ".xlsx"), (JS.endsWith name ".xls"),
      (JS.endsWith name ".csv"); simpl; naive_solver.
Qed.

(** [report.csv] with the MIME type [application/vnd.ms-excel] goes to the
    CSV path. *)
Lemma dispatch_order_of_tests_witness :
  FileUpload.dispatch (FileUpload.mkFile "report.csv" "application/vnd.ms-excel" "a,b") =
    Ok FileUpload.CSVPath.
Proof.
  apply (dispatch_order_of_tests
           (FileUpload.mkFile "report.csv" "application/vnd.ms-excel" "a,b"));
    reflexivity.
Defined.

(** ** The table model *)

Section TableFacts.
Import JS DataTable.

Lemma handleRemoveColumn_unfold (h : Heap) data columnName :
  validRows h data →
  handleRemoveColumn data columnName h =
    (mkTable (filter (λ hd, hd ≠ columnName) (headers data))
             (seq (length h) (length (rows data))),
     h ++ ((λ r, rest columnName (deref h r)) <$> rows data)).
Proof.
  intros Hv. unfold handleRemoveColumn.
  by rewrite bind_run, mapM_load_alloc.
Qed.

Lemma handleRenameHeader_unfold (h : Heap) data oldName newName :
  validRows h data →
  truthyStr (trim newName) = true →
  newName = oldName ∨ newName ∉ headers data →
  handleRenameHeader data oldName newName h =
    (RenameApplied
       (mkTable (renameKey oldName newName <$> headers data)
                (seq (length h) (length (rows data)))),
     h ++ ((λ r, renameRow oldName newName (deref h r)) <$> rows data)).
Proof.
  intros Hv Ht Hnew. unfold handleRenameHeader. rewrite Ht. simpl.
  assert (Hguard : negb (String.eqb newName oldName) &&
                   bool_decide (newName ∈ headers data) = false).
  { destruct Hnew as [->|Hn].
    - by rewrite String.eqb_refl.
    - rewrite (bool_decide_eq_false_2 _ Hn). by rewrite andb_false_r. }
  rewrite Hguard. by rewrite bind_run, mapM_load_alloc.
Qed.

(** The row at position [i] of a table built by one allocation per row. *)
Lemma deref_fresh_row (h : Heap) (g : nat → Obj) (rs : list nat) i r :
  rs !! i = Some r →
  seq (length h) (length rs) !! i = Some (length h + i)%nat ∧
  deref (h ++ (g <$> rs)) (length h + i) = g r.
Proof.
  intros Hi. pose proof (lookup_lt_Some _ _ _ Hi) as Hlt.
  split; [by apply lookup_seq_lt|].
  rewrite deref_app_r. unfold deref. by rewrite list_lookup_fmap, Hi.
Qed.

Lemma elem_of_fresh_rows (h : Heap) n r :
  r ∈ seq (length h) n → ∃ i, r = (length h + i)%nat ∧ (i < n)%nat.
Proof. intros Hr%elem_of_seq. exists (r - length h)%nat. lia. Qed.

(** Assignments whose keys are not ["__proto__"] create properties. *)
Lemma foldl_set_plain (es : list (string * value)) (acc : Obj) :
  "__proto__" ∉ es.*1 →
  foldl (λ o kv, set kv.1 kv.2 o) acc es =
    foldl (λ o kv, defineOwn kv.1 kv.2 o) acc es.
Proof.
  revert acc. induction es as [|[k0 v0] es IH]; intros acc Hes; simpl; [done|].
  rewrite fmap_cons in Hes. apply not_elem_of_cons in Hes as [Hk0 Hes].
  rewrite set_plain by done. by apply IH.
Qed.

(** Setting properties one after the other: the last write to a key wins,
    and with no repeated key every entry is read back. *)
Lemma ownProperty_foldl_set (es : list (string * value)) (acc : Obj) k :
  NoDup es.*1 → "__proto__" ∉ es.*1 →
  ownProperty k (foldl (λ o kv, set kv.1 kv.2 o) acc es) =
    match ownProperty k es with
    | Some v => Some v
    | None => ownProperty k acc
    end.
Proof.
  intros Hnd Hproto. rewrite foldl_set_plain by done. clear Hproto.
  revert acc Hnd. induction es as [|[k0 v0] es IH]; intros acc Hnd; simpl; [done|].
  apply NoDup_cons in Hnd as [Hk0 Hnd]. rewrite (IH _ Hnd), ownProperty_defineOwn.
  destruct (String.eqb_spec k k0) as [->|Hne].
  - rewrite decide_True by done.
    by rewrite (proj2 (ownProperty_None_keys k0 es) Hk0).
  - by rewrite decide_False.
Qed.

Lemma elem_of_keys_foldl_set_1 (es : list (string * value)) (acc : Obj) k :
  k ∈ keys (foldl (λ o kv, set kv.1 kv.2 o) acc es) → k ∈ es.*1 ∨ k ∈ keys acc.
Proof.
  revert acc. induction es as [|[k0 v0] es IH]; intros acc; simpl; [by right|].
  intros [Hk|Hk]%IH; [left; by right|].
  apply elem_of_keys_set in Hk as [[-> _]|Hk]; [left; by left|by right].
Qed.

Lemma elem_of_keys_foldl_set (es : list (string * value)) (acc : Obj) k :
  "__proto__" ∉ es.*1 →
  k ∈ keys (foldl (λ o kv, set kv.1 kv.2 o) acc es) ↔ k ∈ es.*1 ∨ k ∈ keys acc.
Proof.
  revert acc. induction es as [|[k0 v0] es IH]; intros acc Hes; simpl.
  - rewrite elem_of_nil. tauto.
  - rewrite fmap_cons in Hes. apply not_elem_of_cons in Hes as [Hk0 Hes].
    assert (k0 ≠ "__proto__") by (intros ->; by apply Hk0).
    rewrite IH, elem_of_keys_set, elem_of_cons by done. tauto.
Qed.

Lemma renameRow_as_fold oldName newName (o : Obj) :
  renameRow oldName newName o =
    foldl (λ o kv, set kv.1 kv.2 o) [] (renameEntry oldName newName <$> o).
Proof. unfold renameRow, entries. by rewrite foldl_fmap. Qed.

Lemma renameRow_snoc oldName newName (o : Obj) k0 v0 :
  renameRow oldName newName (o ++ [(k0, v0)]) =
    set (renameKey oldName newName k0) v0 (renameRow oldName newName o).
Proof. unfold renameRow, entries. by rewrite foldl_app. Qed.

Lemma renameKey_eq_new oldName newName k :
  renameKey oldName newName k = newName ↔ k = oldName ∨ k = newName.
Proof.
  unfold renameKey. destruct (String.eqb_spec k oldName) as [->|Hne].
  - tauto.
  - split; [by right | by intros [?|?]].
Qed.

(** The keys that the entries of a row are renamed to. *)
Lemma renamed_keys oldName newName (o : Obj) :
  (renameEntry oldName newName <$> o).*1 = renameKey oldName newName <$> keys o.
Proof. unfold keys. by rewrite <-!list_fmap_compose. Qed.

(** No entry is renamed to ["__proto__"] in a row that the program built,
    unless the column is renamed to it. *)
Lemma renamed_plain oldName newName (o : Obj) :
  "__proto__" ∉ keys o →
  newName ≠ "__proto__" ∨ oldName ∉ keys o →
  "__proto__" ∉ (renameEntry oldName newName <$> o).*1.
Proof.
  intros Hproto Hnew. rewrite renamed_keys.
  intros (k0 & Heq & Hk0)%list_elem_of_fmap. unfold renameKey in Heq.
  destruct (String.eqb_spec k0 oldName) as [Hold|Hne].
  - destruct Hnew as [Hnew|Hnew]; [congruence|]. apply Hnew. by rewrite <-Hold.
  - apply Hproto. by rewrite Heq.
Qed.

Lemma keys_renameRow oldName newName (o : Obj) k :
  k ∈ keys (renameRow oldName newName o) →
  ∃ k0, k0 ∈ keys o ∧ k = renameKey oldName newName k0.
Proof.
  rewrite renameRow_as_fold.
  intros [Hk|Hk]%elem_of_keys_foldl_set_1; [|by apply elem_of_nil in Hk].
  rewrite renamed_keys in Hk. apply list_elem_of_fmap in Hk as (k0 & -> & Hk0).
  by exists k0.
Qed.

Lemma keys_renameRow_iff oldName newName (o : Obj) k :
  "__proto__" ∉ keys o →
  newName ≠ "__proto__" ∨ oldName ∉ keys o →
  k ∈ keys (renameRow oldName newName o) ↔
  ∃ k0, k0 ∈ keys o ∧ k = renameKey oldName newName k0.
Proof.
  intros Hproto Hnew. split; [apply keys_renameRow|].
  intros (k0 & Hk0 & ->).
  rewrite renameRow_as_fold, elem_of_keys_foldl_set by by apply renamed_plain.
  left. rewrite renamed_keys. apply list_elem_of_fmap. by exists k0.
Qed.

Lemma ownProperty_renamed oldName newName (o : Obj) k :
  newName = oldName ∨ newName ∉ keys o →
  ownProperty k (renameEntry oldName newName <$> o) =
    if decide (k = newName) then ownProperty oldName o
    else if decide (k = oldName) then None
    else ownProperty k o.
Proof.
  unfold keys. induction o as [|[k0 v0] o IH]; intros Hnew.
  - simpl. by repeat case_decide.
  - rewrite fmap_cons. cbn [ownProperty renameEntry fst snd].
    assert (Hnew' : newName = oldName ∨ newName ∉ o.*1).
    { destruct Hnew as [?|Hn]; [by left|]. right.
      rewrite fmap_cons in Hn. apply not_elem_of_cons in Hn. exact (proj2 Hn). }
    assert (Hk0 : newName = oldName ∨ k0 ≠ newName).
    { destruct Hnew as [?|Hn]; [by left|]. right.
      rewrite fmap_cons in Hn. apply not_elem_of_cons in Hn.
      intros ->. by apply (proj1 Hn). }
    rewrite (IH Hnew'). unfold renameKey.
    destruct (String.eqb_spec k0 oldName);
    repeat first
      [ case_decide
      | match goal with
        | |- context [String.eqb ?a ?b] => destruct (String.eqb_spec a b)
        end ];
      subst; try done; destruct Hk0; congruence.
Qed.

Lemma NoDup_renamed oldName newName (o : Obj) :
  NoDup (keys o) →
  newName = oldName ∨ newName ∉ keys o →
  NoDup (renameEntry oldName newName <$> o).*1.
Proof.
  unfold keys. rewrite <-list_fmap_compose.
  assert (Heq : fst ∘ renameEntry oldName newName =
                renameKey oldName newName ∘ fst) by done.
  rewrite Heq, list_fmap_compose. intros Hnd Hnew.
  destruct Hnew as [->|Hn].
  - assert (Hid : renameKey oldName oldName <$> o.*1 = o.*1).
    { rewrite <-(list_fmap_id (o.*1)) at 2. apply list_fmap_ext.
      intros _ k _. unfold renameKey. by destruct (String.eqb_spec k oldName). }
    by rewrite Hid.
  - apply NoDup_fmap_2_strong; [|done].
    intros k1 k2 Hk1 Hk2. unfold renameKey.
    destruct (String.eqb_spec k1 oldName) as [->|?],
             (String.eqb_spec k2 oldName) as [->|?]; congruence.
Qed.

(** Reading a renamed row, for a new name that is not already a key. *)
Lemma ownProperty_renameRow oldName newName (o : Obj) k :
  wfObj o →
  newName ≠ "__proto__" ∨ oldName ∉ keys o →
  newName = oldName ∨ newName ∉ keys o →
  ownProperty k (renameRow oldName newName o) =
    if decide (k = newName) then ownProperty oldName o
    else if decide (k = oldName) then None
    else ownProperty k o.
Proof.
  intros [Hnd Hproto] Hplain Hnew.
  rewrite renameRow_as_fold, ownProperty_foldl_set
    by (by apply NoDup_renamed || by apply renamed_plain).
  rewrite ownProperty_renamed by done. simpl.
  by repeat case_match.
Qed.

(** Reading a renamed row under another key than the new name: the row
    may already have a property of the new name. *)
Lemma ownProperty_renameRow_other oldName newName (o : Obj) k :
  wfObj o → k ≠ newName →
  ownProperty k (renameRow oldName newName o) =
    if decide (k = oldName) then None else ownProperty k o.
Proof.
  intros [Hnd Hproto] Hk. revert Hnd Hproto.
  induction o as [|[k0 v0] o IH] using rev_ind; intros Hnd Hproto.
  - simpl. by case_decide.
  - unfold keys in Hnd, Hproto. rewrite fmap_app in Hnd, Hproto. simpl in Hnd, Hproto.
    apply NoDup_app in Hnd as (Hnd & Hk0 & _).
    apply not_elem_of_app in Hproto as [Hproto Hk0proto].
    assert (Hfresh : ownProperty k0 o = None).
    { apply ownProperty_None_keys. intros Hin. apply (Hk0 k0 Hin).
      apply list_elem_of_here. }
    rewrite renameRow_snoc, ownProperty_snoc by done.
    specialize (IH Hnd Hproto).
    unfold renameKey. destruct (String.eqb_spec k0 oldName) as [->|Hne0].
    + rewrite ownProperty_set_ne by done. rewrite IH.
      by repeat case_decide.
    + destruct (decide (k = k0)) as [->|Hne].
      * rewrite ownProperty_set, decide_True by
          (done || (intros ->; apply Hk0proto, list_elem_of_here)).
        by rewrite decide_False.
      * by rewrite ownProperty_set_ne.
Qed.

(** In a row that has both names, the new name ends with the value of
    one of the two properties. *)
Lemma renamed_value_is_old_or_new oldName newName (o : Obj) :
  wfObj o → newName ≠ "__proto__" →
  ownProperty newName (renameRow oldName newName o) = ownProperty oldName o ∨
  ownProperty newName (renameRow oldName newName o) = ownProperty newName o.
Proof.
  intros [Hnd Hproto] Hnew.
  destruct (decide (newName = oldName)) as [->|Hne].
  { left. rewrite ownProperty_renameRow by (done || by left).
    by rewrite decide_True. }
  revert Hnd Hproto.
  induction o as [|[k0 v0] o IH] using rev_ind; intros Hnd Hproto; [by left|].
  unfold keys in Hnd, Hproto. rewrite fmap_app in Hnd, Hproto.
  simpl in Hnd, Hproto.
  apply NoDup_app in Hnd as (Hnd & Hk0 & _).
  apply not_elem_of_app in Hproto as [Hproto _].
  assert (Hfresh : ownProperty k0 o = None).
  { apply ownProperty_None_keys. intros Hin. apply (Hk0 k0 Hin).
    apply list_elem_of_here. }
  rewrite renameRow_snoc, !ownProperty_snoc by done.
  unfold renameKey. destruct (String.eqb_spec k0 oldName) as [->|Hne0].
  - left. rewrite ownProperty_set by done. by rewrite !decide_True.
  - destruct (decide (newName = k0)) as [<-|Hne1].
    + right. rewrite ownProperty_set by done. by rewrite !decide_True.
    + rewrite ownProperty_set_ne by done.
      rewrite (decide_False (P := oldName = k0)) by congruence.
      by apply IH.
Qed.

Lemma wfObj_renameRow oldName newName (o : Obj) :
  wfObj (renameRow oldName newName o).
Proof.
  unfold renameRow. apply wfObj_foldl_set; [|apply wfObj_nil].
  intros o' kv. apply wfObj_set.
Qed.

Lemma NoDup_keys_renameRow oldName newName (o : Obj) :
  NoDup (keys (renameRow oldName newName o)).
Proof. apply wfObj_renameRow. Qed.

End TableFacts.

Section RowIdentity.
Import JS DataTable.

Lemma filter_ne_absent (l : list nat) x : x ∉ l → filter (λ r, r ≠ x) l = l.
Proof.
  induction l as [|y l IH]; [done|]. intros [Hne Hl]%not_elem_of_cons.
  rewrite filter_cons_True by done. by rewrite IH.
Qed.

Lemma filter_ne_delete (l : list nat) i x :
  NoDup l → l !! i = Some x → filter (λ r, r ≠ x) l = delete i l.
Proof.
  revert i. induction l as [|y l IH]; intros i Hnd Hi; [done|].
  apply NoDup_cons in Hnd as [Hy Hnd]. destruct i as [|i]; simpl in *.
  - injection Hi as ->. rewrite filter_cons_False by (intros Hne; by apply Hne).
    by apply filter_ne_absent.
  - rewrite filter_cons_True.
    + by rewrite (IH i).
    + intros ->. apply Hy. by eapply list_elem_of_lookup_2.
Qed.

Lemma rest_absent k (o : Obj) : k ∉ keys o → rest k o = o.
Proof.
  unfold rest, keys. induction o as [|[k0 v0] o IH]; [done|].
  rewrite fmap_cons. intros [Hne Hk]%not_elem_of_cons.
  rewrite filter_cons_True by (simpl in *; congruence). by rewrite IH.
Qed.

Lemma renameEntry_absent oldName newName (o : Obj) :
  oldName ∉ keys o → renameEntry oldName newName <$> o = o.
Proof.
  unfold keys. induction o as [|[k0 v0] o IH]; [done|].
  rewrite !fmap_cons. intros [Hne Hk]%not_elem_of_cons. rewrite (IH Hk).
  unfold renameEntry, renameKey. simpl in *.
  by destruct (String.eqb_spec k0 oldName) as [->|].
Qed.

(** A row without the old key is copied property by property. *)
Lemma ownProperty_renameRow_absent oldName newName (o : Obj) k :
  wfObj o → oldName ∉ keys o →
  ownProperty k (renameRow oldName newName o) = ownProperty k o.
Proof.
  intros [Hnd Hproto] Hold. rewrite renameRow_as_fold, renameEntry_absent by done.
  rewrite ownProperty_foldl_set by done. simpl. by destruct (ownProperty k o).
Qed.

Lemma rebuiltBy_fresh (g : Obj → Obj) (h : Heap) data hs :
  validRows h data →
  rebuiltBy g h data (h ++ ((λ r, g (deref h r)) <$> rows data))
            (mkTable hs (seq (length h) (length (rows data)))).
Proof.
  intros Hv. unfold rebuiltBy. simpl.
  split; [by rewrite length_seq|]. split; [apply NoDup_seq|]. split.
  - intros r Hr%elem_of_seq Hin.
    unfold validRows in Hv. rewrite Forall_forall in Hv.
    apply Hv in Hin. lia.
  - intros i r Hi.
    assert (Hr : (r < length h)%nat).
    { unfold validRows in Hv. rewrite Forall_forall in Hv.
      apply Hv. by eapply list_elem_of_lookup_2. }
    split; [by apply deref_app_l|].
    destruct (deref_fresh_row h (λ r, g (deref h r)) _ _ _ Hi) as [Hl Hd].
    exists (length h + i)%nat. split; [done|]. split; [lia|done].
Qed.

End RowIdentity.

(** One row [{a: "1"}] under the headers [a; b]: removing column [b]
    leaves the row's content as it was, yet the table now holds another
    object, and removing the old reference removes nothing. *)
Lemma removeColumn_copies_unaffected_row :
  ("b" ∉ JS.keys (deref oneRowStore 0)) ∧
  rows oneRowTable = [0%nat] ∧
  DataTable.handleRemoveColumn oneRowTable "b" oneRowStore =
    (mkTable ["a"] [1%nat], oneRowStore ++ oneRowStore) ∧
  deref (oneRowStore ++ oneRowStore) 1 = deref oneRowStore 0 ∧
  DataTable.handleRemoveRowByRef (mkTable ["a"] [1%nat]) 0%nat =
    mkTable ["a"] [1%nat].
Proof.
  split; [|by vm_compute].
  by intros [=]%list_elem_of_singleton.
Qed.

(** C1 (amended). [handleRemoveColumn] and a [handleRenameHeader] that goes
    through build a new row object for every row, affected or not: the
    rows of the result are pairwise distinct new references, none of them
    a row of the input; the old objects are left as they were; a row
    without the removed column is copied unchanged and a row without the
    renamed key keeps all its properties.  So [handleRemoveRowByRef] with a
    reference taken before the edit removes nothing from the edited table,
    and with a reference taken from the edited table it removes exactly the
    row at that position. *)
Theorem edits_rebuild_every_row (h : Heap) (data : TableData) :
  validRows h data →
  wfHeap h →
  (∀ columnName, ∃ data' h',
     DataTable.handleRemoveColumn data columnName h = (data', h') ∧
     rebuiltBy (JS.rest columnName) h data h' data' ∧
     (∀ r, r ∈ rows data → columnName ∉ JS.keys (deref h r) →
           JS.rest columnName (deref h r) = deref h r) ∧
     (∀ r, r ∈ rows data → DataTable.handleRemoveRowByRef data' r = data') ∧
     (∀ i r', rows data' !! i = Some r' →
        DataTable.handleRemoveRowByRef data' r' =
          mkTable (headers data') (delete i (rows data'))))
  ∧
  (∀ oldName newName,
     JS.truthyStr (JS.trim newName) = true →
     newName = oldName ∨ newName ∉ headers data →
     ∃ data' h',
     DataTable.handleRenameHeader data oldName newName h =
       (DataTable.RenameApplied data', h') ∧
     rebuiltBy (DataTable.renameRow oldName newName) h data h' data' ∧
     (∀ r k, r ∈ rows data → oldName ∉ JS.keys (deref h r) →
        JS.ownProperty k (DataTable.renameRow oldName newName (deref h r)) =
          JS.ownProperty k (deref h r)) ∧
     (∀ r, r ∈ rows data → DataTable.handleRemoveRowByRef data' r = data') ∧
     (∀ i r', rows data' !! i = Some r' →
        DataTable.handleRemoveRowByRef data' r' =
          mkTable (headers data') (delete i (rows data')))).
Proof.
  intros Hv Hwf.
  assert (Hold : ∀ g hs,
    let data' := mkTable hs (seq (length h) (length (rows data))) in
    rebuiltBy g h data (h ++ ((λ r, g (deref h r)) <$> rows data)) data' ∧
    (∀ r, r ∈ rows data → DataTable.handleRemoveRowByRef data' r = data') ∧
    (∀ i r', rows data' !! i = Some r' →
       DataTable.handleRemoveRowByRef data' r' =
         mkTable (headers data') (delete i (rows data')))).
  { intros g hs data'. pose proof (rebuiltBy_fresh g h data hs Hv) as Hre.
    split; [done|]. destruct Hre as (_ & Hnd & Hfresh & _). split.
    - intros r Hr. unfold DataTable.handleRemoveRowByRef.
      rewrite filter_ne_absent; [done|]. intros Hin. by apply (Hfresh r).
    - intros i r' Hi. unfold DataTable.handleRemoveRowByRef.
      by rewrite (filter_ne_delete _ i r'). }
  assert (Hobj : ∀ r, r ∈ rows data → wfObj (deref h r)).
  { intros r _. by apply wfObj_deref. }
  split.
  - intros columnName. eexists _, _.
    split; [by apply handleRemoveColumn_unfold|].
    destruct (Hold (JS.rest columnName)
                (filter (λ hd, hd ≠ columnName) (headers data))) as (H1 & H2 & H3).
    split; [done|]. split; [|done].
    intros r _ Hk. by apply rest_absent.
  - intros oldName newName Ht Hnew. eexists _, _.
    split; [by apply handleRenameHeader_unfold|].
    destruct (Hold (DataTable.renameRow oldName newName)
                (DataTable.renameKey oldName newName <$> headers data))
      as (H1 & H2 & H3).
    split; [done|]. split; [|done].
    intros r k Hr Hk. apply ownProperty_renameRow_absent; [by apply Hobj|done].
Qed.

(** After column [b] is removed from the one-row table, removing the old
    row reference leaves the new table as it is. *)
Lemma edits_rebuild_every_row_witness :
  ∃ data' h',
    DataTable.handleRemoveColumn oneRowTable "b" oneRowStore = (data', h') ∧
    DataTable.handleRemoveRowByRef data' 0%nat = data'.
Proof.
  assert (Hv : validRows oneRowStore oneRowTable).
  { apply Forall_cons. split; [simpl; lia | apply Forall_nil_2]. }
  assert (Hwf : wfHeap oneRowStore).
  { apply Forall_cons. split; [|apply Forall_nil_2].
    split; [apply NoDup_singleton|].
    intros Hin. apply list_elem_of_singleton in Hin. discriminate Hin. }
  destruct (edits_rebuild_every_row oneRowStore oneRowTable Hv Hwf) as [Hrm _].
  destruct (Hrm "b") as (data' & h' & Heq & _ & _ & Hold & _).
  exists data', h'. split; [exact Heq|].
  apply Hold. apply list_elem_of_singleton. reflexivity.
Defined.

(** ** The key-subset invariant *)

Section Invariant.
Import JS FileUpload DataTable.

Lemma parseCSV_invariant text (h : Heap) :
  ∃ data h', parseCSV text h = (Ok data, h') ∧
    validRows h' data ∧ rowKeysWithinHeaders h' data ∧
    (wfHeap h → wfHeap h').
Proof.
  destruct (split_nonempty LF (trim text)) as (line0 & lines1 & Hs).
  eexists _, _. split; [by apply parseCSV_unfold|].
  unfold validRows, rowKeysWithinHeaders. simpl. split; [|split].
  - apply Forall_forall. intros r Hr%elem_of_seq.
    rewrite length_app, length_fmap. lia.
  - apply Forall_forall. intros r (i & -> & Hi)%elem_of_fresh_rows.
    rewrite deref_app_r. unfold deref. rewrite list_lookup_fmap.
    destruct (lookup_lt_is_Some_2 lines1 i Hi) as [line ->]. simpl.
    intros k Hk. by apply keys_zipRow in Hk as [? _].
  - apply wfHeap_app_fmap. intros line. apply wfObj_zipRow.
Qed.

Lemma handleRemoveRowByRef_invariant (h : Heap) data rowRef :
  rowKeysWithinHeaders h data →
  rowKeysWithinHeaders h (handleRemoveRowByRef data rowRef).
Proof.
  unfold rowKeysWithinHeaders, handleRemoveRowByRef. simpl.
  rewrite !Forall_forall. intros Hinv r [_ Hr]%list_elem_of_filter. by apply Hinv.
Qed.

Lemma handleRemoveColumn_invariant (h : Heap) data columnName :
  validRows h data → rowKeysWithinHeaders h data →
  ∃ data' h', handleRemoveColumn data columnName h = (data', h') ∧
    validRows h' data' ∧ rowKeysWithinHeaders h' data' ∧
    (wfHeap h → wfHeap h').
Proof.
  intros Hv Hinv. eexists _, _. split; [by apply handleRemoveColumn_unfold|].
  unfold validRows, rowKeysWithinHeaders in *. simpl.
  split; [|split; [|by intros Hwf; apply wfHeap_app_fmap;
                      [intros r; apply wfObj_rest, wfObj_deref|]]].
  - apply Forall_forall. intros r Hr%elem_of_seq.
    rewrite length_app, length_fmap. lia.
  - rewrite Forall_forall in Hinv.
    apply Forall_forall. intros r (i & -> & Hi)%elem_of_fresh_rows.
    rewrite deref_app_r. unfold deref at 1. rewrite list_lookup_fmap.
    destruct (lookup_lt_is_Some_2 (rows data) i Hi) as [r0 Hr0]. rewrite Hr0. simpl.
    intros k [Hne Hk]%elem_of_keys_rest. apply list_elem_of_filter. split; [done|].
    apply (Hinv r0); [by eapply list_elem_of_lookup_2 | done].
Qed.

Lemma handleRenameHeader_invariant (h : Heap) data oldName newName :
  validRows h data → rowKeysWithinHeaders h data →
  ∀ data' h', handleRenameHeader data oldName newName h = (RenameApplied data', h') →
    validRows h' data' ∧ rowKeysWithinHeaders h' data' ∧
    (wfHeap h → wfHeap h').
Proof.
  intros Hv Hinv data' h'. unfold handleRenameHeader.
  destruct (negb (truthyStr (trim newName))); [done|].
  destruct (negb (String.eqb newName oldName) &&
            bool_decide (newName ∈ headers data)); [done|].
  rewrite bind_run, mapM_load_alloc by done. intros [= <- <-].
  unfold validRows, rowKeysWithinHeaders in *. simpl.
  split; [|split; [|by apply wfHeap_app_fmap; intros r;
                      apply wfObj_renameRow]].
  - apply Forall_forall. intros r Hr%elem_of_seq.
    rewrite length_app, length_fmap. lia.
  - rewrite Forall_forall in Hinv.
    apply Forall_forall. intros r (i & -> & Hi)%elem_of_fresh_rows.
    rewrite deref_app_r. unfold deref at 1. rewrite list_lookup_fmap.
    destruct (lookup_lt_is_Some_2 (rows data) i Hi) as [r0 Hr0]. rewrite Hr0. simpl.
    intros k (k0 & Hk0 & ->)%keys_renameRow.
    apply list_elem_of_fmap. exists k0. split; [done|].
    apply (Hinv r0); [by eapply list_elem_of_lookup_2 | done].
Qed.

(** The spreadsheet path keeps the invariant when the bounding range of
    the sheet starts in column A: only then is [headers[col]] the header of
    column [col]. *)
Lemma keys_extractRow sheet range hs row k :
  k ∈ keys (extractRow sheet range hs row).1 →
  ∃ col, col ∈ colsOf range ∧ k = headerKey hs col.
Proof.
  unfold extractRow.
  enough (Hgen : ∀ cols acc,
    k ∈ keys (foldl (λ acc col,
                 let value := cellText sheet row col in
                 (set (headerKey hs col) (VString value) acc.1,
                  if truthyStr value then true else acc.2)) acc cols).1 →
    k ∈ keys acc.1 ∨ ∃ col, col ∈ cols ∧ k = headerKey hs col).
  { intros Hk. destruct (Hgen _ _ Hk) as [Hnil|?]; [|done].
    by apply elem_of_nil in Hnil. }
  induction cols as [|col cols IH]; intros acc; simpl; [by left|].
  intros Hk. destruct (IH _ Hk) as [Hacc|(c & Hc & ->)].
  - simpl in Hacc. apply elem_of_keys_set in Hacc as [[-> _]|?]; [|by left].
    right. exists col. split; [by left|done].
  - right. exists c. split; [by right|done].
Qed.

Lemma wfObj_extractRow sheet range hs row :
  wfObj (extractRow sheet range hs row).1.
Proof.
  unfold extractRow.
  enough (Hgen : ∀ cols (acc : Obj * bool),
    wfObj acc.1 →
    wfObj (foldl (λ acc col,
                   let value := cellText sheet row col in
                   (set (headerKey hs col) (VString value) acc.1,
                    if truthyStr value then true else acc.2)) acc cols).1).
  { apply Hgen. apply wfObj_nil. }
  induction cols as [|col cols IH]; intros acc Hacc; simpl; [done|].
  apply IH. simpl. by apply wfObj_set.
Qed.

Lemma NoDup_keys_extractRow sheet range hs row :
  NoDup (keys (extractRow sheet range hs row).1).
Proof. apply wfObj_extractRow. Qed.

Lemma extractRows_alloc sheet range hs rowIdxs (h : Heap) :
  ∃ h', extractRows sheet range hs rowIdxs h = (seq (length h) (length h'), h ++ h') ∧
    Forall (λ o, ∃ row, o = (extractRow sheet range hs row).1) h'.
Proof.
  revert h. induction rowIdxs as [|row rest IH]; intros h; simpl.
  - exists []. by rewrite app_nil_r.
  - destruct (extractRow sheet range hs row) as [rowData hasAnyValue] eqn:E.
    destruct hasAnyValue.
    + rewrite bind_run. unfold alloc at 1. rewrite bind_run.
      destruct (IH (h ++ [rowData])) as (h' & -> & Hall).
      exists (rowData :: h'). unfold mret, M_ret. split.
      * rewrite length_app, <-app_assoc. simpl.
        by replace (length h + 1)%nat with (S (length h)) by lia.
      * apply Forall_cons. split; [|done]. exists row. by rewrite E.
    + apply IH.
Qed.

Lemma parseSheet_invariant_column_A sheet (h : Heap) :
  s_c (rangeOf sheet) = 0%nat →
  ∃ data h', parseSheet sheet h = (Ok data, h') ∧
    validRows h' data ∧ rowKeysWithinHeaders h' data ∧
    (wfHeap h → wfHeap h').
Proof.
  intros Hc. unfold parseSheet.
  destruct (findHeaderRow sheet (rangeOf sheet)) as [headerRowIndex dataStart].
  set (range := rangeOf sheet) in *.
  set (hs := extractHeaders sheet range headerRowIndex).
  assert (Hlen : length hs = S (e_c range)).
  { unfold hs, extractHeaders, colsOf. rewrite length_fmap, length_seq, Hc. lia. }
  rewrite bind_run.
  destruct (extractRows_alloc sheet range hs
              (seq dataStart (S (e_r range) - dataStart)) h) as (h' & -> & Hall).
  rewrite Hlen. simpl. eexists _, _. split; [done|].
  unfold validRows, rowKeysWithinHeaders. simpl.
  rewrite Forall_forall in Hall. split; [|split].
  - apply Forall_forall. intros r Hr%elem_of_seq. rewrite length_app. lia.
  - apply Forall_forall. intros r (i & -> & Hi)%elem_of_fresh_rows.
    rewrite deref_app_r. unfold deref.
    destruct (lookup_lt_is_Some_2 h' i Hi) as [o Ho]. rewrite Ho. simpl.
    destruct (Hall o) as [row ->]; [by eapply list_elem_of_lookup_2|].
    intros k (col & Hcol & ->)%keys_extractRow.
    unfold colsOf in Hcol. rewrite Hc in Hcol. apply elem_of_seq in Hcol.
    unfold headerKey.
    destruct (lookup_lt_is_Some_2 hs col) as [hd Hhd]; [lia|].
    rewrite Hhd. simpl. by eapply list_elem_of_lookup_2.
  - intros Hwf. unfold wfHeap in *. apply Forall_app. split; [done|].
    apply Forall_forall. intros o [row ->]%Hall. apply wfObj_extractRow.
Qed.

End Invariant.

(** C6. On a sheet whose bounding range starts in column B the
    spreadsheet path indexes the headers by the absolute column: the value
    of column B lands under the header of column C and the value of column C
    under the key ["undefined"], which is not a header.  The parsed table
    breaks the invariant that every row's keys are among the headers. *)
Theorem parseSheet_offset_range_breaks_invariant :
  ∃ data h',
    FileUpload.parseSheet sheet_B1_C2 [] = (Ok data, h') ∧
    headers data = ["x"; "y"] ∧
    rowObjects h' data = [[("y", JS.VString "1"); ("undefined", JS.VString "2")]] ∧
    ¬ rowKeysWithinHeaders h' data.
Proof.
  exists (mkTable ["x"; "y"] [0%nat]),
    [[("y", JS.VString "1"); ("undefined", JS.VString "2")]].
  split; [by vm_compute|]. split; [done|]. split; [done|].
  unfold rowKeysWithinHeaders. simpl. intros Hall.
  apply Forall_cons in Hall as [Hsub _].
  specialize (Hsub "undefined"). unfold deref in Hsub. simpl in Hsub.
  assert (Hin : "undefined" ∈ ["x"; "y"]).
  { apply Hsub. apply elem_of_cons. right. by apply list_elem_of_singleton. }
  apply elem_of_cons in Hin as [[=]|Hin].
  by apply list_elem_of_singleton in Hin.
Qed.

(** ** Renaming a header *)

(** A blank new name closes the editor and reports nothing. *)
Lemma rename_to_blank_reports_nothing :
  JS.trim "  " = "" ∧
  DataTable.handleRenameHeader oneRowTable "a" "  " oneRowStore =
    (DataTable.RenameCancelled, oneRowStore) ∧
  reportedError (DataTable.handleRenameHeader oneRowTable "a" "  " oneRowStore).1 = None.
Proof. by vm_compute. Qed.

(** C7 (amended). [handleRenameHeader] leaves the table and the store as
    they are when the new name is empty or white space only (the edit is
    cancelled and nothing is reported) and when the new name differs from
    the old one and is already a header (this is reported by an alert).
    Otherwise, for a new name other than ["__proto__"], it replaces the old
    name by the new one at every position of the header list, and row by
    row the keys of the new row are the keys of the old row with the old
    name replaced by the new one: every other key keeps its value, and the
    new name holds the old row's value of the old name (in a row that
    already had a property of the new name, that value or the one of that
    property). *)
Theorem handleRenameHeader_outcomes (h : Heap) (data : TableData)
    (oldName newName : string) :
  (JS.trim newName = "" →
     DataTable.handleRenameHeader data oldName newName h =
       (DataTable.RenameCancelled, h)) ∧
  (JS.trim newName ≠ "" → newName ≠ oldName → newName ∈ headers data →
     DataTable.handleRenameHeader data oldName newName h =
       (DataTable.RenameRejected "A column with this name already exists", h)) ∧
  (JS.trim newName ≠ "" → newName = oldName ∨ newName ∉ headers data →
     newName ≠ "__proto__" →
     validRows h data → wfHeap h →
     ∃ data' h',
       DataTable.handleRenameHeader data oldName newName h =
         (DataTable.RenameApplied data', h') ∧
       headers data' =
         (λ hd, if decide (hd = oldName) then newName else hd) <$> headers data ∧
       length (rows data') = length (rows data) ∧
       ∀ i r, rows data !! i = Some r →
         ∃ r', rows data' !! i = Some r' ∧
           (∀ k, k ∈ JS.keys (deref h' r') ↔
                 ∃ k0, k0 ∈ JS.keys (deref h r) ∧
                       k = if decide (k0 = oldName) then newName else k0) ∧
           (∀ k, k ≠ newName →
                 JS.ownProperty k (deref h' r') =
                   if decide (k = oldName) then None
                   else JS.ownProperty k (deref h r)) ∧
           (newName = oldName ∨ newName ∉ JS.keys (deref h r) →
              JS.ownProperty newName (deref h' r') =
                JS.ownProperty oldName (deref h r)) ∧
           (JS.ownProperty newName (deref h' r') =
              JS.ownProperty oldName (deref h r) ∨
            JS.ownProperty newName (deref h' r') =
              JS.ownProperty newName (deref h r))).
Proof.
  assert (Htruthy : ∀ s, JS.truthyStr s = true ↔ s ≠ "").
  { intros s. unfold JS.truthyStr. destruct (String.eqb_spec s ""); naive_solver. }
  assert (Hkey : ∀ k0, DataTable.renameKey oldName newName k0 =
                       if decide (k0 = oldName) then newName else k0).
  { intros k0. unfold DataTable.renameKey.
    destruct (String.eqb_spec k0 oldName); by case_decide. }
  split; [|split].
  - intros Hblank. unfold DataTable.handleRenameHeader.
    rewrite Hblank. done.
  - intros Ht Hne Hin. unfold DataTable.handleRenameHeader.
    rewrite (proj2 (Htruthy _) Ht). simpl.
    rewrite (bool_decide_eq_true_2 _ Hin).
    by destruct (String.eqb_spec newName oldName).
  - intros Ht Hnew Hproto Hv Hwf. eexists _, _.
    split; [apply handleRenameHeader_unfold; [done| by apply Htruthy |done]|].
    simpl. split.
    { apply list_fmap_ext. intros _ hd _. apply Hkey. }
    split; [by rewrite length_seq|].
    intros i r Hi.
    destruct (deref_fresh_row h
      (λ r, DataTable.renameRow oldName newName (deref h r)) _ _ _ Hi) as [Hl Hd].
    exists (length h + i)%nat. split; [done|]. rewrite Hd.
    pose proof (wfObj_deref h r Hwf) as Hobj.
    split; [|split; [|split]].
    + intros k. rewrite keys_renameRow_iff by (by apply Hobj || by left).
      split; intros (k0 & Hk0 & ->); exists k0; by rewrite ?Hkey, <-?Hkey.
    + intros k Hk. by apply ownProperty_renameRow_other.
    + intros Hfree. rewrite ownProperty_renameRow by (done || by left).
      by rewrite decide_True.
    + by apply renamed_value_is_old_or_new.
Qed.

(** Renaming [a] to [c] in the one-row table goes through, gives the
    headers [c; b] and moves the value of [a] under [c]. *)
Lemma handleRenameHeader_outcomes_witness :
  ∃ data' h' r',
    DataTable.handleRenameHeader oneRowTable "a" "c" oneRowStore =
      (DataTable.RenameApplied data', h') ∧
    headers data' = ["c"; "b"] ∧
    rows data' !! 0%nat = Some r' ∧
    JS.ownProperty "c" (deref h' r') = Some (JS.VString "1") ∧
    JS.ownProperty "a" (deref h' r') = None.
Proof.
  destruct (handleRenameHeader_outcomes oneRowStore oneRowTable "a" "c")
    as (_ & _ & Hok).
  destruct Hok as (data' & h' & Heq & Hh & _ & Hrows).
  - vm_compute. intros Heq. discriminate Heq.
  - right. intros Hin. apply elem_of_cons in Hin as [Heq|Hin]; [discriminate Heq|].
    apply list_elem_of_singleton in Hin. discriminate Hin.
  - intros Heq. discriminate Heq.
  - apply Forall_cons. split; [simpl; lia | apply Forall_nil_2].
  - apply Forall_cons. split; [|apply Forall_nil_2].
    split; [apply NoDup_singleton|].
    intros Hin. apply list_elem_of_singleton in Hin. discriminate Hin.
  - destruct (Hrows 0%nat 0%nat eq_refl) as (r' & Hr' & _ & Hother & Hmoved & _).
    exists data', h', r'. split; [exact Heq|]. split; [rewrite Hh; reflexivity|].
    split; [exact Hr'|]. split.
    + rewrite Hmoved; [reflexivity|]. right.
      intros Hin. apply list_elem_of_singleton in Hin. discriminate Hin.
    + rewrite (Hother "a"); [reflexivity|]. intros Heq'. discriminate Heq'.
Defined.

(** ** Pagination with the pinned tail *)

Section PaginationFacts.
Import DataTable.
Local Open Scope Z_scope.

Lemma ceilDiv_bounds a b :
  0 < b → b * (ceilDiv a b - 1) < a ≤ b * ceilDiv a b.
Proof.
  intros Hb. unfold ceilDiv.
  pose proof (Z.div_mod (- a) b) as Hdm.
  pose proof (Z.mod_pos_bound (- a) b Hb) as Hm. lia.
Qed.

Lemma concat_imap_singleton {A B : Type} (g : nat → A → B) (l : list A) :
  concat (imap (λ i x, [g i x]) l) = imap g l.
Proof.
  revert g. induction l as [|x l IH]; intros g; [done|].
  rewrite !imap_cons. simpl. f_equal. apply (IH (g ∘ S)).
Qed.

Lemma length_rowsBetween (l : list nat) a b :
  0 ≤ a → a ≤ b → b ≤ Z.of_nat (length l) →
  length (rowsBetween l a b) = Z.to_nat (b - a).
Proof.
  intros Ha Hab Hb. unfold rowsBetween. rewrite length_take, length_drop. lia.
Qed.

Lemma numbered_app first (l1 l2 : list nat) :
  numbered first (l1 ++ l2) =
    numbered first l1 ++ numbered (first + Z.of_nat (length l1)) l2.
Proof.
  unfold numbered. rewrite imap_app. f_equal.
  apply imap_ext. intros i x _. simpl. f_equal. lia.
Qed.

Lemma render_without_gap total start (l : list nat) :
  concat (imap (renderRow total start false) l) = numbered start l.
Proof.
  unfold numbered.
  by rewrite <-(concat_imap_singleton
                 (λ offset row, RowLine (start + Z.of_nat offset + 1) row)).
Qed.

Lemma render_body_with_gap total start (l : list nat) :
  (length l ≤ 30)%nat →
  concat (imap (renderRow total start true) l) = numbered start l.
Proof.
  intros Hlen. unfold numbered.
  rewrite <-(concat_imap_singleton
               (λ offset row, RowLine (start + Z.of_nat offset + 1) row)).
  f_equal. apply imap_ext. intros i x Hi%lookup_lt_Some.
  unfold renderRow, RECORDS_PER_PAGE. simpl.
  destruct (Z.leb_spec 30 (Z.of_nat i)); [lia|].
  by destruct (Z.eqb_spec (Z.of_nat i) 30); [lia|].
Qed.

Lemma renderRow_tail_with_gap total start (j : nat) (r : nat) :
  renderRow total start true (30 + j)%nat r =
    (if decide (j = 0%nat) then [GapMarker (total - 30 - 5)] else [])
    ++ [RowLine (total - 5 + Z.of_nat j + 1) r].
Proof.
  unfold renderRow, RECORDS_PER_PAGE. cbv zeta.
  rewrite Nat2Z.inj_add. change (Z.of_nat 30) with 30.
  assert (Hj : 0 ≤ Z.of_nat j) by lia.
  assert (Hj0 : Z.of_nat j = 0 ↔ j = 0%nat) by lia.
  generalize dependent (Z.of_nat j). intros z Hz Hz0.
  cbn [andb]. destruct (Z.leb_spec 30 (30 + z)); [|lia].
  destruct (Z.eqb_spec (30 + z) 30).
  - rewrite decide_True by (apply Hz0; lia). do 3 f_equal. lia.
  - rewrite decide_False by (intros ?%Hz0; lia). do 3 f_equal. lia.
Qed.

Lemma render_tail_with_gap total start (l : list nat) :
  l ≠ [] →
  concat (imap (λ j, renderRow total start true (30 + j)%nat) l) =
    GapMarker (total - 30 - 5) :: numbered (total - 5) l.
Proof.
  destruct l as [|x l]; [done|]. intros _.
  unfold numbered. rewrite !imap_cons.
  rewrite <-(concat_imap_singleton
    ((λ offset row, RowLine (total - 5 + Z.of_nat offset + 1) row) ∘ S)).
  cbn [concat]. rewrite renderRow_tail_with_gap.
  rewrite decide_True by done. cbn [app]. do 3 f_equal.
  apply imap_ext. intros i y _. cbn [compose].
  rewrite renderRow_tail_with_gap. by rewrite decide_False.
Qed.

End PaginationFacts.

(** C5. With a requested page of at least 1: up to 35 rows are all shown,
    numbered from 1, with no gap marker.  Above 35 rows, with
    [maxPage = ceil((total - 5) / 30)] and the page clamped into
    [[1, maxPage]], the body shows [rows[(page-1)*30 : min(page*30, total-5)]]
    numbered from [(page-1)*30 + 1], then comes the gap marker exactly when
    the body does not end at [total - 5], then the last five rows, the one
    at offset [i] numbered [total - 5 + i + 1]. *)
Theorem pinned_tail_pagination (processedRows : list nat) (currentPage : Z) :
  (1 ≤ currentPage)%Z →
  let total := Z.of_nat (length processedRows) in
  (total ≤ 35 →
     DataTable.renderRows processedRows currentPage = numbered 0 processedRows)%Z ∧
  (35 < total →
     let maxPage := DataTable.ceilDiv (total - 5) 30 in
     let page := clamp 1 maxPage currentPage in
     let bodyStart := (page - 1) * 30 in
     let bodyEnd := Z.min (page * 30) (total - 5) in
     30 * (maxPage - 1) < total - 5 ≤ 30 * maxPage ∧
     DataTable.renderRows processedRows currentPage =
       numbered bodyStart (rowsBetween processedRows bodyStart bodyEnd)
       ++ (if decide (bodyEnd = total - 5) then []
           else [DataTable.GapMarker (total - 35)])
       ++ numbered (total - 5) (rowsBetween processedRows (total - 5) total))%Z.
Proof.
  intros Hpage total. split.
  - intros Hsmall. unfold DataTable.renderRows, DataTable.getPaginatedRows,
      DataTable.hasGap, DataTable.RECORDS_PER_PAGE. fold total.
    destruct (Z.leb_spec total (30 + 5)); [|lia]. simpl.
    destruct (Z.ltb_spec (30 + 5) total); [lia|]. simpl.
    apply render_without_gap.
  - intros Hbig maxPage page bodyStart bodyEnd.
    pose proof (ceilDiv_bounds (total - 5) 30 ltac:(lia)) as Hceil.
    fold maxPage in Hceil. split; [done|].
    assert (HmaxPage : (2 ≤ maxPage)%Z) by lia.
    assert (Hpg : page = Z.min currentPage maxPage) by (unfold page, clamp; lia).
    assert (Htp : DataTable.totalPages total = maxPage).
    { unfold DataTable.totalPages, DataTable.RECORDS_PER_PAGE.
      rewrite Z.max_l by lia. fold maxPage.
      by destruct (Z.eqb_spec maxPage 0); [lia|]. }
    assert (Hrows : DataTable.getPaginatedRows processedRows currentPage =
      DataTable.mkPaginated
        (rowsBetween processedRows bodyStart bodyEnd ++
         rowsBetween processedRows (total - 5) total) bodyStart).
    { unfold DataTable.getPaginatedRows, DataTable.RECORDS_PER_PAGE. fold total.
      destruct (Z.leb_spec total (30 + 5)); [lia|].
      fold maxPage. rewrite <-Hpg. fold bodyStart.
      replace (bodyStart + 30)%Z with (page * 30)%Z by (unfold bodyStart; lia).
      fold bodyEnd. f_equal. f_equal.
      - unfold DataTable.slice, DataTable.relIndex, rowsBetween. fold total.
        destruct (Z.ltb_spec bodyStart 0); [lia|].
        destruct (Z.ltb_spec bodyEnd 0); [lia|].
        rewrite !Z.min_l by lia. done.
      - unfold DataTable.sliceFrom, DataTable.slice, DataTable.relIndex, rowsBetween.
        fold total. destruct (Z.ltb_spec (-5) 0); [|lia].
        destruct (Z.ltb_spec total 0); [lia|].
        rewrite Z.max_l by lia. rewrite Z.min_l by lia.
        by replace (total + -5)%Z with (total - 5)%Z by lia. }
    unfold DataTable.renderRows. rewrite Hrows. simpl. fold total.
    assert (Hbody : length (rowsBetween processedRows bodyStart bodyEnd) =
                    Z.to_nat (bodyEnd - bodyStart)).
    { apply length_rowsBetween; unfold total in *; lia. }
    assert (Htail : length (rowsBetween processedRows (total - 5) total) = 5%nat).
    { rewrite length_rowsBetween; unfold total in *; lia. }
    unfold DataTable.hasGap, DataTable.RECORDS_PER_PAGE. rewrite Htp.
    destruct (Z.ltb_spec (30 + 5) total); [|lia]. simpl.
    destruct (Z.ltb_spec currentPage maxPage) as [Hlt|Hge].
    + assert (Hend : bodyEnd = (page * 30)%Z) by lia.
      rewrite decide_False by lia.
      rewrite imap_app, concat_app.
      rewrite render_body_with_gap by lia.
      f_equal. rewrite Hbody.
      replace (Z.to_nat (bodyEnd - bodyStart)) with 30%nat by lia.
      replace (total - 35)%Z with (total - 30 - 5)%Z by lia.
      apply render_tail_with_gap.
      intros Hnil. rewrite Hnil in Htail. done.
    + assert (Hend : bodyEnd = (total - 5)%Z) by lia.
      rewrite decide_True by done. simpl.
      rewrite render_without_gap, numbered_app. do 2 f_equal. lia.
Qed.

(** Forty rows, page 1: rows 1 to 30, the marker for 5 more records, rows
    36 to 40. *)
Lemma pinned_tail_pagination_witness :
  DataTable.renderRows (seq 0 40) 1 =
    numbered 0 (seq 0 30) ++ [DataTable.GapMarker 5] ++ numbered 35 (seq 35 5).
Proof.
  destruct (pinned_tail_pagination (seq 0 40) 1) as [_ Hbig].
  - lia.
  - destruct Hbig as [_ Heq].
    + reflexivity.
    + rewrite Heq. reflexivity.
Defined.

(** ** The formatter *)

(** C9. [formatCellValue] is a total function of the value and the header,
    whatever the engine's date parser and date formatter do, throwing
    included.  It returns the empty string for [null] and [undefined].
    For a string in a column whose lower-cased header contains [date] or
    [time]: a string that contains one of [Jan], [Feb], [Mar], [Apr], [May],
    [Jun], [Jul], [Aug], [Sep], [Oct], [Nov], [Dec] is returned unchanged,
    also when the engine would parse it; otherwise a string that the engine
    parses as a date is rendered by [toLocaleDateString("en-US",
    {year: "numeric", month: "short", day: "numeric"})], and a string that
    it does not parse (or on which the engine throws) is returned
    unchanged.  A string in another column is returned unchanged, and a
    safe integer is printed in decimal. *)
Theorem formatCellValue_cases
    (Date_getTime : string → result (option Z))
    (toLocaleDateString :
       Z → string → DataTable.DateFormatOptions → result string)
    (value : JS.value) (header : string) :
  let formatted :=
    DataTable.formatCellValue Date_getTime toLocaleDateString value header in
  let isDateColumn :=
    JS.includes (JS.toLowerCase header) "date" ||
    JS.includes (JS.toLowerCase header) "time" in
  let render t :=
    toLocaleDateString t "en-US"
      (DataTable.mkDateOptions DataTable.YearNumeric DataTable.MonthShort
         DataTable.DayNumeric) in
  let months :=
    ["Jan"; "Feb"; "Mar"; "Apr"; "May"; "Jun";
     "Jul"; "Aug"; "Sep"; "Oct"; "Nov"; "Dec"] in
  (value = JS.VNull ∨ value = JS.VUndefined → formatted = "") ∧
  (∀ s, value = JS.VString s → isDateColumn = true →
     let hasMonthName := existsb (λ month, JS.includes s month) months in
     (∀ month, month ∈ months → JS.includes s month = true → formatted = s) ∧
     (hasMonthName = true → formatted = s) ∧
     (hasMonthName = false → ∀ t text,
        Date_getTime s = Ok (Some t) → render t = Ok text → formatted = text) ∧
     (hasMonthName = false →
        Date_getTime s = Ok None ∨
        (∃ msg, Date_getTime s = Throw msg) ∨
        (∃ t msg, Date_getTime s = Ok (Some t) ∧ render t = Throw msg) →
        formatted = s)) ∧
  (∀ s, value = JS.VString s → isDateColumn = false → formatted = s) ∧
  (∀ n, value = JS.VNumber n → safeInteger n → formatted = pretty n).
Proof.
  intros formatted isDateColumn render months.
  assert (Hmonths : DataTable.monthNames = months) by done.
  split; [|split; [|split]].
  - by intros [->| ->].
  - intros s -> Hdate hasMonthName. unfold formatted, DataTable.formatCellValue.
    cbn [JS.isNullish]. fold isDateColumn. rewrite Hdate, Hmonths.
    fold hasMonthName.
    split; [|split; [by intros ->|split]].
    + intros month Hmonth Hinc.
      assert (Hhas : hasMonthName = true).
      { apply existsb_exists. exists month. split; [|done].
        by apply list_elem_of_In. }
      by rewrite Hhas.
    + intros -> t text Ht. rewrite Ht. unfold render. by intros ->.
    + intros -> [Ht|[[msg Ht]|(t & msg & Ht & Hr)]]; rewrite Ht; [done..|].
      unfold render in Hr. by rewrite Hr.
  - intros s -> Hdate. unfold formatted, DataTable.formatCellValue.
    cbn [JS.isNullish]. fold isDateColumn. by rewrite Hdate.
  - by intros n -> _.
Qed.

(** With the sample engine: a parsed date is rendered; a date written with
    a month name is passed through although the engine parses it; an
    unparsed text is passed through. *)
Lemma formatCellValue_cases_witness :
  DataTable.formatCellValue sampleGetTime sampleToLocaleDateString
    (JS.VString "2024-01-05") "Start Date" = "Jan 5, 2024" ∧
  sampleGetTime "5 January 2024" = Ok (Some 1704412800000%Z) ∧
  DataTable.formatCellValue sampleGetTime sampleToLocaleDateString
    (JS.VString "5 January 2024") "Start Date" = "5 January 2024" ∧
  DataTable.formatCellValue sampleGetTime sampleToLocaleDateString
    (JS.VString "soon") "Start Date" = "soon" ∧
  DataTable.formatCellValue sampleGetTime sampleToLocaleDateString
    (JS.VNumber 42) "Start Date" = "42".
Proof.
  split; [|split; [reflexivity|split; [|split]]].
  - destruct (formatCellValue_cases sampleGetTime sampleToLocaleDateString
                (JS.VString "2024-01-05") "Start Date") as (_ & Hs & _).
    destruct (Hs "2024-01-05" eq_refl eq_refl) as (_ & _ & Hparsed & _).
    apply (Hparsed eq_refl 1704412800000%Z "Jan 5, 2024" eq_refl eq_refl).
  - destruct (formatCellValue_cases sampleGetTime sampleToLocaleDateString
                (JS.VString "5 January 2024") "Start Date") as (_ & Hs & _).
    destruct (Hs "5 January 2024" eq_refl eq_refl) as (Hmonth & _).
    apply (Hmonth "Jan"); [apply list_elem_of_here|reflexivity].
  - destruct (formatCellValue_cases sampleGetTime sampleToLocaleDateString
                (JS.VString "soon") "Start Date") as (_ & Hs & _).
    destruct (Hs "soon" eq_refl eq_refl) as (_ & _ & _ & Hfail).
    apply (Hfail eq_refl). left. reflexivity.
  - destruct (formatCellValue_cases sampleGetTime sampleToLocaleDateString
                (JS.VNumber 42) "Start Date") as (_ & _ & _ & Hn).
    apply (Hn 42%Z eq_refl). unfold safeInteger. lia.
Defined.

(** ** The filter *)

Section FilterFacts.
Import JS DataTable.

Lemma rowMatches_iff lowerTerm (row : Obj) :
  rowMatches lowerTerm row = true ↔
  ∃ k v, (k, v) ∈ row ∧ includes (toLowerCase (toString v)) lowerTerm = true.
Proof.
  unfold rowMatches, values. rewrite existsb_exists. split.
  - intros (v & Hin & Hv). apply list_elem_of_In, list_elem_of_fmap in Hin
      as ([k v'] & -> & Hin). by exists k, v'.
  - intros (k & v & Hin & Hv). exists v. split; [|done].
    apply list_elem_of_In, list_elem_of_fmap. by exists (k, v).
Qed.

End FilterFacts.

(** C10. The filter looks at the own values of a row only, each coerced
    with [String] and lower-cased: a row passes exactly when one of its own
    values contains the lower-cased term.  [null] is coerced to ["null"]
    and [undefined] to ["undefined"], so a row with a [null] cell passes
    every non-empty term contained in ["null"], although the cell is
    displayed as the empty string.  A key that the row does not have is not
    searched: in the sample table the term [null] keeps the first row only
    and the term [undefined] the third only, although column [b] reads
    [undefined] in every row. *)
Theorem filter_coerces_null_and_skips_absent_keys :
  (∀ (h : Heap) data searchTerm r,
     JS.truthyStr searchTerm = true →
     (r ∈ DataTable.getProcessedRows h data searchTerm None ↔
      r ∈ rows data ∧
      ∃ k v, (k, v) ∈ deref h r ∧
        JS.includes (JS.toLowerCase (JS.toString v))
                    (JS.toLowerCase searchTerm) = true)) ∧
  JS.toString JS.VNull = "null" ∧
  JS.toString JS.VUndefined = "undefined" ∧
  (∀ (h : Heap) data searchTerm r k,
     JS.truthyStr searchTerm = true →
     JS.includes "null" (JS.toLowerCase searchTerm) = true →
     r ∈ rows data → (k, JS.VNull) ∈ deref h r →
     r ∈ DataTable.getProcessedRows h data searchTerm None) ∧
  (∀ getTime toLocale header,
     DataTable.formatCellValue getTime toLocale JS.VNull header = "") ∧
  DataTable.getProcessedRows nullRowsStore nullRowsTable "null" None = [0%nat] ∧
  DataTable.getProcessedRows nullRowsStore nullRowsTable "undefined" None = [2%nat] ∧
  Forall (λ r, JS.get (deref nullRowsStore r) "b" = JS.VUndefined)
         (rows nullRowsTable).
Proof.
  assert (Hfilter : ∀ (h : Heap) data searchTerm r,
     JS.truthyStr searchTerm = true →
     (r ∈ DataTable.getProcessedRows h data searchTerm None ↔
      r ∈ rows data ∧
      ∃ k v, (k, v) ∈ deref h r ∧
        JS.includes (JS.toLowerCase (JS.toString v))
                    (JS.toLowerCase searchTerm) = true)).
  { intros h data searchTerm r Ht. unfold DataTable.getProcessedRows.
    rewrite Ht, list_elem_of_filter, <-rowMatches_iff, Is_true_true. tauto. }
  split; [exact Hfilter|]. split; [done|]. split; [done|]. split.
  - intros h data searchTerm r k Ht Hinc Hr Hk.
    apply Hfilter; [done|]. split; [done|]. by exists k, JS.VNull.
  - split; [done|]. split; [by vm_compute|]. split; [by vm_compute|].
    repeat (apply Forall_cons; split; [done|]). apply Forall_nil_2.
Qed.

(** The term [Nu] finds the row whose cell is [null]. *)
Lemma filter_coerces_null_and_skips_absent_keys_witness :
  0%nat ∈ DataTable.getProcessedRows nullRowsStore nullRowsTable "Nu" None.
Proof.
  destruct filter_coerces_null_and_skips_absent_keys
    as (_ & _ & _ & Hnull & _).
  apply (Hnull nullRowsStore nullRowsTable "Nu" 0%nat "a").
  - reflexivity.
  - reflexivity.
  - apply elem_of_cons. left. reflexivity.
  - apply list_elem_of_singleton. reflexivity.
Defined.

(** ** Sorting *)

Section SortFacts.
Import DataTable.
Context {A : Type} (cmp : A → A → Z).

Lemma insertSorted_Permutation a l : insertSorted cmp a l ≡ₚ a :: l.
Proof.
  induction l as [|b l IH]; simpl; [done|].
  destruct (cmp a b <=? 0)%Z; [done|]. rewrite IH. apply Permutation_swap.
Qed.

Lemma sort_Permutation l : sort cmp l ≡ₚ l.
Proof.
  induction l as [|a l IH]; simpl; [done|].
  by rewrite insertSorted_Permutation, IH.
Qed.

(** *** Rows without a value come last *)

Section NullsLast.
Variable isNull : A → bool.
Hypothesis null_before : ∀ a b, isNull a = true → (cmp a b ≤ 0)%Z → isNull b = true.
Hypothesis defined_before_null :
  ∀ a b, isNull a = false → isNull b = true → (cmp a b ≤ 0)%Z.

Lemma insertSorted_all_null a l :
  isNull a = true → Forall (λ y, isNull y = true) l →
  Forall (λ y, isNull y = true) (insertSorted cmp a l).
Proof.
  intros Ha Hl. rewrite Forall_forall in Hl. apply Forall_forall.
  intros x Hx. rewrite insertSorted_Permutation in Hx.
  apply elem_of_cons in Hx as [->|Hx]; [done|by apply Hl].
Qed.

Lemma insertSorted_nullsLast a l : nullsLast isNull l → nullsLast isNull (insertSorted cmp a l).
Proof.
  induction l as [|b l IH]; simpl.
  - intros _. by destruct (isNull a).
  - intros Hl. destruct (Z.leb_spec (cmp a b) 0) as [Hle|Hgt]; simpl.
    + destruct (isNull a) eqn:Ha; [|done].
      pose proof (null_before a b Ha Hle) as Hb. rewrite Hb in Hl.
      by apply Forall_cons.
    + destruct (isNull b) eqn:Hb; [|by apply IH].
      destruct (isNull a) eqn:Ha; [by apply insertSorted_all_null|].
      pose proof (defined_before_null a b Ha Hb). lia.
Qed.

Lemma sort_nullsLast l : nullsLast isNull (sort cmp l).
Proof.
  induction l as [|a l IH]; simpl; [done|]. by apply insertSorted_nullsLast.
Qed.

Lemma filter_valued_all_null l :
  Forall (λ y, isNull y = true) l → filter (λ y, isNull y = false) l = [].
Proof.
  induction 1 as [|x l Hx Hl IH]; [done|].
  rewrite filter_cons_False by congruence. done.
Qed.

Lemma filter_null_all_null l :
  Forall (λ y, isNull y = true) l → filter (λ y, isNull y = true) l = l.
Proof.
  induction 1 as [|x l Hx Hl IH]; [done|].
  rewrite filter_cons_True by done. by f_equal.
Qed.

(** A list with its nulls last is its valued elements followed by its
    nulls. *)
Lemma nullsLast_filter l :
  nullsLast isNull l →
  l = filter (λ y, isNull y = false) l ++ filter (λ y, isNull y = true) l.
Proof.
  induction l as [|x l IH]; simpl; [done|].
  destruct (isNull x) eqn:Hx.
  - intros Hl. rewrite filter_cons_False by congruence.
    rewrite filter_cons_True by done.
    by rewrite filter_valued_all_null, filter_null_all_null.
  - intros Hl. rewrite filter_cons_True by done.
    rewrite filter_cons_False by congruence. simpl. f_equal. by apply IH.
Qed.

Lemma insertSorted_filter_null a l :
  isNull a = true →
  filter (λ y, isNull y = false) (insertSorted cmp a l) =
    filter (λ y, isNull y = false) l.
Proof.
  intros Ha. induction l as [|b l IH]; simpl.
  - by rewrite filter_cons_False by congruence.
  - destruct (cmp a b <=? 0)%Z.
    + by rewrite filter_cons_False by congruence.
    + by rewrite !filter_cons, IH.
Qed.

Lemma insertSorted_filter_valued a l :
  isNull a = false → nullsLast isNull l →
  filter (λ y, isNull y = false) (insertSorted cmp a l) =
    insertSorted cmp a (filter (λ y, isNull y = false) l).
Proof.
  intros Ha. induction l as [|b l IH]; simpl.
  - intros _. by rewrite filter_cons_True.
  - intros Hl. destruct (Z.leb_spec (cmp a b) 0) as [Hle|Hgt].
    + rewrite filter_cons_True by done.
      destruct (isNull b) eqn:Hb.
      * rewrite filter_cons_False by congruence.
        by rewrite filter_valued_all_null.
      * rewrite filter_cons_True by done. simpl.
        by destruct (Z.leb_spec (cmp a b) 0); [|lia].
    + destruct (isNull b) eqn:Hb.
      * pose proof (defined_before_null a b Ha Hb). lia.
      * rewrite !filter_cons_True by done. simpl.
        destruct (Z.leb_spec (cmp a b) 0); [lia|]. f_equal. by apply IH.
Qed.

(** Sorting and then dropping the nulls is dropping them and then
    sorting. *)
Lemma sort_filter_valued l :
  filter (λ y, isNull y = false) (sort cmp l) =
    sort cmp (filter (λ y, isNull y = false) l).
Proof.
  induction l as [|a l IH]; simpl; [done|].
  destruct (isNull a) eqn:Ha.
  - rewrite insertSorted_filter_null by done.
    by rewrite filter_cons_False by congruence.
  - rewrite insertSorted_filter_valued by (done || apply sort_nullsLast).
    rewrite filter_cons_True by done. simpl. by rewrite IH.
Qed.

End NullsLast.

(** *** A comparison that is a strict total order on the rows *)

Section StrictOrder.
Variable S : A → Prop.
Hypothesis cmp_antisym : ∀ a b, S a → S b → (cmp a b < 0 ↔ 0 < cmp b a)%Z.
Hypothesis cmp_no_tie : ∀ a b, S a → S b → a ≠ b → cmp a b ≠ 0%Z.
Hypothesis cmp_trans :
  ∀ a b c, S a → S b → S c → (cmp a b < 0 → cmp b c < 0 → cmp a c < 0)%Z.

Lemma insertSorted_StronglySorted a l :
  S a → Forall S l → a ∉ l →
  StronglySorted (comesBefore cmp) l →
  StronglySorted (comesBefore cmp) (insertSorted cmp a l).
Proof.
  intros Ha. induction l as [|b l IH]; intros HS Hnin Hsorted; simpl.
  - by repeat constructor.
  - apply Forall_cons in HS as [Hb HS].
    apply not_elem_of_cons in Hnin as [Hab Hnin].
    apply StronglySorted_cons in Hsorted as [Hbl Hsorted].
    destruct (Z.leb_spec (cmp a b) 0) as [Hle|Hgt].
    + assert (Hlt : comesBefore cmp a b).
      { unfold comesBefore. pose proof (cmp_no_tie a b Ha Hb Hab). lia. }
      apply StronglySorted_cons. split; [|by apply StronglySorted_cons].
      apply Forall_cons. split; [done|].
      rewrite Forall_forall in Hbl, HS. apply Forall_forall. intros x Hx.
      apply (cmp_trans a b x); auto. by apply Hbl.
    + apply StronglySorted_cons. split; [|by apply IH].
      rewrite Forall_forall in Hbl. apply Forall_forall. intros x Hx.
      rewrite insertSorted_Permutation in Hx.
      apply elem_of_cons in Hx as [->|Hx]; [|by apply Hbl].
      unfold comesBefore. by apply cmp_antisym.
Qed.

Lemma sort_StronglySorted l :
  Forall S l → NoDup l → StronglySorted (comesBefore cmp) (sort cmp l).
Proof.
  induction l as [|a l IH]; simpl; [by constructor|].
  intros [Ha HS]%Forall_cons [Hnin Hnd]%NoDup_cons.
  apply insertSorted_StronglySorted; [done| | |by apply IH].
  - by rewrite sort_Permutation.
  - by rewrite sort_Permutation.
Qed.

End StrictOrder.

End SortFacts.

Section CompareFacts.
Import JS DataTable.

Lemma compareValues_null_before direction va vb :
  isNullish va = true → (compareValues direction va vb ≤ 0)%Z → isNullish vb = true.
Proof.
  intros Ha. unfold compareValues. destruct (decide (va = vb)) as [<-|_]; [done|].
  rewrite Ha. lia.
Qed.

Lemma compareValues_defined_before_null direction va vb :
  isNullish va = false → isNullish vb = true → (compareValues direction va vb ≤ 0)%Z.
Proof.
  intros Ha Hb. unfold compareValues.
  destruct (decide (va = vb)) as [->|_]; [congruence|].
  rewrite Ha, Hb. lia.
Qed.

Lemma string_compare_trans a b c :
  String.compare a b = Lt → String.compare b c = Lt → String.compare a c = Lt.
Proof.
  revert b c. induction a as [|x a IH]; intros [|y b] [|z c]; simpl; try done.
  unfold Ascii.compare.
  destruct (N.compare_spec (N_of_ascii x) (N_of_ascii y)) as [Hxy|Hxy|Hxy];
    destruct (N.compare_spec (N_of_ascii y) (N_of_ascii z)) as [Hyz|Hyz|Hyz];
    try done; intros Hab Hbc.
  - rewrite (proj2 (N.compare_eq_iff _ _)) by congruence. by apply (IH b).
  - by rewrite (proj2 (N.compare_lt_iff _ _)) by lia.
  - by rewrite (proj2 (N.compare_lt_iff _ _)) by lia.
  - by rewrite (proj2 (N.compare_lt_iff _ _)) by lia.
Qed.

Lemma ltStr_trans a b c : ltStr a b = true → ltStr b c = true → ltStr a c = true.
Proof.
  unfold ltStr. intros Hab Hbc.
  rewrite (string_compare_trans a b c); [done| |].
  - by destruct (String.compare a b).
  - by destruct (String.compare b c).
Qed.

Lemma ltStr_irrefl a : ltStr a a = false.
Proof.
  unfold ltStr. pose proof (String.compare_antisym a a) as Hanti.
  by destruct (String.compare a a).
Qed.

Lemma ltStr_asym a b : ltStr a b = true → ltStr b a = false.
Proof.
  unfold ltStr. rewrite (String.compare_antisym b a).
  by destruct (String.compare a b).
Qed.

(** Between defined values the descending comparison is the ascending one
    negated. *)
Lemma compareValues_Desc va vb :
  isNullish va = false → isNullish vb = false →
  compareValues Desc va vb = (- compareValues Asc va vb)%Z.
Proof.
  intros Ha Hb. unfold compareValues.
  destruct (decide (va = vb)); [done|]. rewrite Ha, Hb.
  destruct va, vb; try done; try lia;
    repeat match goal with
           | |- context [ltStr ?x ?y] => destruct (ltStr x y)
           end; done.
Qed.

Lemma compareValues_antisym va vb :
  isNullish va = false → isNullish vb = false →
  (compareValues Asc va vb < 0 ↔ 0 < compareValues Asc vb va)%Z.
Proof.
  intros Ha Hb. unfold compareValues.
  destruct (decide (va = vb)) as [->|Hne].
  - rewrite decide_True by done. lia.
  - rewrite decide_False by congruence. rewrite Ha, Hb.
    assert (Hstr : ∀ x y,
      ((if ltStr x y then -1 else if ltStr y x then 1 else 0) < 0 ↔
       0 < (if ltStr y x then -1 else if ltStr x y then 1 else 0))%Z).
    { intros x y. destruct (ltStr x y) eqn:Hxy.
      - rewrite (ltStr_asym _ _ Hxy). lia.
      - destruct (ltStr y x); lia. }
    destruct va, vb; try done; try apply Hstr. lia.
Qed.

(** Among strings the ascending comparison is the order of the lower-cased
    texts, and among numbers the order of the numbers. *)
Lemma compareValues_strings a b :
  (compareValues Asc (VString a) (VString b) < 0)%Z ↔
  ltStr (toLowerCase a) (toLowerCase b) = true.
Proof.
  unfold compareValues. destruct (decide (VString a = VString b)) as [[= ->]|Hne].
  - rewrite ltStr_irrefl. split; [lia|done].
  - simpl. destruct (ltStr (toLowerCase a) (toLowerCase b)); [split; [done|lia]|].
    destruct (ltStr (toLowerCase b) (toLowerCase a)); split; (lia || done).
Qed.

Lemma compareValues_numbers a b :
  (compareValues Asc (VNumber a) (VNumber b) < 0 ↔ a < b)%Z.
Proof.
  unfold compareValues. destruct (decide (VNumber a = VNumber b)) as [[= ->]|Hne].
  - lia.
  - simpl. lia.
Qed.

End CompareFacts.

Section SortDirections.
Import JS DataTable.

Lemma StronglySorted_reverse {A : Type} (R : relation A) (l : list A) :
  StronglySorted R l → StronglySorted (flip R) (reverse l).
Proof.
  induction 1 as [|x l Hl IH Hx]; [apply SSorted_nil|].
  rewrite reverse_cons. apply StronglySorted_app_2; [|done|by repeat constructor].
  intros x1 x2 Hx1 Hx2%list_elem_of_singleton. subst x2.
  rewrite elem_of_reverse in Hx1.
  rewrite Forall_forall in Hx. unfold flip. by apply Hx.
Qed.

Lemma StronglySorted_impl_elem {A : Type} (R1 R2 : relation A) (l : list A) :
  (∀ x y, x ∈ l → y ∈ l → R1 x y → R2 x y) →
  StronglySorted R1 l → StronglySorted R2 l.
Proof.
  intros Himpl Hl. induction Hl as [|x l Hl IH Hx]; [constructor|].
  constructor.
  - apply IH. intros y z Hy Hz. apply Himpl; by right.
  - rewrite Forall_forall in Hx. apply Forall_forall. intros y Hy.
    apply Himpl; [by left | by right | by apply Hx].
Qed.

Lemma getProcessedRows_sorted (h : Heap) data searchTerm cfg :
  getProcessedRows h data searchTerm (Some cfg) =
    sort (compareRows h cfg) (getProcessedRows h data searchTerm None).
Proof. done. Qed.

Lemma sorted_nulls_last (h : Heap) cfg (l : list nat) :
  let sorted := sort (compareRows h cfg) l in
  sorted = valuedRows h (sort_key cfg) sorted ++ nullRows h (sort_key cfg) sorted.
Proof.
  apply (nullsLast_filter (λ r, isNullish (keyValue h (sort_key cfg) r))).
  apply sort_nullsLast.
  - intros a b. apply compareValues_null_before.
  - intros a b. apply compareValues_defined_before_null.
Qed.

Lemma sorted_valuedRows (h : Heap) cfg (l : list nat) :
  valuedRows h (sort_key cfg) (sort (compareRows h cfg) l) =
    sort (compareRows h cfg) (valuedRows h (sort_key cfg) l).
Proof.
  apply (sort_filter_valued (compareRows h cfg)
           (λ r, isNullish (keyValue h (sort_key cfg) r))).
  - intros a b. apply compareValues_null_before.
  - intros a b. apply compareValues_defined_before_null.
Qed.

Lemma filter_all {A : Type} (P : A → Prop) `{!∀ x, Decision (P x)} (l : list A) :
  Forall P l → filter P l = l.
Proof.
  induction 1 as [|x l Hx Hl IH]; [done|].
  rewrite filter_cons_True by done. by f_equal.
Qed.

(** On rows that all have a value, do not tie and are compared
    transitively, the two directions are each other's reverse. *)
Lemma sort_reverse_strict (h : Heap) key (l : list nat) :
  let cmpA := compareRows h (mkSort key Asc) in
  let cmpD := compareRows h (mkSort key Desc) in
  Forall (λ r, isNullish (keyValue h key r) = false) l →
  (∀ i j a b, i ≠ j → l !! i = Some a → l !! j = Some b → cmpA a b ≠ 0%Z) →
  (∀ a b c, a ∈ l → b ∈ l → c ∈ l →
     comesBefore cmpA a b → comesBefore cmpA b c → comesBefore cmpA a c) →
  sort cmpD l = reverse (sort cmpA l).
Proof.
  intros cmpA cmpD Hdef Htie Htrans. rewrite Forall_forall in Hdef.
  unfold comesBefore in Htrans.
  assert (Hasc : sort cmpA l ≡ₚ l) by apply sort_Permutation.
  assert (Hdesc : sort cmpD l ≡ₚ l) by apply sort_Permutation.
  assert (Hneg : ∀ a b, a ∈ l → b ∈ l → cmpD a b = (- cmpA a b)%Z).
  { intros a b Ha Hb. apply compareValues_Desc; by apply Hdef. }
  assert (Hanti : ∀ a b, a ∈ l → b ∈ l → (cmpA a b < 0 ↔ 0 < cmpA b a)%Z).
  { intros a b Ha Hb. apply compareValues_antisym; by apply Hdef. }
  assert (Hnd : NoDup l).
  { apply NoDup_alt. intros i j x Hi Hj.
    destruct (decide (i = j)) as [|Hij]; [done|].
    destruct (Htie i j x x Hij Hi Hj).
    unfold cmpA, compareRows, compareValues. by rewrite decide_True. }
  assert (Hno : ∀ a b, a ∈ l → b ∈ l → a ≠ b → cmpA a b ≠ 0%Z).
  { intros a b [i Hi]%list_elem_of_lookup [j Hj]%list_elem_of_lookup Hab.
    apply (Htie i j a b); [|done|done]. intros ->. congruence. }
  assert (HS : Forall (λ r, r ∈ l) l) by by apply Forall_forall.
  assert (HsortedA : StronglySorted (comesBefore cmpA) (sort cmpA l)).
  { by apply (sort_StronglySorted cmpA (λ r, r ∈ l)). }
  assert (HsortedD : StronglySorted (comesBefore cmpD) (sort cmpD l)).
  { apply (sort_StronglySorted cmpD (λ r, r ∈ l)); try done.
    - intros a b Ha Hb. rewrite !Hneg by done.
      pose proof (Hanti a b Ha Hb). pose proof (Hanti b a Hb Ha). lia.
    - intros a b Ha Hb Hab. rewrite Hneg by done.
      pose proof (Hno a b Ha Hb Hab). lia.
    - intros a b c Ha Hb Hc. rewrite !Hneg by done. intros Hab Hbc.
      assert (Hba : (cmpA b a < 0)%Z) by (apply Hanti; [done..|lia]).
      assert (Hcb : (cmpA c b < 0)%Z) by (apply Hanti; [done..|lia]).
      pose proof (Htrans c b a Hc Hb Ha Hcb Hba) as Hca.
      apply Hanti in Hca; [|done..]. lia. }
  apply (StronglySorted_unique_strong (comesBefore cmpD)); [|done| |].
  - intros x1 x2 Hx1 Hx2 H12 H21. exfalso.
    rewrite Hdesc in Hx1. rewrite elem_of_reverse, Hasc in Hx2.
    unfold comesBefore in H12, H21. rewrite Hneg in H12, H21 by done.
    pose proof (Hanti x1 x2 Hx1 Hx2). lia.
  - apply (StronglySorted_impl_elem (flip (comesBefore cmpA)));
      [|by apply StronglySorted_reverse].
    intros x y Hx Hy. rewrite elem_of_reverse, Hasc in Hx, Hy.
    unfold flip, comesBefore. rewrite Hneg by done. intros Hyx.
    apply Hanti in Hyx; [|done..]. lia.
  - by rewrite Hdesc, reverse_Permutation, Hasc.
Qed.

End SortDirections.

(** ** What a sort has to do *)

Section SortSpecification.
Import DataTable.
Context {A : Type} (cmp : A → A → Z).

Lemma singleton_sublist (b : A) l : [b] `sublist_of` l ↔ b ∈ l.
Proof.
  rewrite sublist_cons_l. split.
  - intros (k1 & k2 & -> & _). apply elem_of_app. right. apply list_elem_of_here.
  - intros (k1 & k2 & ->)%list_elem_of_split. exists k1, k2. split; [done|].
    apply sublist_nil_l.
Qed.

Lemma before_cons x l (a b : A) :
  before (x :: l) a b ↔ a = x ∧ b ∈ l ∨ before l a b.
Proof.
  unfold before. rewrite sublist_cons_r. split.
  - intros [?|(l' & [= -> <-] & Hb)]; [by right|]. left.
    split; [done|]. by apply singleton_sublist.
  - intros [[-> Hb]|?]; [|by left]. right. exists [b]. split; [done|].
    by apply singleton_sublist.
Qed.

Lemma before_elem_of l (a b : A) : before l a b → a ∈ l ∧ b ∈ l.
Proof.
  intros Hab. split; eapply elem_of_sublist; try exact Hab.
  - apply list_elem_of_here.
  - apply list_elem_of_further, list_elem_of_here.
Qed.

Lemma before_sublist l l' (a b : A) :
  l `sublist_of` l' → before l a b → before l' a b.
Proof. intros Hl Hab. unfold before in *. by etrans. Qed.

Lemma before_NoDup l (a b : A) : NoDup l → before l a b → a ≠ b.
Proof.
  intros Hnd Hab ->. eapply sublist_NoDup in Hnd; [|exact Hab].
  apply NoDup_cons in Hnd as [Hb _]. apply Hb, list_elem_of_here.
Qed.

(** In a list without repetition two elements are in one order only. *)
Lemma before_asym l (a b : A) : NoDup l → before l a b → before l b a → False.
Proof.
  induction l as [|x l IH]; intros Hnd Hab Hba.
  - apply before_elem_of in Hab as [Ha _]. by apply elem_of_nil in Ha.
  - apply NoDup_cons in Hnd as [Hx Hnd].
    apply before_cons in Hab as [[-> Hb]|Hab];
      apply before_cons in Hba as [[-> Ha]|Hba].
    + done.
    + apply before_elem_of in Hba as [_ Ha]. done.
    + apply before_elem_of in Hab as [_ Hb]. done.
    + by apply IH.
Qed.

Lemma before_total l (a b : A) `{!EqDecision A} :
  a ∈ l → b ∈ l → a ≠ b → before l a b ∨ before l b a.
Proof.
  induction l as [|x l IH]; intros Ha Hb Hne.
  - by apply elem_of_nil in Ha.
  - apply elem_of_cons in Ha as [->|Ha]; apply elem_of_cons in Hb as [->|Hb].
    + done.
    + left. apply before_cons. by left.
    + right. apply before_cons. by left.
    + destruct (IH Ha Hb Hne) as [?|?]; [left|right]; apply before_cons; by right.
Qed.

Lemma insertSorted_sublist x l : l `sublist_of` insertSorted cmp x l.
Proof.
  induction l as [|c l IH]; simpl; [apply sublist_nil_l|].
  destruct (cmp x c <=? 0)%Z; [by apply sublist_cons|by apply sublist_skip].
Qed.

(** The inserted element goes before every element that it does not
    compare above. *)
Lemma insertSorted_before x l b :
  b ∈ l → (cmp x b ≤ 0)%Z → before (insertSorted cmp x l) x b.
Proof.
  induction l as [|c l IH]; intros Hb Hle; [by apply elem_of_nil in Hb|]. simpl.
  destruct (Z.leb_spec (cmp x c) 0) as [|Hgt].
  - apply before_cons. by left.
  - apply elem_of_cons in Hb as [->|Hb]; [lia|].
    apply before_cons. right. by apply IH.
Qed.

(** The sort is stable, whatever the comparison. *)
Lemma sort_stable l a b :
  before l a b → (cmp a b ≤ 0)%Z → before (sort cmp l) a b.
Proof.
  induction l as [|x l IH]; intros Hab Hle.
  - apply before_elem_of in Hab as [Ha _]. by apply elem_of_nil in Ha.
  - change (sort cmp (x :: l)) with (insertSorted cmp x (sort cmp l)).
    apply before_cons in Hab as [[-> Hb]|Hab].
    + apply insertSorted_before; [|done]. by rewrite sort_Permutation.
    + eapply before_sublist; [apply insertSorted_sublist|]. by apply IH.
Qed.

Section Consistent.
Variable S : A → Prop.
Hypothesis cmp_refl : ∀ a, S a → cmp a a = 0%Z.
Hypothesis cmp_sym : ∀ a b, S a → S b → cmp a b = 0%Z → cmp b a = 0%Z.
Hypothesis cmp_trans_eq :
  ∀ a b c, S a → S b → S c → cmp a b = 0%Z → cmp b c = 0%Z → cmp a c = 0%Z.
Hypothesis cmp_trans_lt :
  ∀ a b c, S a → S b → S c → (cmp a b < 0 → cmp b c < 0 → cmp a c < 0)%Z.
Hypothesis cmp_trans_gt :
  ∀ a b c, S a → S b → S c → (0 < cmp a b → 0 < cmp b c → 0 < cmp a c)%Z.

Lemma consistent_lt_gt a b : S a → S b → (cmp a b < 0)%Z → (0 < cmp b a)%Z.
Proof.
  intros Ha Hb Hlt. destruct (Z.lt_trichotomy (cmp b a) 0) as [Hba|[Hba|Hba]].
  - pose proof (cmp_trans_lt a b a Ha Hb Ha Hlt Hba).
    pose proof (cmp_refl a Ha). lia.
  - pose proof (cmp_sym b a Hb Ha Hba). lia.
  - done.
Qed.

Lemma consistent_gt_lt a b : S a → S b → (0 < cmp a b)%Z → (cmp b a < 0)%Z.
Proof.
  intros Ha Hb Hgt. destruct (Z.lt_trichotomy (cmp b a) 0) as [Hba|[Hba|Hba]].
  - done.
  - pose proof (cmp_sym b a Hb Ha Hba). lia.
  - pose proof (cmp_trans_gt a b a Ha Hb Ha Hgt Hba).
    pose proof (cmp_refl a Ha). lia.
Qed.

Lemma consistent_lt_eq a b c :
  S a → S b → S c → (cmp a b < 0)%Z → cmp b c = 0%Z → (cmp a c < 0)%Z.
Proof.
  intros Ha Hb Hc Hab Hbc.
  destruct (Z.lt_trichotomy (cmp a c) 0) as [Hac|[Hac|Hac]]; [done| |].
  - pose proof (cmp_sym b c Hb Hc Hbc) as Hcb.
    pose proof (cmp_trans_eq a c b Ha Hc Hb Hac Hcb). lia.
  - pose proof (consistent_gt_lt a c Ha Hc Hac) as Hca.
    pose proof (cmp_trans_lt c a b Hc Ha Hb Hca Hab) as Hcb.
    pose proof (cmp_sym b c Hb Hc Hbc). lia.
Qed.

Lemma consistent_eq_lt a b c :
  S a → S b → S c → cmp a b = 0%Z → (cmp b c < 0)%Z → (cmp a c < 0)%Z.
Proof.
  intros Ha Hb Hc Hab Hbc.
  destruct (Z.lt_trichotomy (cmp a c) 0) as [Hac|[Hac|Hac]]; [done| |].
  - pose proof (cmp_sym a b Ha Hb Hab) as Hba.
    pose proof (cmp_trans_eq b a c Hb Ha Hc Hba Hac). lia.
  - pose proof (consistent_gt_lt a c Ha Hc Hac) as Hca.
    pose proof (cmp_trans_lt b c a Hb Hc Ha Hbc Hca) as Hba.
    pose proof (cmp_sym a b Ha Hb Hab). lia.
Qed.

Lemma consistent_le_trans a b c :
  S a → S b → S c → (cmp a b ≤ 0 → cmp b c ≤ 0 → cmp a c ≤ 0)%Z.
Proof.
  intros Ha Hb Hc Hab Hbc.
  destruct (Z.lt_trichotomy (cmp a b) 0) as [Hab'|[Hab'|Hab']]; [| |lia];
  destruct (Z.lt_trichotomy (cmp b c) 0) as [Hbc'|[Hbc'|Hbc']]; try lia.
  - pose proof (cmp_trans_lt a b c Ha Hb Hc Hab' Hbc'). lia.
  - pose proof (consistent_lt_eq a b c Ha Hb Hc Hab' Hbc'). lia.
  - pose proof (consistent_eq_lt a b c Ha Hb Hc Hab' Hbc'). lia.
  - pose proof (cmp_trans_eq a b c Ha Hb Hc Hab' Hbc'). lia.
Qed.

Lemma consistent_total a b : S a → S b → (¬ cmp a b ≤ 0 → cmp b a ≤ 0)%Z.
Proof.
  intros Ha Hb Hgt. pose proof (consistent_gt_lt a b Ha Hb). lia.
Qed.

Lemma insertSorted_sorted x l :
  S x → Forall S l →
  StronglySorted (λ a b, cmp a b ≤ 0)%Z l →
  StronglySorted (λ a b, cmp a b ≤ 0)%Z (insertSorted cmp x l).
Proof.
  intros Hx HS Hl. induction Hl as [|c l Hl IH Hc]; simpl.
  { repeat constructor. }
  apply Forall_cons in HS as [HSc HS].
  destruct (Z.leb_spec (cmp x c) 0) as [Hle|Hgt].
  - constructor; [by constructor|].
    apply Forall_cons. split; [done|].
    rewrite Forall_forall in Hc, HS. apply Forall_forall. intros b Hb.
    apply (consistent_le_trans x c b); auto.
  - constructor; [by apply IH|].
    apply Forall_forall. intros b Hb.
    rewrite insertSorted_Permutation in Hb.
    apply elem_of_cons in Hb as [->|Hb].
    + apply consistent_total; [done|done|lia].
    + rewrite Forall_forall in Hc. by apply Hc.
Qed.

Lemma sort_sorted_le l :
  Forall S l → StronglySorted (λ a b, cmp a b ≤ 0)%Z (sort cmp l).
Proof.
  induction l as [|x l IH]; intros HS; [constructor|].
  apply Forall_cons in HS as [Hx HS].
  change (sort cmp (x :: l)) with (insertSorted cmp x (sort cmp l)).
  apply insertSorted_sorted; [done| |by apply IH].
  by rewrite sort_Permutation.
Qed.

End Consistent.

Lemma StronglySorted_before (R : relation A) l a b :
  StronglySorted R l → before l a b → R a b.
Proof.
  induction 1 as [|x l Hl IH Hx]; intros Hab.
  - apply before_elem_of in Hab as [Ha _]. by apply elem_of_nil in Ha.
  - apply before_cons in Hab as [[-> Hb]|Hab]; [|by apply IH].
    rewrite Forall_forall in Hx. by apply Hx.
Qed.

Lemma before_StronglySorted (R : relation A) l :
  (∀ a b, before l a b → R a b) → StronglySorted R l.
Proof.
  induction l as [|x l IH]; intros HR; [constructor|].
  constructor.
  - apply IH. intros a b Hab. apply HR, before_cons. by right.
  - apply Forall_forall. intros b Hb. apply HR, before_cons. by left.
Qed.

(** For a consistent comparator, the result of [sort] is sorted and
    stable ... *)
Lemma sort_sortedStably l :
  consistentComparator cmp l → sortedStably cmp l (sort cmp l).
Proof.
  intros (Hrefl & Hsym & Heq & Hlt & Hgt).
  split; [apply sort_Permutation|]. split.
  - intros a b Hab Hba.
    assert (Hle : (cmp a b ≤ 0)%Z).
    { revert Hab. apply (StronglySorted_before (λ a b, cmp a b ≤ 0)%Z).
      apply (sort_sorted_le (λ x, x ∈ l)); try done.
      by apply Forall_forall. }
    apply before_elem_of in Hab as [Ha Hb].
    rewrite sort_Permutation in Ha, Hb.
    pose proof (consistent_lt_gt (λ x, x ∈ l) Hrefl Hsym Hlt b a Hb Ha Hba).
    lia.
  - intros a b Hab Htie. apply sort_stable; [done|lia].
Qed.

(** ... and it is the only such arrangement of a list without
    repetition: every engine returns it. *)
Lemma sortedStably_unique `{!EqDecision A} l l1 l2 :
  NoDup l → consistentComparator cmp l →
  sortedStably cmp l l1 → sortedStably cmp l l2 → l1 = l2.
Proof.
  intros Hnd (Hrefl & Hsym & Heq & Hlt & Hgt).
  set (R := λ a b, (cmp a b < 0)%Z ∨ cmp a b = 0%Z ∧ before l a b).
  assert (Hsorted : ∀ l', sortedStably cmp l l' → StronglySorted R l').
  { intros l' (Hperm & Hord & Hstable).
    apply before_StronglySorted. intros a b Hab.
    pose proof (before_elem_of _ _ _ Hab) as [Ha Hb].
    rewrite Hperm in Ha, Hb.
    assert (Hnd' : NoDup l') by by rewrite Hperm.
    pose proof (before_NoDup _ _ _ Hnd' Hab) as Hne.
    destruct (Z.lt_trichotomy (cmp a b) 0) as [Hlt'|[Htie|Hgt']].
    - by left.
    - right. split; [done|].
      destruct (before_total l a b Ha Hb Hne) as [?|Hba]; [done|].
      exfalso. apply (before_asym l' a b Hnd' Hab).
      apply Hstable; [done|]. by apply Hsym.
    - exfalso. apply (Hord a b Hab).
      apply (consistent_gt_lt (λ x, x ∈ l) Hrefl Hsym Hgt a b Ha Hb Hgt'). }
  intros H1 H2. apply (StronglySorted_unique_strong R); [|by apply Hsorted..|].
  - intros a b Ha Hb Hab Hba. exfalso.
    destruct H1 as [Hp1 _], H2 as [Hp2 _]. rewrite Hp1 in Ha. rewrite Hp2 in Hb.
    destruct Hab as [Hab|[Hab Hl]], Hba as [Hba|[Hba Hl']].
    + pose proof (consistent_lt_gt (λ x, x ∈ l) Hrefl Hsym Hlt a b Ha Hb Hab). lia.
    + pose proof (Hsym b a Hb Ha Hba). lia.
    + pose proof (Hsym a b Ha Hb Hab). lia.
    + by apply (before_asym l a b).
  - destruct H1 as [-> _], H2 as [-> _]. done.
Qed.

End SortSpecification.

(** ** Where the comparison of the table is consistent *)

Section ConsistentComparison.
Import JS DataTable.

Lemma string_compare_refl a : String.compare a a = Eq.
Proof.
  pose proof (String.compare_antisym a a) as H.
  by destruct (String.compare a a).
Qed.

Lemma string_compare_gt_lt a b :
  String.compare a b = Gt ↔ String.compare b a = Lt.
Proof.
  rewrite (String.compare_antisym b a). by destruct (String.compare a b).
Qed.

Lemma string_compare_gt_trans a b c :
  String.compare a b = Gt → String.compare b c = Gt → String.compare a c = Gt.
Proof.
  rewrite !string_compare_gt_lt. intros Hba Hcb.
  by apply (string_compare_trans c b a).
Qed.

Lemma compareValues_refl direction v : compareValues direction v v = 0%Z.
Proof. unfold compareValues. by rewrite decide_True. Qed.

(** The comparison of two strings, by the order of their lower-case
    forms. *)
Lemma compareValues_compare direction a b :
  compareValues direction (VString a) (VString b) =
    match String.compare (toLowerCase a) (toLowerCase b), direction with
    | Eq, _ => 0
    | Lt, Asc | Gt, Desc => -1
    | Lt, Desc | Gt, Asc => 1
    end%Z.
Proof.
  unfold compareValues. destruct (decide (VString a = VString b)) as [[= ->]|_].
  { by rewrite string_compare_refl. }
  cbn [isNullish toString]. unfold ltStr.
  rewrite (String.compare_antisym (toLowerCase a) (toLowerCase b)).
  by destruct (String.compare (toLowerCase b) (toLowerCase a)), direction.
Qed.

Lemma compareValues_subtract direction a b :
  compareValues direction (VNumber a) (VNumber b) =
    match direction with Asc => a - b | Desc => b - a end%Z.
Proof.
  unfold compareValues. destruct (decide (VNumber a = VNumber b)) as [[= ->]|_].
  - destruct direction; lia.
  - done.
Qed.

Lemma compareValues_missing_first direction missing v :
  isNullish missing = true → v ≠ missing →
  compareValues direction missing v = 1%Z.
Proof.
  intros Hm Hv. unfold compareValues.
  rewrite decide_False by congruence. by rewrite Hm.
Qed.

Lemma compareValues_missing_second direction missing v :
  isNullish v = false → isNullish missing = true →
  compareValues direction v missing = (-1)%Z.
Proof.
  intros Hv Hm. unfold compareValues.
  rewrite decide_False by (intros ->; congruence). by rewrite Hv, Hm.
Qed.

(** Elements without a value that compare equal to each other and above
    every element with one leave a consistent comparator consistent. *)
Lemma consistent_with_missing {A : Type} (cmp : A → A → Z) (isM : A → bool)
    (l : list A) :
  (∀ a b, a ∈ l → b ∈ l → isM a = true → isM b = true → cmp a b = 0%Z) →
  (∀ a b, a ∈ l → b ∈ l → isM a = true → isM b = false → cmp a b = 1%Z) →
  (∀ a b, a ∈ l → b ∈ l → isM a = false → isM b = true → cmp a b = (-1)%Z) →
  consistentComparator cmp (filter (λ a, isM a = false) l) →
  consistentComparator cmp l.
Proof.
  intros Hmm Hmv Hvm (Hrefl & Hsym & Heq & Hlt & Hgt).
  assert (Hin : ∀ a, a ∈ l → isM a = false →
                     a ∈ filter (λ a, isM a = false) l).
  { intros a Ha Hm. by apply list_elem_of_filter. }
  split; [|split; [|split; [|split]]].
  - intros a Ha. destruct (isM a) eqn:Ea; [by apply Hmm|by apply Hrefl, Hin].
  - intros a b Ha Hb.
    destruct (isM a) eqn:Ea, (isM b) eqn:Eb.
    + rewrite (Hmm a b), (Hmm b a) by done. done.
    + rewrite (Hmv a b) by done. done.
    + rewrite (Hvm a b) by done. done.
    + apply Hsym; by apply Hin.
  - intros a b c Ha Hb Hc.
    destruct (isM a) eqn:Ea, (isM b) eqn:Eb, (isM c) eqn:Ec;
      try (rewrite (Hmv a b) by done; done);
      try (rewrite (Hvm a b) by done; done);
      try (rewrite (Hmv b c) by done; done);
      try (rewrite (Hvm b c) by done; done).
    + intros _ _. by apply Hmm.
    + apply Heq; by apply Hin.
  - intros a b c Ha Hb Hc.
    destruct (isM a) eqn:Ea, (isM b) eqn:Eb, (isM c) eqn:Ec;
      try (rewrite (Hmm a b) by done; lia);
      try (rewrite (Hmv a b) by done; lia);
      try (rewrite (Hmm b c) by done; lia);
      try (rewrite (Hmv b c) by done; lia).
    + intros _ _. rewrite (Hvm a c) by done. lia.
    + apply Hlt; by apply Hin.
  - intros a b c Ha Hb Hc.
    destruct (isM a) eqn:Ea, (isM b) eqn:Eb, (isM c) eqn:Ec;
      try (rewrite (Hmm a b) by done; lia);
      try (rewrite (Hvm a b) by done; lia);
      try (rewrite (Hmm b c) by done; lia);
      try (rewrite (Hvm b c) by done; lia).
    + intros _ _. rewrite (Hmv a c) by done. lia.
    + apply Hgt; by apply Hin.
Qed.

Lemma compareValues_consistent_strings direction (vs : list value) :
  Forall (λ v, ∃ s, v = VString s) vs →
  consistentComparator (compareValues direction) vs.
Proof.
  intros Hs. rewrite Forall_forall in Hs.
  split; [intros a _; apply compareValues_refl|].
  split; [|split; [|split]].
  - intros a b [sa ->]%Hs [sb ->]%Hs. rewrite !compareValues_compare.
    rewrite (String.compare_antisym (toLowerCase sb) (toLowerCase sa)).
    by destruct (String.compare (toLowerCase sa) (toLowerCase sb)), direction.
  - intros a b c [sa ->]%Hs [sb ->]%Hs [sc ->]%Hs.
    rewrite !compareValues_compare.
    destruct (String.compare (toLowerCase sa) (toLowerCase sb)) eqn:E1;
      [|by destruct direction..].
    apply String.compare_eq_iff in E1. by rewrite E1.
  - intros a b c [sa ->]%Hs [sb ->]%Hs [sc ->]%Hs.
    rewrite !compareValues_compare.
    pose proof (string_compare_trans (toLowerCase sa) (toLowerCase sb)
                  (toLowerCase sc)) as HL.
    pose proof (string_compare_gt_trans (toLowerCase sa) (toLowerCase sb)
                  (toLowerCase sc)) as HG.
    destruct (String.compare (toLowerCase sa) (toLowerCase sb)),
      (String.compare (toLowerCase sb) (toLowerCase sc)), direction;
      try lia; intros _ _;
      first [rewrite (HL eq_refl eq_refl) | rewrite (HG eq_refl eq_refl)]; lia.
  - intros a b c [sa ->]%Hs [sb ->]%Hs [sc ->]%Hs.
    rewrite !compareValues_compare.
    pose proof (string_compare_trans (toLowerCase sa) (toLowerCase sb)
                  (toLowerCase sc)) as HL.
    pose proof (string_compare_gt_trans (toLowerCase sa) (toLowerCase sb)
                  (toLowerCase sc)) as HG.
    destruct (String.compare (toLowerCase sa) (toLowerCase sb)),
      (String.compare (toLowerCase sb) (toLowerCase sc)), direction;
      try lia; intros _ _;
      first [rewrite (HL eq_refl eq_refl) | rewrite (HG eq_refl eq_refl)]; lia.
Qed.

Lemma compareValues_consistent_numbers direction (vs : list value) :
  Forall (λ v, ∃ n, v = VNumber n) vs →
  consistentComparator (compareValues direction) vs.
Proof.
  intros Hs. rewrite Forall_forall in Hs.
  split; [intros a _; apply compareValues_refl|].
  split; [|split; [|split]].
  - intros a b [na ->]%Hs [nb ->]%Hs. rewrite !compareValues_subtract.
    destruct direction; lia.
  - intros a b c [na ->]%Hs [nb ->]%Hs [nc ->]%Hs.
    rewrite !compareValues_subtract. destruct direction; lia.
  - intros a b c [na ->]%Hs [nb ->]%Hs [nc ->]%Hs.
    rewrite !compareValues_subtract. destruct direction; lia.
  - intros a b c [na ->]%Hs [nb ->]%Hs [nc ->]%Hs.
    rewrite !compareValues_subtract. destruct direction; lia.
Qed.

(** On values of one kind the comparison is a consistent comparator, in
    both directions. *)
Lemma compareValues_consistent direction (vs : list value) :
  oneKind vs → consistentComparator (compareValues direction) vs.
Proof.
  intros (missing & Hmissing & Hkind).
  assert (Hm : isNullish missing = true) by by destruct Hmissing as [->| ->].
  assert (Hnull : ∀ v, v ∈ vs → isNullish v = true → v = missing).
  { intros v Hv Hn. destruct Hkind as [Hk|Hk]; rewrite Forall_forall in Hk;
      destruct (Hk v Hv) as [?|[x Hx]]; [done| |done|].
    - by rewrite Hx in Hn.
    - destruct Hx as [Hx _]. by rewrite Hx in Hn. }
  apply (consistent_with_missing _ isNullish).
  - intros a b Ha Hb Hna Hnb.
    rewrite (Hnull a Ha Hna), (Hnull b Hb Hnb). apply compareValues_refl.
  - intros a b Ha Hb Hna Hnb. rewrite (Hnull a Ha Hna).
    apply compareValues_missing_first; [done|]. intros ->. congruence.
  - intros a b Ha Hb Hna Hnb. rewrite (Hnull b Hb Hnb).
    by apply compareValues_missing_second.
  - destruct Hkind as [Hk|Hk]; rewrite Forall_forall in Hk.
    + apply compareValues_consistent_strings, Forall_forall.
      intros v [Hn Hv]%list_elem_of_filter.
      destruct (Hk v Hv) as [->|?]; [congruence|done].
    + apply compareValues_consistent_numbers, Forall_forall.
      intros v [Hn Hv]%list_elem_of_filter.
      destruct (Hk v Hv) as [->|[n [-> _]]]; [congruence|by exists n].
Qed.

(** Whether two values tie does not depend on the direction. *)
Lemma compareValues_tie va vb :
  compareValues Asc va vb = 0%Z ↔ compareValues Desc va vb = 0%Z.
Proof.
  unfold compareValues. destruct (decide (va = vb)); [done|].
  destruct (isNullish va); [done|]. destruct (isNullish vb); [done|].
  destruct va, vb; try lia;
    repeat match goal with
           | |- context [ltStr ?x ?y] => destruct (ltStr x y)
           end; done.
Qed.

Lemma consistentComparator_fmap {A B : Type} (f : A → B) (cmp : B → B → Z)
    (l : list A) :
  consistentComparator cmp (f <$> l) →
  consistentComparator (λ a b, cmp (f a) (f b)) l.
Proof.
  intros (Hrefl & Hsym & Heq & Hlt & Hgt).
  assert (Hin : ∀ a, a ∈ l → f a ∈ f <$> l).
  { intros a Ha. apply list_elem_of_fmap. by exists a. }
  split; [|split; [|split; [|split]]].
  - intros a Ha. by apply Hrefl, Hin.
  - intros a b Ha Hb. apply Hsym; by apply Hin.
  - intros a b c Ha Hb Hc. apply Heq; by apply Hin.
  - intros a b c Ha Hb Hc. apply Hlt; by apply Hin.
  - intros a b c Ha Hb Hc. apply Hgt; by apply Hin.
Qed.

Lemma compareRows_consistent (h : Heap) key direction (l : list nat) :
  oneKind (keyValue h key <$> l) →
  consistentComparator (compareRows h (mkSort key direction)) l.
Proof.
  intros Hkind.
  apply (consistentComparator_fmap (keyValue h key) (compareValues direction)).
  by apply compareValues_consistent.
Qed.

End ConsistentComparison.

(** Rows that tie keep their order in both directions: the descending
    order is not the reverse of the ascending one. *)
Lemma sort_ties_not_reversed :
  Forall (λ r, JS.isNullish (keyValue tiedRowsStore "a" r) = false)
         (rows tiedRowsTable) ∧
  DataTable.getProcessedRows tiedRowsStore tiedRowsTable ""
    (Some (DataTable.mkSort "a" DataTable.Asc)) = [0; 1]%nat ∧
  DataTable.getProcessedRows tiedRowsStore tiedRowsTable ""
    (Some (DataTable.mkSort "a" DataTable.Desc)) = [0; 1]%nat ∧
  DataTable.getProcessedRows tiedRowsStore tiedRowsTable ""
    (Some (DataTable.mkSort "a" DataTable.Desc)) ≠
  reverse (DataTable.getProcessedRows tiedRowsStore tiedRowsTable ""
    (Some (DataTable.mkSort "a" DataTable.Asc))).
Proof.
  split; [by repeat constructor|]. split; [by vm_compute|].
  split; [by vm_compute|]. vm_compute. by intros [=].
Qed.

(** A column that mixes numbers with text: the comparison is not a
    consistent comparator, and the descending order is not the ascending
    one reversed although every row has a value and no two rows tie. *)
Lemma sort_mixed_values_not_reversed :
  let cmpA := DataTable.compareRows mixedRowsStore
                (DataTable.mkSort "a" DataTable.Asc) in
  Forall (λ r, JS.isNullish (keyValue mixedRowsStore "a" r) = false)
         (rows mixedRowsTable) ∧
  (cmpA 5%nat 3%nat < 0)%Z ∧ (cmpA 3%nat 4%nat < 0)%Z ∧
  (0 < cmpA 5%nat 4%nat)%Z ∧
  ¬ consistentComparator cmpA (rows mixedRowsTable) ∧
  DataTable.getProcessedRows mixedRowsStore mixedRowsTable ""
    (Some (DataTable.mkSort "a" DataTable.Asc)) = [0; 2; 1; 3; 4; 5]%nat ∧
  DataTable.getProcessedRows mixedRowsStore mixedRowsTable ""
    (Some (DataTable.mkSort "a" DataTable.Desc)) = [3; 5; 1; 2; 0; 4]%nat ∧
  DataTable.getProcessedRows mixedRowsStore mixedRowsTable ""
    (Some (DataTable.mkSort "a" DataTable.Desc)) ≠
  reverse (DataTable.getProcessedRows mixedRowsStore mixedRowsTable ""
    (Some (DataTable.mkSort "a" DataTable.Asc))).
Proof.
  intros cmpA.
  split; [by repeat (apply Forall_cons; split; [reflexivity|])|].
  split; [by vm_compute|]. split; [by vm_compute|].
  split; [by vm_compute|]. split.
  - intros (_ & _ & _ & Hlt & _).
    assert (H53 : (cmpA 5%nat 3%nat < 0)%Z) by by vm_compute.
    assert (H34 : (cmpA 3%nat 4%nat < 0)%Z) by by vm_compute.
    assert (H54 : (0 < cmpA 5%nat 4%nat)%Z) by by vm_compute.
    assert (Hin : ∀ r, (r < 6)%nat → r ∈ rows mixedRowsTable).
    { intros r Hr. apply list_elem_of_lookup. exists r.
      by do 6 (destruct r as [|r]; [done|]); lia. }
    pose proof (Hlt 5%nat 3%nat 4%nat (Hin 5%nat ltac:(lia))
                  (Hin 3%nat ltac:(lia)) (Hin 4%nat ltac:(lia)) H53 H34).
    lia.
  - split; [by vm_compute|]. split; [by vm_compute|].
    vm_compute. by intros [=].
Qed.

(** C4 (amended). In both directions the sorted rows are the filtered rows
    rearranged, with the rows whose value under the sort key is [null] or
    [undefined] after all the rows that have one.  Where the comparison is
    a consistent comparator on the filtered rows in both directions (the
    condition under which ECMAScript defines the order of
    [Array.prototype.sort]): each direction is ordered by the comparison
    and rows that compare equal keep their filtered order, in both
    directions; when the filtered rows are distinct no other list meets
    these conditions; and when no two rows that have a value compare
    equal, the rows that have a value come in the descending order exactly
    in the reverse of their ascending order, so when every row has a value
    the descending order is the ascending order reversed.  The comparison
    is a consistent comparator in both directions whenever the values
    under the sort key are of one kind: strings only or safe integers
    only, the missing ones all [null] or all [undefined]. *)
Theorem sort_directions (h : Heap) (data : TableData) (searchTerm key : string) :
  let shown := DataTable.getProcessedRows h data searchTerm None in
  let asc := DataTable.getProcessedRows h data searchTerm
               (Some (DataTable.mkSort key DataTable.Asc)) in
  let desc := DataTable.getProcessedRows h data searchTerm
                (Some (DataTable.mkSort key DataTable.Desc)) in
  let value := keyValue h key in
  let cmpA := DataTable.compareRows h (DataTable.mkSort key DataTable.Asc) in
  let cmpD := DataTable.compareRows h (DataTable.mkSort key DataTable.Desc) in
  let valued := valuedRows h key shown in
  asc ≡ₚ shown ∧ desc ≡ₚ shown ∧
  asc = valuedRows h key asc ++ nullRows h key asc ∧
  desc = valuedRows h key desc ++ nullRows h key desc ∧
  (consistentComparator cmpA shown → consistentComparator cmpD shown →
   sortedStably cmpA shown asc ∧ sortedStably cmpD shown desc ∧
   (∀ a b, before shown a b → cmpA a b = 0%Z →
      before asc a b ∧ before desc a b) ∧
   (NoDup shown → ∀ l,
      (sortedStably cmpA shown l → l = asc) ∧
      (sortedStably cmpD shown l → l = desc)) ∧
   ((∀ i j a b, i ≠ j → valued !! i = Some a → valued !! j = Some b →
       cmpA a b ≠ 0%Z) →
    valuedRows h key desc = reverse (valuedRows h key asc) ∧
    (Forall (λ r, JS.isNullish (value r) = false) shown →
     desc = reverse asc))) ∧
  (oneKind (value <$> shown) →
   consistentComparator cmpA shown ∧ consistentComparator cmpD shown).
Proof.
  intros shown asc desc value cmpA cmpD valued.
  assert (Hasc : asc ≡ₚ shown) by apply sort_Permutation.
  assert (Hdesc : desc ≡ₚ shown) by apply sort_Permutation.
  split; [done|]. split; [done|].
  split; [apply (sorted_nulls_last h (DataTable.mkSort key DataTable.Asc))|].
  split; [apply (sorted_nulls_last h (DataTable.mkSort key DataTable.Desc))|].
  split.
  - intros HconsA HconsD.
    split; [by apply sort_sortedStably|]. split; [by apply sort_sortedStably|].
    split; [|split].
    + intros a b Hab Htie. unfold cmpA, DataTable.compareRows in Htie.
      simpl in Htie. split.
      * apply sort_stable; [done|].
        unfold DataTable.compareRows. simpl. by rewrite Htie.
      * apply sort_stable; [done|]. apply compareValues_tie in Htie.
        unfold DataTable.compareRows. simpl. by rewrite Htie.
    + intros Hnd l. split; intros Hl.
      * by apply (sortedStably_unique cmpA shown l asc);
          [..|apply sort_sortedStably].
      * by apply (sortedStably_unique cmpD shown l desc);
          [..|apply sort_sortedStably].
    + intros Htie.
      assert (Hrev : valuedRows h key desc = reverse (valuedRows h key asc)).
      { unfold asc, desc. rewrite !getProcessedRows_sorted. fold shown.
        rewrite (sorted_valuedRows h (DataTable.mkSort key DataTable.Asc)),
          (sorted_valuedRows h (DataTable.mkSort key DataTable.Desc)).
        simpl. fold valued. apply sort_reverse_strict; [|done|].
        - apply Forall_forall. by intros r [? _]%list_elem_of_filter.
        - destruct HconsA as (_ & _ & _ & Hlt & _).
          intros a b c [_ Ha]%list_elem_of_filter [_ Hb]%list_elem_of_filter
            [_ Hc]%list_elem_of_filter.
          by apply Hlt. }
      split; [done|]. intros Hall.
      assert (Ha : valuedRows h key asc = asc).
      { apply filter_all. by rewrite Hasc. }
      assert (Hd : valuedRows h key desc = desc).
      { apply filter_all. by rewrite Hdesc. }
      by rewrite <-Ha, <-Hd.
  - intros Hkind. split; by apply compareRows_consistent.
Qed.

(** Three distinct strings: the descending order is the ascending one
    reversed.  Two rows with the same string: the first stays before the
    second in both directions. *)
Lemma sort_directions_witness :
  DataTable.getProcessedRows distinctRowsStore distinctRowsTable ""
    (Some (DataTable.mkSort "a" DataTable.Desc)) =
  reverse (DataTable.getProcessedRows distinctRowsStore distinctRowsTable ""
    (Some (DataTable.mkSort "a" DataTable.Asc))) ∧
  before (DataTable.getProcessedRows tiedRowsStore tiedRowsTable ""
    (Some (DataTable.mkSort "a" DataTable.Asc))) 0%nat 1%nat ∧
  before (DataTable.getProcessedRows tiedRowsStore tiedRowsTable ""
    (Some (DataTable.mkSort "a" DataTable.Desc))) 0%nat 1%nat.
Proof.
  split.
  - destruct (sort_directions distinctRowsStore distinctRowsTable "" "a")
      as (_ & _ & _ & _ & Hcons & Hkind).
    destruct Hkind as [HA HD].
    { exists JS.VNull. split; [by left|]. left.
      apply Forall_cons. split; [right; exists "pear"; reflexivity|].
      apply Forall_cons. split; [right; exists "Apple"; reflexivity|].
      apply Forall_cons. split; [right; exists "fig"; reflexivity|].
      apply Forall_nil_2. }
    destruct (Hcons HA HD) as (_ & _ & _ & _ & Hrev).
    apply Hrev.
    + intros i j a b Hij Hi Hj.
      destruct i as [|[|[|i]]]; try discriminate Hi;
      destruct j as [|[|[|j]]]; try discriminate Hj;
      try (exfalso; apply Hij; reflexivity);
      injection Hi as <-; injection Hj as <-; vm_compute; discriminate.
    + repeat (apply Forall_cons; split; [reflexivity|]). apply Forall_nil_2.
  - destruct (sort_directions tiedRowsStore tiedRowsTable "" "a")
      as (_ & _ & _ & _ & Hcons & Hkind).
    destruct Hkind as [HA HD].
    { exists JS.VNull. split; [by left|]. left.
      apply Forall_cons. split; [right; exists "x"; reflexivity|].
      apply Forall_cons. split; [right; exists "x"; reflexivity|].
      apply Forall_nil_2. }
    destruct (Hcons HA HD) as (_ & _ & Hties & _).
    apply Hties; [|reflexivity].
    change ([0; 1]%nat `sublist_of` [0; 1]%nat). reflexivity.
Defined.


(** * Further properties *)

(** ** The view state *)

Section ViewFacts.
Import DataTable.
Local Open Scope Z_scope.

Lemma totalPages_positive total : 1 ≤ totalPages total.
Proof.
  unfold totalPages, RECORDS_PER_PAGE.
  pose proof (ceilDiv_bounds (Z.max (total - 5) 0) 30 ltac:(lia)).
  destruct (Z.eqb_spec (ceilDiv (Z.max (total - 5) 0) 30) 0); lia.
Qed.

Lemma totalPages_paged total : 35 < total → totalPages total = ceilDiv (total - 5) 30.
Proof.
  intros Hbig. unfold totalPages, RECORDS_PER_PAGE. rewrite Z.max_l by lia.
  pose proof (ceilDiv_bounds (total - 5) 30 ltac:(lia)).
  destruct (Z.eqb_spec (ceilDiv (total - 5) 30) 0); lia.
Qed.

Lemma pageNumber_range currentPage maxPage i p :
  1 ≤ currentPage → 0 ≤ i →
  pageNumber currentPage maxPage i = Some p → 1 ≤ p ≤ maxPage.
Proof.
  intros Hcp Hi. unfold pageNumber.
  destruct (Z.ltb_spec 5 maxPage), (Z.ltb_spec 3 currentPage); simpl;
    match goal with
    | |- context [(maxPage <? ?x)] => destruct (Z.ltb_spec maxPage x)
    end; intros [= <-]; lia.
Qed.

Lemma pageButtons_range currentPage maxPage i p :
  1 ≤ currentPage →
  pageButtons currentPage maxPage !! i = Some (Some p) → 1 ≤ p ≤ maxPage.
Proof.
  intros Hcp. unfold pageButtons. rewrite list_lookup_fmap.
  destruct (seq 0 (Z.to_nat (5 `min` maxPage)) !! i) as [j|]; [|done].
  simpl. intros [= Hp]. apply (pageNumber_range _ _ _ _ Hcp) in Hp; lia.
Qed.

End ViewFacts.

(** X1. Clicking a header sorts by it in ascending order, unless the
    table is already sorted by it in ascending order, when it sorts in
    descending order: further clicks on the same header alternate between
    the two and the unsorted state is never restored; the click always
    goes back to page 1. *)
Theorem handleSort_alternates (sortConfig : option DataTable.SortConfig)
    (key : string) :
  let first := (DataTable.handleSort sortConfig key).1 in
  let second := (DataTable.handleSort (Some first) key).1 in
  let third := (DataTable.handleSort (Some second) key).1 in
  (DataTable.handleSort sortConfig key).2 = 1%Z ∧
  DataTable.sort_key first = key ∧
  (DataTable.sort_direction first = DataTable.Desc ↔
   sortConfig = Some (DataTable.mkSort key DataTable.Asc)) ∧
  (second = DataTable.mkSort key DataTable.Desc ↔
   DataTable.sort_direction first = DataTable.Asc) ∧
  third = first ∧
  (∀ other, other ≠ key →
     DataTable.handleSort (Some first) other =
       (DataTable.mkSort other DataTable.Asc, 1%Z)).
Proof.
  unfold DataTable.handleSort. simpl.
  assert (Hother : ∀ d other, other ≠ key →
    (if String.eqb key other && d then DataTable.Desc else DataTable.Asc) =
      DataTable.Asc).
  { intros d other Hne. by destruct (String.eqb_spec key other). }
  destruct sortConfig as [[k d]|]; simpl.
  - destruct (String.eqb_spec k key) as [->|Hne], d; simpl;
      repeat (rewrite String.eqb_refl; simpl);
      repeat split; try done; try (intros [= ?]; congruence);
      intros other Hne'; by rewrite Hother.
  - repeat (rewrite String.eqb_refl; simpl).
    repeat split; try done. intros other Hne'. by rewrite Hother.
Qed.

(** Sorted by [a] ascending, a click on [b] sorts by [b] ascending. *)
Lemma handleSort_alternates_witness :
  DataTable.handleSort (Some (DataTable.mkSort "a" DataTable.Asc)) "b" =
    (DataTable.mkSort "b" DataTable.Asc, 1%Z).
Proof.
  destruct (handleSort_alternates None "a") as (_ & _ & _ & _ & _ & Hother).
  apply (Hother "b"). discriminate.
Defined.

(** X2. With the current page in [[1, maxPage]], the numbered buttons
    that are shown are at most five consecutive pages within
    [[1, maxPage]], and the current page is one of them. *)
Theorem pageButtons_window (currentPage maxPage : Z) :
  (1 ≤ currentPage ≤ maxPage)%Z →
  ∃ first len,
    shownPages (DataTable.pageButtons currentPage maxPage) = seqZ first len ∧
    (1 ≤ first ≤ currentPage ∧ currentPage < first + len ≤ maxPage + 1 ∧
     len ≤ 5)%Z.
Proof.
  intros Hcp. unfold shownPages, DataTable.pageButtons.
  destruct (Z.le_gt_cases maxPage 5) as [Hsmall|Hbig].
  - assert (Hcases : (maxPage = 1 ∨ maxPage = 2 ∨ maxPage = 3 ∨ maxPage = 4 ∨
                      maxPage = 5)%Z) by lia.
    exists 1%Z, maxPage.
    destruct Hcases as [->|[->|[->|[->| ->]]]]; (split; [reflexivity|lia]).
  - rewrite Z.min_l by lia. change (Z.to_nat 5) with 5%nat.
    unfold DataTable.pageNumber. cbn [seq fmap list_fmap Z.of_nat].
    destruct (Z.ltb_spec 5 maxPage) as [_|]; [|lia]. cbn [andb].
    destruct (Z.ltb_spec 3 currentPage) as [Hlate|Hearly].
    + repeat match goal with
             | |- context [(maxPage <? ?x)%Z] => destruct (Z.ltb_spec maxPage x)
             end; try lia.
      * exists (currentPage - 2)%Z, 3%Z. split; [|lia].
        unfold seqZ. simpl. repeat (f_equal; try lia).
      * exists (currentPage - 2)%Z, 4%Z. split; [|lia].
        unfold seqZ. simpl. repeat (f_equal; try lia).
      * exists (currentPage - 2)%Z, 5%Z. split; [|lia].
        unfold seqZ. simpl. repeat (f_equal; try lia).
    + repeat match goal with
             | |- context [(maxPage <? ?x)%Z] => destruct (Z.ltb_spec maxPage x)
             end; try lia.
      exists 1%Z, 5%Z. split; [reflexivity|lia].
Qed.

(** Page 7 of 8: the buttons are 5, 6, 7 and 8. *)
Lemma pageButtons_window_witness :
  ∃ first len,
    shownPages (DataTable.pageButtons 7 8) = seqZ first len ∧
    (first ≤ 7 < first + len)%Z.
Proof.
  destruct (pageButtons_window 7 8) as (first & len & Heq & Hrange).
  - lia.
  - exists first, len. split; [exact Heq|lia].
Defined.

(** X3. The current page never drops below 1: it is at least 1 in every
    state the user can reach.  A current page within [[1, maxPage]] stays
    within it under every event; and when it exceeds [maxPage] (rows were
    removed), [Next] and [>>] bring it back to [maxPage]. *)
Theorem currentPage_stays_in_range (isLoadingMore : bool) :
  (∀ st, reachableView isLoadingMore st → (1 ≤ DataTable.vs_currentPage st)%Z) ∧
  (∀ total st e,
     (1 ≤ DataTable.vs_currentPage st ≤ DataTable.totalPages total)%Z →
     (1 ≤ DataTable.vs_currentPage
            (DataTable.handleEvent isLoadingMore (DataTable.totalPages total) st e)
        ≤ DataTable.totalPages total)%Z) ∧
  (∀ total st e,
     (DataTable.totalPages total < DataTable.vs_currentPage st)%Z →
     isLoadingMore = false →
     e = DataTable.ClickNext ∨ e = DataTable.ClickLast →
     DataTable.vs_currentPage
       (DataTable.handleEvent isLoadingMore (DataTable.totalPages total) st e) =
     DataTable.totalPages total).
Proof.
  assert (Hstep : ∀ maxPage st e,
    (1 ≤ maxPage)%Z → (1 ≤ DataTable.vs_currentPage st)%Z →
    (1 ≤ DataTable.vs_currentPage (DataTable.handleEvent isLoadingMore maxPage st e))%Z ∧
    ((DataTable.vs_currentPage st ≤ maxPage)%Z →
     (DataTable.vs_currentPage (DataTable.handleEvent isLoadingMore maxPage st e)
        ≤ maxPage)%Z)).
  { intros maxPage [sc term cp] e Hmax Hcp. simpl in Hcp.
    destruct e as [key|text| | |i| |]; simpl.
    - lia.
    - lia.
    - destruct ((cp =? 1)%Z || isLoadingMore); simpl; lia.
    - destruct ((cp =? 1)%Z || isLoadingMore); simpl; lia.
    - destruct (DataTable.pageButtons cp maxPage !! i) as [[p|]|] eqn:Hp;
        simpl; try lia.
      apply pageButtons_range in Hp; [|done].
      destruct isLoadingMore; simpl; lia.
    - destruct ((cp =? maxPage)%Z || isLoadingMore); simpl; lia.
    - destruct ((cp =? maxPage)%Z || isLoadingMore); simpl; lia. }
  split; [|split].
  - induction 1 as [|st total e Hst IH]; [simpl; lia|].
    apply Hstep; [apply totalPages_positive | done].
  - intros total st e [Hlo Hhi].
    destruct (Hstep (DataTable.totalPages total) st e
                (totalPages_positive total) Hlo) as [H1 H2]. auto.
  - intros total [sc term cp] e Hstale -> He. simpl in Hstale.
    pose proof (totalPages_positive total).
    destruct He as [-> | ->]; simpl;
      destruct (Z.eqb_spec cp (DataTable.totalPages total)); simpl; lia.
Qed.

(** On page 3 of a table that now has 2 pages, [Next] goes to page 2. *)
Lemma currentPage_stays_in_range_witness :
  DataTable.vs_currentPage
    (DataTable.handleEvent false (DataTable.totalPages 65)
       (DataTable.mkView None "" 3) DataTable.ClickNext) = 2%Z.
Proof.
  destruct (currentPage_stays_in_range false) as (_ & _ & Hstale).
  apply (Hstale 65%Z (DataTable.mkView None "" 3%Z) DataTable.ClickNext).
  - reflexivity.
  - reflexivity.
  - left. reflexivity.
Defined.

(** ** The rows on screen *)

Section ScreenFacts.
Import DataTable.
Local Open Scope Z_scope.

Lemma renderRows_small (rows : list nat) currentPage :
  Z.of_nat (length rows) ≤ 35 → renderRows rows currentPage = numbered 0 rows.
Proof.
  intros Hsmall. unfold renderRows, getPaginatedRows, hasGap, RECORDS_PER_PAGE.
  destruct (Z.leb_spec (Z.of_nat (length rows)) (30 + 5)); [|lia]. simpl.
  destruct (Z.ltb_spec (30 + 5) (Z.of_nat (length rows))); [lia|]. simpl.
  apply render_without_gap.
Qed.

(** The page that is shown, the body and the tail of a table of more than
    35 rows. *)
Lemma renderRows_paged (rows : list nat) currentPage :
  let total := Z.of_nat (length rows) in
  let maxPage := totalPages total in
  let page := Z.min currentPage maxPage in
  let bodyStart := (page - 1) * 30 in
  let bodyEnd := Z.min (page * 30) (total - 5) in
  1 ≤ currentPage → 35 < total →
  (0 ≤ bodyStart ∧ bodyStart < bodyEnd ≤ total - 5) ∧
  (currentPage < maxPage → bodyEnd = bodyStart + 30 ∧ bodyEnd < total - 5) ∧
  (maxPage ≤ currentPage → bodyEnd = total - 5) ∧
  renderRows rows currentPage =
    numbered bodyStart (rowsBetween rows bodyStart bodyEnd)
    ++ (if bool_decide (currentPage < maxPage) then [GapMarker (total - 35)]
        else [])
    ++ numbered (total - 5) (rowsBetween rows (total - 5) total).
Proof.
  intros total maxPage page bodyStart bodyEnd Hpage Hbig.
  assert (Htp : maxPage = ceilDiv (total - 5) 30) by by apply totalPages_paged.
  pose proof (ceilDiv_bounds (total - 5) 30 ltac:(lia)) as Hceil.
  rewrite <-Htp in Hceil.
  assert (Hfacts : (0 ≤ bodyStart ∧ bodyStart < bodyEnd ≤ total - 5) ∧
    (currentPage < maxPage → bodyEnd = bodyStart + 30 ∧ bodyEnd < total - 5) ∧
    (maxPage ≤ currentPage → bodyEnd = total - 5)).
  { unfold bodyStart, bodyEnd, page. lia. }
  destruct Hfacts as (Hrange & Hgap & Hlast).
  split; [done|]. split; [done|]. split; [done|].
  assert (Hrows : getPaginatedRows rows currentPage =
    mkPaginated (rowsBetween rows bodyStart bodyEnd ++
                 rowsBetween rows (total - 5) total) bodyStart).
  { unfold getPaginatedRows, RECORDS_PER_PAGE. fold total.
    destruct (Z.leb_spec total (30 + 5)); [lia|].
    rewrite <-Htp. fold page. fold bodyStart.
    replace (bodyStart + 30) with (page * 30) by (unfold bodyStart; lia).
    fold bodyEnd. f_equal. f_equal.
    - unfold slice, relIndex, rowsBetween. fold total.
      destruct (Z.ltb_spec bodyStart 0); [lia|].
      destruct (Z.ltb_spec bodyEnd 0); [lia|].
      rewrite !Z.min_l by lia. done.
    - unfold sliceFrom, slice, relIndex, rowsBetween.
      fold total. destruct (Z.ltb_spec (-5) 0); [|lia].
      destruct (Z.ltb_spec total 0); [lia|].
      rewrite Z.max_l by lia. rewrite Z.min_l by lia.
      by replace (total + -5) with (total - 5) by lia. }
  unfold renderRows. rewrite Hrows. simpl. fold total.
  assert (Hbody : length (rowsBetween rows bodyStart bodyEnd) =
                  Z.to_nat (bodyEnd - bodyStart)).
  { apply length_rowsBetween; unfold total in *; lia. }
  assert (Htail : length (rowsBetween rows (total - 5) total) = 5%nat).
  { rewrite length_rowsBetween; unfold total in *; lia. }
  unfold hasGap, RECORDS_PER_PAGE. fold maxPage.
  destruct (Z.ltb_spec (30 + 5) total); [|lia]. simpl.
  destruct (Z.ltb_spec currentPage maxPage) as [Hlt|Hge].
  - rewrite bool_decide_eq_true_2 by done.
    rewrite imap_app, concat_app.
    rewrite render_body_with_gap by lia.
    f_equal. rewrite Hbody.
    replace (Z.to_nat (bodyEnd - bodyStart)) with 30%nat by lia.
    replace (total - 35) with (total - 30 - 5) by lia.
    apply render_tail_with_gap.
    intros Hnil. rewrite Hnil in Htail. done.
  - rewrite bool_decide_eq_false_2 by lia. simpl.
    rewrite render_without_gap, numbered_app. do 2 f_equal. lia.
Qed.

Lemma elem_of_numbered first (l : list nat) n r :
  RowLine n r ∈ numbered first l ↔
  ∃ i, l !! i = Some r ∧ n = first + Z.of_nat i + 1.
Proof.
  unfold numbered. rewrite elem_of_lookup_imap. split.
  - intros (i & y & [= -> ->] & Hi). by exists i.
  - intros (i & Hi & ->). by exists i, r.
Qed.

Lemma GapMarker_not_numbered first (l : list nat) m :
  GapMarker m ∉ numbered first l.
Proof.
  unfold numbered. rewrite elem_of_lookup_imap. by intros (i & y & [=] & _).
Qed.

Lemma lineNumbers_numbered first (l : list nat) :
  lineNumbers (numbered first l) = seqZ (first + 1) (Z.of_nat (length l)).
Proof.
  revert first. induction l as [|x l IH] using rev_ind; intros first; [done|].
  rewrite numbered_app, length_app. unfold lineNumbers in *.
  rewrite omap_app, IH. simpl length.
  replace (Z.of_nat (length l + 1)) with (Z.of_nat (S (length l))) by lia.
  rewrite seqZ_S. f_equal. unfold numbered. simpl. f_equal. lia.
Qed.

Lemma lineRows_numbered first (l : list nat) : lineRows (numbered first l) = l.
Proof.
  revert first. induction l as [|x l IH] using rev_ind; intros first; [done|].
  rewrite numbered_app. unfold lineRows in *. by rewrite omap_app, IH.
Qed.

Lemma lookup_rowsBetween (l : list nat) a b i r :
  0 ≤ a → rowsBetween l a b !! i = Some r →
  l !! Z.to_nat (a + Z.of_nat i) = Some r ∧ a + Z.of_nat i < b.
Proof.
  intros Ha. unfold rowsBetween. intros [Hi Hlt]%lookup_take_Some.
  rewrite lookup_drop in Hi. split; [|lia].
  by replace (Z.to_nat (a + Z.of_nat i)) with (Z.to_nat a + i)%nat by lia.
Qed.

Lemma StronglySorted_seqZ m len : StronglySorted Z.lt (seqZ m len).
Proof.
  remember (Z.to_nat len) as k eqn:Hk. revert m len Hk.
  induction k as [|k IH]; intros m len Hk.
  - rewrite seqZ_nil by lia. constructor.
  - rewrite seqZ_cons by lia. constructor; [apply IH; lia|].
    apply Forall_seqZ. lia.
Qed.

End ScreenFacts.

(** X4. A current page beyond the last page shows what the last page
    shows: after rows are removed on the last page, the table is not left
    blank. *)
Theorem stale_page_shows_last_page (processedRows : list nat) (currentPage : Z) :
  let maxPage := DataTable.totalPages (Z.of_nat (length processedRows)) in
  (maxPage ≤ currentPage)%Z →
  DataTable.renderBody processedRows currentPage =
    DataTable.renderBody processedRows maxPage.
Proof.
  intros maxPage Hstale.
  assert (Hpg : DataTable.getPaginatedRows processedRows currentPage =
                DataTable.getPaginatedRows processedRows maxPage).
  { unfold DataTable.getPaginatedRows, DataTable.RECORDS_PER_PAGE.
    destruct (Z.leb_spec (Z.of_nat (length processedRows)) (30 + 5)) as [|Hbig];
      [done|].
    rewrite <-totalPages_paged by lia. fold maxPage.
    by rewrite (Z.min_r currentPage), (Z.min_r maxPage) by lia. }
  assert (Hgap : DataTable.hasGap (Z.of_nat (length processedRows)) currentPage =
                 DataTable.hasGap (Z.of_nat (length processedRows)) maxPage).
  { unfold DataTable.hasGap. fold maxPage.
    destruct (Z.ltb_spec currentPage maxPage); [lia|].
    by destruct (Z.ltb_spec maxPage maxPage); [lia|]. }
  unfold DataTable.renderBody, DataTable.renderRows. by rewrite Hpg, Hgap.
Qed.

(** Sixty-five rows have two pages: page 3 shows what page 2 shows. *)
Lemma stale_page_shows_last_page_witness :
  DataTable.renderBody (seq 0 65) 3 = DataTable.renderBody (seq 0 65) 2.
Proof.
  apply (stale_page_shows_last_page (seq 0 65) 3). vm_compute. discriminate.
Defined.

(** X5. With a current page of at least 1, the number shown beside a row
    is its position (from 1) among the filtered and sorted rows; the
    numbers on screen increase from top to bottom, so no position is shown
    twice; and up to 35 rows are all on screen, in their order. *)
Theorem displayed_number_is_position (processedRows : list nat) (currentPage : Z) :
  (1 ≤ currentPage)%Z →
  let lines := DataTable.renderRows processedRows currentPage in
  let total := Z.of_nat (length processedRows) in
  (∀ n r, DataTable.RowLine n r ∈ lines →
     (1 ≤ n ≤ total)%Z ∧ processedRows !! Z.to_nat (n - 1) = Some r) ∧
  StronglySorted Z.lt (lineNumbers lines) ∧
  ((total ≤ 35)%Z → lineRows lines = processedRows).
Proof.
  intros Hpage lines total.
  destruct (Z.le_gt_cases total 35) as [Hsmall|Hbig].
  - unfold lines. rewrite renderRows_small by done.
    split; [|split].
    + intros n r (i & Hi & ->)%elem_of_numbered.
      pose proof (lookup_lt_Some _ _ _ Hi). split; [unfold total; lia|].
      by replace (Z.to_nat (0 + Z.of_nat i + 1 - 1)) with i by lia.
    + rewrite lineNumbers_numbered. apply StronglySorted_seqZ.
    + intros _. apply lineRows_numbered.
  - destruct (renderRows_paged processedRows currentPage Hpage)
      as (Hrange & _ & _ & Heq); [unfold total in Hbig; lia|].
    fold total in Hrange, Heq. unfold lines. rewrite Heq.
    set (maxPage := DataTable.totalPages total) in *.
    set (page := Z.min currentPage maxPage) in *.
    set (bodyStart := ((page - 1) * 30)%Z) in *.
    set (bodyEnd := Z.min (page * 30) (total - 5)) in *.
    split; [|split; [|lia]].
    + intros n r Hin. rewrite !elem_of_app in Hin.
      destruct Hin as [Hin|[Hin|Hin]].
      * apply elem_of_numbered in Hin as (i & Hi & ->).
        apply lookup_rowsBetween in Hi as [Hi Hlt]; [|lia].
        split; [lia|].
        by replace (bodyStart + Z.of_nat i + 1 - 1)%Z
          with (bodyStart + Z.of_nat i)%Z by lia.
      * case_bool_decide; [|by apply elem_of_nil in Hin].
        by apply list_elem_of_singleton in Hin.
      * apply elem_of_numbered in Hin as (i & Hi & ->).
        apply lookup_rowsBetween in Hi as [Hi Hlt]; [|lia].
        split; [lia|].
        by replace (total - 5 + Z.of_nat i + 1 - 1)%Z
          with (total - 5 + Z.of_nat i)%Z by lia.
    + unfold lineNumbers. rewrite !omap_app.
      fold (lineNumbers (numbered bodyStart (rowsBetween processedRows bodyStart bodyEnd))).
      fold (lineNumbers (numbered (total - 5) (rowsBetween processedRows (total - 5) total))).
      rewrite !lineNumbers_numbered.
      assert (Hmid : omap (λ line, match line with
                                   | DataTable.RowLine n _ => Some n
                                   | _ => None
                                   end)
                       (if bool_decide (currentPage < maxPage)%Z
                        then [DataTable.GapMarker (total - 35)] else []) = []).
      { by case_bool_decide. }
      rewrite Hmid. simpl.
      rewrite !length_rowsBetween by (unfold total in *; lia).
      apply StronglySorted_app_2; [|apply StronglySorted_seqZ..].
      intros x1 x2 Hx1%elem_of_seqZ Hx2%elem_of_seqZ. lia.
Qed.

(** Forty rows, page 1: the last line on screen is row 40. *)
Lemma displayed_number_is_position_witness :
  seq 0 40 !! Z.to_nat (40 - 1) = Some 39%nat.
Proof.
  destruct (displayed_number_is_position (seq 0 40) 1) as (Hpos & _ & _).
  - lia.
  - apply (Hpos 40%Z 39%nat). vm_compute.
    do 35 apply list_elem_of_further. apply list_elem_of_here.
Defined.

Section BodyFacts.
Import DataTable.
Local Open Scope Z_scope.

Lemma lineNumbers_app l1 l2 :
  lineNumbers (l1 ++ l2) = lineNumbers l1 ++ lineNumbers l2.
Proof. apply omap_app. Qed.

Lemma lineRows_app l1 l2 : lineRows (l1 ++ l2) = lineRows l1 ++ lineRows l2.
Proof. apply omap_app. Qed.

Lemma NoMatch_not_renderRows (rows : list nat) currentPage :
  NoMatch ∉ renderRows rows currentPage.
Proof.
  unfold renderRows. intros Hin.
  apply list_elem_of_In, in_concat in Hin as (lines & Hlines & Hin).
  apply list_elem_of_In in Hlines, Hin.
  apply elem_of_lookup_imap in Hlines as (i & r & -> & _).
  unfold renderRow in Hin.
  apply elem_of_app in Hin as [Hin|Hin].
  - destruct (_ && _); [by apply list_elem_of_singleton in Hin|].
    by apply elem_of_nil in Hin.
  - destruct (_ && _); by apply list_elem_of_singleton in Hin.
Qed.

Lemma getPaginatedRows_nil (rows : list nat) currentPage :
  pg_rows (getPaginatedRows rows currentPage) = [] ↔ rows = [].
Proof.
  unfold getPaginatedRows, RECORDS_PER_PAGE.
  destruct (Z.leb_spec (Z.of_nat (length rows)) (30 + 5)) as [|Hbig]; [done|].
  simpl. split.
  - intros [_ Htail]%app_eq_nil. apply (f_equal length) in Htail.
    unfold sliceFrom, slice, relIndex in Htail.
    destruct (Z.ltb_spec (-5) 0); [|lia].
    destruct (Z.ltb_spec (Z.of_nat (length rows)) 0); [lia|].
    rewrite length_take, length_drop in Htail. simpl in Htail. lia.
  - intros ->. simpl in Hbig. lia.
Qed.

Lemma renderBody_nonempty (rows : list nat) currentPage :
  rows ≠ [] → renderBody rows currentPage = renderRows rows currentPage.
Proof.
  intros Hrows. unfold renderBody.
  destruct (pg_rows (getPaginatedRows rows currentPage)) eqn:Hpg; [|done].
  by apply getPaginatedRows_nil in Hpg.
Qed.

End BodyFacts.

(** X6. The table body shows "No data matches your search" exactly when
    there is no row to show, whatever the current page; a table with rows
    never shows it. *)
Theorem no_match_only_without_rows (processedRows : list nat) (currentPage : Z) :
  (processedRows = [] →
     DataTable.renderBody processedRows currentPage = [DataTable.NoMatch]) ∧
  (DataTable.NoMatch ∈ DataTable.renderBody processedRows currentPage →
     processedRows = []).
Proof.
  split.
  - by intros ->.
  - intros Hin. destruct processedRows as [|r rows]; [done|].
    rewrite renderBody_nonempty in Hin by done.
    by apply NoMatch_not_renderRows in Hin.
Qed.

(** No row, current page 7: the only line is the "no match" line. *)
Lemma no_match_only_without_rows_witness :
  DataTable.renderBody [] 7 = [DataTable.NoMatch].
Proof. by apply (no_match_only_without_rows [] 7). Defined.

(** X7. With a current page of at least 1, the "... N more records ..."
    line is shown exactly when there are more than 35 rows and the current
    page is before the last one; it is shown once, 35 rows are then on
    screen, and N is the number of rows that are not: N = total - 35. *)
Theorem gap_marker_counts_hidden_rows (processedRows : list nat) (currentPage : Z) :
  (1 ≤ currentPage)%Z →
  let lines := DataTable.renderBody processedRows currentPage in
  let total := Z.of_nat (length processedRows) in
  (∀ more, DataTable.GapMarker more ∈ lines ↔
     (35 < total)%Z ∧ (currentPage < DataTable.totalPages total)%Z ∧
     more = (total - 35)%Z) ∧
  (∀ more, DataTable.GapMarker more ∈ lines →
     length (lineRows lines) = 35%nat ∧
     more = (total - Z.of_nat (length (lineRows lines)))%Z ∧ (0 < more)%Z ∧
     length lines = 36%nat).
Proof.
  intros Hpage lines total.
  destruct (decide (processedRows = [])) as [->|Hne].
  { split; intros more; [split|].
    - intros Hin. apply list_elem_of_singleton in Hin. done.
    - unfold total. simpl. lia.
    - intros Hin. apply list_elem_of_singleton in Hin. done. }
  unfold lines. rewrite renderBody_nonempty by done.
  destruct (Z.le_gt_cases total 35) as [Hsmall|Hbig].
  { rewrite renderRows_small by done.
    split; intros more; [split|].
    - by intros Hin%GapMarker_not_numbered.
    - lia.
    - by intros Hin%GapMarker_not_numbered. }
  destruct (renderRows_paged processedRows currentPage Hpage)
    as (Hrange & Hgap & Hlast & Heq); [unfold total in Hbig; lia|].
  fold total in Hrange, Hgap, Hlast, Heq. rewrite Heq.
  set (maxPage := DataTable.totalPages total) in *.
  set (page := Z.min currentPage maxPage) in *.
  set (bodyStart := ((page - 1) * 30)%Z) in *.
  set (bodyEnd := Z.min (page * 30) (total - 5)) in *.
  assert (Hmarker : ∀ more,
    DataTable.GapMarker more ∈
      numbered bodyStart (rowsBetween processedRows bodyStart bodyEnd)
      ++ (if bool_decide (currentPage < maxPage)%Z
          then [DataTable.GapMarker (total - 35)] else [])
      ++ numbered (total - 5) (rowsBetween processedRows (total - 5) total) ↔
    (currentPage < maxPage)%Z ∧ more = (total - 35)%Z).
  { intros more. rewrite !elem_of_app. split.
    - intros [Hin|[Hin|Hin]].
      + by apply GapMarker_not_numbered in Hin.
      + case_bool_decide; [|by apply elem_of_nil in Hin].
        apply list_elem_of_singleton in Hin as [= ->]. done.
      + by apply GapMarker_not_numbered in Hin.
    - intros [Hlt ->]. right; left.
      rewrite bool_decide_eq_true_2 by done. apply list_elem_of_here. }
  split; intros more.
  - rewrite Hmarker. split; [intros [? ?]; split; [lia|done]|].
    by intros (_ & ? & ?).
  - intros [Hlt ->]%Hmarker. destruct (Hgap Hlt) as [Hend Hbefore].
    rewrite bool_decide_eq_true_2 by done.
    rewrite !lineRows_app, !lineRows_numbered, !length_app. simpl.
    unfold numbered. rewrite !length_imap.
    rewrite !length_rowsBetween by (unfold total in *; lia).
    lia.
Qed.

(** A hundred rows, page 1: "... 65 more records ...". *)
Lemma gap_marker_counts_hidden_rows_witness :
  DataTable.GapMarker 65 ∈ DataTable.renderBody (seq 0 100) 1.
Proof.
  destruct (gap_marker_counts_hidden_rows (seq 0 100) 1) as [Hiff _]; [lia|].
  apply Hiff. by vm_compute.
Defined.

(** X8. The footer is shown for more than 30 rows and reads
    "from - to records + last 5".  On every page from 1 to the last one the
    numbers beside the rows on screen are exactly [from .. to] followed by
    the last five numbers [total - 4 .. total]; on a current page beyond
    the last one the footer range is empty ([to < from]) although rows are
    shown. *)
Theorem footer_range_matches_rows (processedRows : list nat) (currentPage : Z) :
  let total := Z.of_nat (length processedRows) in
  let '(from, to) := DataTable.footerRange currentPage total in
  (30 < total)%Z → (1 ≤ currentPage)%Z →
  ((currentPage ≤ DataTable.totalPages total)%Z →
     (from ≤ to)%Z ∧
     lineNumbers (DataTable.renderBody processedRows currentPage) =
       seqZ from (to - from + 1) ++ seqZ (total - 4) 5) ∧
  ((DataTable.totalPages total < currentPage)%Z →
     (to < from)%Z ∧
     DataTable.renderBody processedRows currentPage ≠ [DataTable.NoMatch]).
Proof.
  intros total. unfold DataTable.footerRange, DataTable.RECORDS_PER_PAGE.
  intros Hfooter Hpage.
  assert (Hne : processedRows ≠ []) by (intros ->; simpl in *; lia).
  rewrite renderBody_nonempty by done.
  destruct (Z.le_gt_cases total 35) as [Hsmall|Hbig].
  - assert (Hone : DataTable.totalPages total = 1%Z).
    { unfold DataTable.totalPages, DataTable.RECORDS_PER_PAGE.
      pose proof (ceilDiv_bounds (Z.max (total - 5) 0) 30 ltac:(lia)).
      destruct (Z.eqb_spec (DataTable.ceilDiv (Z.max (total - 5) 0) 30) 0); lia. }
    rewrite Hone. rewrite renderRows_small by done. split.
    + intros Hle. assert (currentPage = 1%Z) as -> by lia.
      split; [lia|]. rewrite lineNumbers_numbered. fold total.
      rewrite Z.min_r by lia.
      replace (total - 5 - ((1 - 1) * 30 + 1) + 1)%Z with (total - 5)%Z by lia.
      replace total with ((total - 5) + 5)%Z at 1 by lia.
      rewrite seqZ_app by lia. do 2 f_equal; lia.
    + intros Hgt. split; [lia|].
      destruct processedRows; [done|]. discriminate.
  - destruct (renderRows_paged processedRows currentPage Hpage)
      as (Hrange & Hgap & Hlast & Heq); [unfold total in Hbig; lia|].
    fold total in Hrange, Hgap, Hlast, Heq.
    set (maxPage := DataTable.totalPages total) in *.
    split.
    + intros Hle. rewrite (Z.min_l currentPage maxPage) in Hrange, Hgap, Hlast, Heq
        by done.
      split; [lia|]. rewrite Heq, !lineNumbers_app, !lineNumbers_numbered.
      rewrite !length_rowsBetween by (unfold total in *; lia).
      assert (Hmid : lineNumbers
                (if bool_decide (currentPage < maxPage)%Z
                 then [DataTable.GapMarker (total - 35)] else []) = []).
      { by case_bool_decide. }
      rewrite Hmid. simpl app. f_equal; f_equal; lia.
    + intros Hgt. pose proof (totalPages_paged total ltac:(lia)) as Htp.
      pose proof (ceilDiv_bounds (total - 5) 30 ltac:(lia)) as Hceil.
      rewrite <-Htp in Hceil. fold maxPage in Hceil.
      split; [lia|]. intros Hno.
      apply (NoMatch_not_renderRows processedRows currentPage).
      rewrite Hno. apply list_elem_of_here.
Qed.

(** A hundred rows, page 2: "31 - 60 records + last 5". *)
Lemma footer_range_matches_rows_witness :
  lineNumbers (DataTable.renderBody (seq 0 100) 2) = seqZ 31 30 ++ seqZ 96 5.
Proof.
  pose proof (footer_range_matches_rows (seq 0 100) 2) as H.
  simpl in H. destruct H as [H _]; [lia|lia|].
  destruct H as [_ H]; [by vm_compute|]. exact H.
Defined.

(** ** Structural edits *)

Section EditFacts.
Import JS DataTable.

Lemma rowObjects_fresh (g : Obj → Obj) (h : Heap) (rs : list nat) hs :
  rowObjects (h ++ ((λ r, g (deref h r)) <$> rs))
             (mkTable hs (seq (length h) (length rs))) =
    (λ r, g (deref h r)) <$> rs.
Proof.
  unfold rowObjects. simpl. apply list_eq. intros i.
  rewrite !list_lookup_fmap.
  destruct (rs !! i) as [r|] eqn:Hi.
  - destruct (deref_fresh_row h (λ r, g (deref h r)) rs i r Hi) as [Hseq Hd].
    rewrite Hseq. simpl. by rewrite Hd.
  - apply lookup_ge_None in Hi. rewrite lookup_ge_None_2; [done|].
    by rewrite length_seq.
Qed.

Lemma validRows_fresh (g : nat → Obj) (h : Heap) (rs : list nat) hs :
  validRows (h ++ (g <$> rs)) (mkTable hs (seq (length h) (length rs))).
Proof.
  unfold validRows. simpl. apply Forall_forall. intros r Hr.
  apply elem_of_seq in Hr. rewrite length_app, length_fmap. lia.
Qed.

Lemma handleRemoveColumn_contents (h : Heap) data columnName :
  validRows h data →
  ∃ data' h', handleRemoveColumn data columnName h = (data', h') ∧
    validRows h' data' ∧
    headers data' = filter (λ hd, hd ≠ columnName) (headers data) ∧
    rowObjects h' data' = rest columnName <$> rowObjects h data.
Proof.
  intros Hvalid. eexists _, _. split; [by apply handleRemoveColumn_unfold|].
  split; [apply validRows_fresh|]. split; [done|].
  rewrite rowObjects_fresh. unfold rowObjects. by rewrite <-list_fmap_compose.
Qed.

Lemma rest_rest a b (o : Obj) : rest a (rest b o) = rest b (rest a o).
Proof.
  unfold rest. induction o as [|kv o IH]; [done|].
  rewrite !filter_cons.
  destruct (decide (kv.1 ≠ b)), (decide (kv.1 ≠ a));
    rewrite ?filter_cons; repeat case_decide; try done; by rewrite IH.
Qed.

Lemma rest_idemp a (o : Obj) : rest a (rest a o) = rest a o.
Proof.
  apply rest_absent. rewrite elem_of_keys_rest. by intros [? _].
Qed.

Lemma filter_ne_comm (a b : string) (l : list string) :
  filter (λ hd, hd ≠ a) (filter (λ hd, hd ≠ b) l) =
  filter (λ hd, hd ≠ b) (filter (λ hd, hd ≠ a) l).
Proof.
  induction l as [|x l IH]; [done|].
  rewrite !filter_cons.
  destruct (decide (x ≠ b)), (decide (x ≠ a));
    rewrite ?filter_cons; repeat case_decide; try done; by rewrite IH.
Qed.

Lemma filter_ne_idemp (a : string) (l : list string) :
  filter (λ hd, hd ≠ a) (filter (λ hd, hd ≠ a) l) = filter (λ hd, hd ≠ a) l.
Proof.
  induction l as [|x l IH]; [done|].
  rewrite !filter_cons. destruct (decide (x ≠ a)); [|done].
  rewrite filter_cons. case_decide; [|done]. by rewrite IH.
Qed.

Lemma filter_ne_absent_str (a : string) (l : list string) :
  a ∉ l → filter (λ hd, hd ≠ a) l = l.
Proof.
  intros Ha. induction l as [|x l IH]; [done|].
  apply not_elem_of_cons in Ha as [Hne Ha].
  rewrite filter_cons. case_decide; [|done]. by rewrite IH.
Qed.

Lemma renameKey_back oldName newName k :
  k ≠ newName → renameKey newName oldName (renameKey oldName newName k) = k.
Proof.
  intros Hk. unfold renameKey.
  destruct (String.eqb_spec k oldName) as [->|Hne].
  - by rewrite String.eqb_refl.
  - by destruct (String.eqb_spec k newName).
Qed.

Lemma renameKey_inj oldName newName k1 k2 :
  k1 ≠ newName → k2 ≠ newName →
  renameKey oldName newName k1 = renameKey oldName newName k2 → k1 = k2.
Proof.
  intros H1 H2 Heq.
  by rewrite <-(renameKey_back oldName newName k1),
             <-(renameKey_back oldName newName k2), Heq.
Qed.

Lemma renameKey_same name k : renameKey name name k = k.
Proof. unfold renameKey. by destruct (String.eqb_spec k name). Qed.

Lemma NoDup_renamed_headers oldName newName (hs : list string) :
  newName = oldName ∨ newName ∉ hs →
  NoDup hs → NoDup (renameKey oldName newName <$> hs).
Proof.
  intros [->|Hnew] Hnd.
  - rewrite (list_fmap_ext _ id hs); [by rewrite list_fmap_id|].
    intros i x _. apply renameKey_same.
  - induction Hnd as [|x l Hx Hnd IH]; [constructor|].
    apply not_elem_of_cons in Hnew as [Hne Hnew].
    rewrite fmap_cons. constructor; [|by apply IH].
    intros (y & Heq & Hy)%list_elem_of_fmap.
    apply renameKey_inj in Heq; [by subst| done |].
    intros ->. done.
Qed.

End EditFacts.

(** X9. Removing a column, on a table whose rows are in the store, takes
    every occurrence of the name out of the headers and keeps the other
    headers in their order; it keeps the number of rows, and each new row
    has no property of that name and the other properties of the old row,
    with their values; the old row objects are left as they were. *)
Theorem handleRemoveColumn_removes_column (h : Heap) (data : TableData)
    (columnName : string) :
  validRows h data →
  ∃ data' h',
    DataTable.handleRemoveColumn data columnName h = (data', h') ∧
    (columnName ∉ headers data') ∧
    headers data' `sublist_of` headers data ∧
    (∀ hd, hd ≠ columnName → hd ∈ headers data → hd ∈ headers data') ∧
    length (rows data') = length (rows data) ∧
    (∀ i r, rows data !! i = Some r →
       deref h' r = deref h r ∧
       ∃ r', rows data' !! i = Some r' ∧
         ∀ k, JS.ownProperty k (deref h' r') =
                if decide (k = columnName) then None
                else JS.ownProperty k (deref h r)).
Proof.
  intros Hvalid. eexists _, _.
  split; [by apply handleRemoveColumn_unfold|]. simpl.
  split; [|split; [|split; [|split]]].
  - rewrite list_elem_of_filter. by intros [? _].
  - apply sublist_filter.
  - intros hd Hne Hin. by apply list_elem_of_filter.
  - by rewrite length_seq.
  - intros i r Hi. split.
    + apply deref_app_l. unfold validRows in Hvalid.
      rewrite Forall_forall in Hvalid. apply Hvalid.
      by apply list_elem_of_lookup_2 in Hi.
    + destruct (deref_fresh_row h (λ r, JS.rest columnName (deref h r))
                  (rows data) i r Hi) as [Hseq Hd].
      eexists. split; [exact Hseq|]. intros k.
      rewrite Hd. apply ownProperty_rest.
Qed.

(** The table with headers a, b and the row {a: "1"}: removing a. *)
Lemma handleRemoveColumn_removes_column_witness :
  ∃ data' h',
    DataTable.handleRemoveColumn oneRowTable "a" oneRowStore = (data', h') ∧
    headers data' = ["b"] ∧ rowObjects h' data' = [[]].
Proof.
  destruct (handleRemoveColumn_removes_column oneRowStore oneRowTable "a")
    as (data' & h' & Hrun & _).
  - unfold validRows. simpl. repeat constructor.
  - exists data', h'. split; [exact Hrun|].
    vm_compute in Hrun. by injection Hrun as <- <-.
Defined.

(** X10. Removing a column that is neither a header nor a property of a
    row leaves the contents of the table as they are; removing the same
    column a second time changes nothing more; and two columns can be
    removed in either order, with the same resulting headers and row
    objects. *)
Theorem handleRemoveColumn_absent_repeated_commutes (h : Heap) (data : TableData)
    (a b : string) :
  validRows h data →
  ∃ dataA hA dataAB hAB dataB hB dataBA hBA dataAA hAA,
    DataTable.handleRemoveColumn data a h = (dataA, hA) ∧
    DataTable.handleRemoveColumn dataA b hA = (dataAB, hAB) ∧
    DataTable.handleRemoveColumn data b h = (dataB, hB) ∧
    DataTable.handleRemoveColumn dataB a hB = (dataBA, hBA) ∧
    DataTable.handleRemoveColumn dataA a hA = (dataAA, hAA) ∧
    (headers dataAB = headers dataBA ∧
     rowObjects hAB dataAB = rowObjects hBA dataBA) ∧
    (headers dataAA = headers dataA ∧
     rowObjects hAA dataAA = rowObjects hA dataA) ∧
    ((a ∉ headers data) → Forall (λ r, a ∉ JS.keys (deref h r)) (rows data) →
     headers dataA = headers data ∧ rowObjects hA dataA = rowObjects h data).
Proof.
  intros Hvalid.
  destruct (handleRemoveColumn_contents h data a Hvalid)
    as (dataA & hA & HA & HvA & HhA & HrA).
  destruct (handleRemoveColumn_contents hA dataA b HvA)
    as (dataAB & hAB & HAB & HvAB & HhAB & HrAB).
  destruct (handleRemoveColumn_contents h data b Hvalid)
    as (dataB & hB & HB & HvB & HhB & HrB).
  destruct (handleRemoveColumn_contents hB dataB a HvB)
    as (dataBA & hBA & HBA & HvBA & HhBA & HrBA).
  destruct (handleRemoveColumn_contents hA dataA a HvA)
    as (dataAA & hAA & HAA & HvAA & HhAA & HrAA).
  exists dataA, hA, dataAB, hAB, dataB, hB, dataBA, hBA, dataAA, hAA.
  do 5 (split; [done|]). split; [|split].
  - split.
    + rewrite HhAB, HhBA, HhA, HhB. apply filter_ne_comm.
    + rewrite HrAB, HrBA, HrA, HrB, <-!list_fmap_compose.
      apply list_fmap_ext. intros i o _. simpl. apply rest_rest.
  - split.
    + rewrite HhAA, HhA. apply filter_ne_idemp.
    + rewrite HrAA, HrA, <-!list_fmap_compose.
      apply list_fmap_ext. intros i o _. simpl. apply rest_idemp.
  - intros Ha Hrows. split.
    + rewrite HhA. by apply filter_ne_absent_str.
    + rewrite HrA. unfold rowObjects. rewrite <-list_fmap_compose.
      apply list_fmap_ext. intros i r Hi. simpl. apply rest_absent.
      rewrite Forall_forall in Hrows. apply Hrows.
      by apply list_elem_of_lookup_2 in Hi.
Qed.

(** On the table with headers a, b and the row {a: "1"}: removing a and
    then b gives no header and one empty row. *)
Lemma handleRemoveColumn_absent_repeated_commutes_witness :
  ∃ dataA hA dataAB hAB,
    DataTable.handleRemoveColumn oneRowTable "a" oneRowStore = (dataA, hA) ∧
    DataTable.handleRemoveColumn dataA "b" hA = (dataAB, hAB) ∧
    headers dataAB = [] ∧ rowObjects hAB dataAB = [[]].
Proof.
  destruct (handleRemoveColumn_absent_repeated_commutes
              oneRowStore oneRowTable "a" "b")
    as (dataA & hA & dataAB & hAB & _ & _ & _ & _ & _ & _ & HA & HAB & _).
  - unfold validRows. simpl. repeat constructor.
  - exists dataA, hA, dataAB, hAB. split; [exact HA|]. split; [exact HAB|].
    vm_compute in HA. injection HA as <- <-.
    vm_compute in HAB. by injection HAB as <- <-.
Defined.

Section RenameFacts.
Import JS DataTable.

Lemma truthyStr_true s : truthyStr s = true ↔ s ≠ "".
Proof. unfold truthyStr. destruct (String.eqb_spec s ""); naive_solver. Qed.

Lemma handleRenameHeader_contents (h : Heap) data oldName newName :
  validRows h data →
  trim newName ≠ "" →
  newName = oldName ∨ newName ∉ headers data →
  ∃ data' h',
    handleRenameHeader data oldName newName h = (RenameApplied data', h') ∧
    validRows h' data' ∧
    headers data' = renameKey oldName newName <$> headers data ∧
    rowObjects h' data' = renameRow oldName newName <$> rowObjects h data.
Proof.
  intros Hvalid Htrim%truthyStr_true Hnew. eexists _, _.
  split; [by apply handleRenameHeader_unfold|].
  split; [apply validRows_fresh|]. split; [done|].
  rewrite rowObjects_fresh. unfold rowObjects. by rewrite <-list_fmap_compose.
Qed.

Lemma handleRenameHeader_applied (h : Heap) data oldName newName data' h' :
  handleRenameHeader data oldName newName h = (RenameApplied data', h') →
  trim newName ≠ "" ∧ (newName = oldName ∨ newName ∉ headers data).
Proof.
  unfold handleRenameHeader.
  destruct (truthyStr (trim newName)) eqn:Htrim; [|done]. simpl.
  apply truthyStr_true in Htrim. split; [done|].
  destruct (String.eqb_spec newName oldName) as [|Hne]; [by left|].
  destruct (bool_decide (newName ∈ headers data)) eqn:Hin; [done|].
  right. by apply bool_decide_eq_false in Hin.
Qed.

Lemma old_not_renamed oldName newName (l : list string) :
  oldName ≠ newName → oldName ∉ renameKey oldName newName <$> l.
Proof.
  intros Hne (k0 & Heq & _)%list_elem_of_fmap. unfold renameKey in Heq.
  destruct (String.eqb_spec k0 oldName); congruence.
Qed.

Lemma renameRow_back oldName newName (o : Obj) :
  wfObj o → newName ≠ "__proto__" →
  newName = oldName ∨ newName ∉ keys o →
  sameProperties (renameRow newName oldName (renameRow oldName newName o)) o.
Proof.
  intros Hwf Hproto Hnew k.
  assert (Hold : oldName = newName ∨
                 oldName ∉ keys (renameRow oldName newName o)).
  { destruct (decide (oldName = newName)) as [|Hne]; [by left|]. right.
    intros (k0 & _ & Heq)%keys_renameRow. unfold renameKey in Heq.
    destruct (String.eqb_spec k0 oldName); congruence. }
  assert (Hplain : oldName ≠ "__proto__" ∨
                   newName ∉ keys (renameRow oldName newName o)).
  { destruct (decide (oldName = "__proto__")) as [Heq|]; [|by left]. right.
    intros (k0 & Hk0 & Hk)%keys_renameRow. unfold renameKey in Hk.
    destruct Hwf as [_ Hown].
    destruct (String.eqb_spec k0 oldName) as [Hk0old|_].
    - apply Hown. by rewrite <-Heq, <-Hk0old.
    - destruct Hnew as [Hnew|Hnew]; [congruence|]. apply Hnew. by rewrite Hk. }
  rewrite ownProperty_renameRow by (done || apply wfObj_renameRow).
  rewrite !ownProperty_renameRow by (done || by left).
  repeat case_decide; subst; try done.
  symmetry. apply ownProperty_None_keys. by destruct Hnew.
Qed.

Lemma renamed_headers_back oldName newName (hs : list string) :
  newName = oldName ∨ newName ∉ hs →
  renameKey newName oldName <$> (renameKey oldName newName <$> hs) = hs.
Proof.
  intros Hnew. rewrite <-list_fmap_compose.
  rewrite (list_fmap_ext _ id hs); [by rewrite list_fmap_id|].
  intros i x Hi. simpl. destruct Hnew as [->|Hnew].
  - by rewrite !renameKey_same.
  - apply renameKey_back. intros ->. by apply list_elem_of_lookup_2 in Hi.
Qed.

End RenameFacts.

(** X11. Renaming a column and renaming it back gives the first table
    again: on a table that satisfies the key-subset invariant, with rows in
    the store, when the new name is not yet a header, is not ["__proto__"]
    (under which no property is created) and neither name is blank, both
    renames go through, the headers are the original ones and every row
    has the original properties with the original values. *)
Theorem rename_and_back_restores_table (h : Heap) (data : TableData)
    (oldName newName : string) :
  validRows h data → wfHeap h → rowKeysWithinHeaders h data →
  JS.trim oldName ≠ "" → JS.trim newName ≠ "" →
  newName = oldName ∨ newName ∉ headers data →
  newName ≠ "__proto__" →
  ∃ data1 h1 data2 h2,
    DataTable.handleRenameHeader data oldName newName h =
      (DataTable.RenameApplied data1, h1) ∧
    DataTable.handleRenameHeader data1 newName oldName h1 =
      (DataTable.RenameApplied data2, h2) ∧
    sameContents h2 data2 h data.
Proof.
  intros Hvalid Hwf Hinv Hold Htrim Hnew Hproto.
  destruct (handleRenameHeader_contents h data oldName newName Hvalid Htrim Hnew)
    as (data1 & h1 & Hrun1 & Hvalid1 & Hhs1 & Hrows1).
  assert (Hback : oldName = newName ∨ oldName ∉ headers data1).
  { destruct (decide (oldName = newName)) as [|Hne]; [by left|]. right.
    rewrite Hhs1. by apply old_not_renamed. }
  destruct (handleRenameHeader_contents h1 data1 newName oldName Hvalid1 Hold Hback)
    as (data2 & h2 & Hrun2 & Hvalid2 & Hhs2 & Hrows2).
  exists data1, h1, data2, h2. split; [done|]. split; [done|]. split.
  - rewrite Hhs2, Hhs1. by apply renamed_headers_back.
  - rewrite Hrows2, Hrows1, <-list_fmap_compose. unfold rowObjects.
    rewrite <-list_fmap_compose. apply Forall2_fmap, Forall_Forall2_diag.
    unfold rowKeysWithinHeaders in Hinv.
    rewrite Forall_forall in Hinv. apply Forall_forall. intros r Hr. simpl.
    apply renameRow_back; [by apply wfObj_deref|done|].
    destruct Hnew as [|Hnew]; [by left|]. right.
    intros Hk. by apply Hnew, (Hinv r Hr).
Qed.

(** The table with headers a, b and the row {a: "1"}: a to c and back. *)
Lemma rename_and_back_restores_table_witness :
  ∃ data1 h1 data2 h2,
    DataTable.handleRenameHeader oneRowTable "a" "c" oneRowStore =
      (DataTable.RenameApplied data1, h1) ∧
    DataTable.handleRenameHeader data1 "c" "a" h1 =
      (DataTable.RenameApplied data2, h2) ∧
    headers data2 = ["a"; "b"].
Proof.
  destruct (rename_and_back_restores_table oneRowStore oneRowTable "a" "c")
    as (data1 & h1 & data2 & h2 & H1 & H2 & Hhs & _).
  - unfold validRows. simpl. repeat constructor.
  - unfold wfHeap, oneRowStore. apply Forall_singleton.
    split; [apply NoDup_singleton|].
    by intros [=]%list_elem_of_singleton.
  - unfold rowKeysWithinHeaders. simpl. apply Forall_singleton.
    change (["a"] ⊆ ["a"; "b"]).
    intros k ->%list_elem_of_singleton. apply list_elem_of_here.
  - by vm_compute.
  - by vm_compute.
  - right. simpl. rewrite !not_elem_of_cons.
    split; [done|]. split; [done|]. apply not_elem_of_nil.
  - done.
  - by exists data1, h1, data2, h2.
Defined.

(** X12. A table whose headers are pairwise different keeps that under
    every edit: removing a column, removing a row, and a rename that goes
    through (the duplicate-name check is what guarantees it). *)
Theorem edits_keep_headers_unique (h : Heap) (data : TableData) :
  validRows h data → NoDup (headers data) →
  (∀ columnName,
     NoDup (headers (DataTable.handleRemoveColumn data columnName h).1)) ∧
  (∀ rowRef, NoDup (headers (DataTable.handleRemoveRowByRef data rowRef))) ∧
  (∀ oldName newName data' h',
     DataTable.handleRenameHeader data oldName newName h =
       (DataTable.RenameApplied data', h') →
     NoDup (headers data')).
Proof.
  intros Hvalid Hnd. split; [|split].
  - intros columnName. rewrite handleRemoveColumn_unfold by done. simpl.
    by apply NoDup_filter.
  - done.
  - intros oldName newName data' h' Hrun.
    destruct (handleRenameHeader_applied _ _ _ _ _ _ Hrun) as [Htrim Hnew].
    destruct (handleRenameHeader_contents h data oldName newName Hvalid Htrim Hnew)
      as (data1 & h1 & Hrun1 & _ & Hhs & _).
    rewrite Hrun1 in Hrun. injection Hrun as <- <-.
    rewrite Hhs. by apply NoDup_renamed_headers.
Qed.

(** The table with headers a, b: after removing a. *)
Lemma edits_keep_headers_unique_witness :
  NoDup (headers (DataTable.handleRemoveColumn oneRowTable "a" oneRowStore).1).
Proof.
  destruct (edits_keep_headers_unique oneRowStore oneRowTable) as [H _].
  - unfold validRows. simpl. repeat constructor.
  - simpl. apply NoDup_cons. split; [|apply NoDup_singleton].
    by intros [=]%list_elem_of_singleton.
  - apply H.
Defined.

(** X13. Removing a row by reference leaves the headers as
    they are, removes every occurrence of the reference and nothing else,
    keeps the other rows in their order, and keeps row references pairwise
    different; removing a reference that is not a row of the table, or
    removing the same reference again, changes nothing, and two rows can be
    removed in either order. *)
Theorem handleRemoveRowByRef_removes_only_that_row (data : TableData)
    (rowRef other : nat) :
  let data' := DataTable.handleRemoveRowByRef data rowRef in
  headers data' = headers data ∧
  (rowRef ∉ rows data') ∧
  (∀ r, r ≠ rowRef → r ∈ rows data' ↔ r ∈ rows data) ∧
  rows data' `sublist_of` rows data ∧
  (NoDup (rows data) → NoDup (rows data')) ∧
  (NoDup (rows data) → rowRef ∈ rows data →
     S (length (rows data')) = length (rows data)) ∧
  (rowRef ∉ rows data → data' = data) ∧
  DataTable.handleRemoveRowByRef data' rowRef = data' ∧
  DataTable.handleRemoveRowByRef data' other =
    DataTable.handleRemoveRowByRef
      (DataTable.handleRemoveRowByRef data other) rowRef.
Proof.
  intros data'. unfold data', DataTable.handleRemoveRowByRef. simpl.
  split; [done|]. split; [|split; [|split; [|split; [|split; [|split; [|split]]]]]].
  - rewrite list_elem_of_filter. by intros [? _].
  - intros r Hne. rewrite list_elem_of_filter. split; [by intros [_ ?]|done].
  - apply sublist_filter.
  - apply NoDup_filter.
  - intros Hnd (i & Hi)%list_elem_of_lookup_1.
    rewrite (filter_ne_delete _ i) by done. rewrite length_delete; [|by eexists].
    apply lookup_lt_Some in Hi. lia.
  - intros Hnot. rewrite filter_ne_absent by done. by destruct data.
  - f_equal. apply filter_ne_absent. rewrite list_elem_of_filter. by intros [? _].
  - f_equal. rewrite !list_filter_filter. apply list_filter_iff.
    intros r. split; intros [? ?]; done.
Qed.

(** ** Searching and sorting *)

Section SearchFacts.
Import JS DataTable.

Lemma append_cons c (a b : string) : String c a +:+ b = String c (a +:+ b).
Proof. done. Qed.

Lemma append_nil (b : string) : "" +:+ b = b.
Proof. done. Qed.

Lemma prefix_append t s :
  String.prefix t s = true ↔ ∃ post, s = t +:+ post.
Proof.
  revert s. induction t as [|a t IH]; intros s.
  - split; [intros _; by exists s|by destruct s].
  - destruct s as [|b s]; simpl.
    + split; [done|by intros [post [=]]].
    + destruct (ascii_dec a b) as [->|Hne].
      * rewrite IH. split; intros [post Hpost]; exists post;
          rewrite append_cons in *; congruence.
      * split; [done|]. intros [post Hpost]. rewrite append_cons in Hpost.
        injection Hpost as ? _. by destruct Hne.
Qed.

Lemma includes_append s t :
  includes s t = true ↔ ∃ pre post, s = pre +:+ t +:+ post.
Proof.
  induction s as [|c s IH]; cbn [includes]; rewrite orb_true_iff.
  - split.
    + intros [Hp|[=]]. apply prefix_append in Hp as [post ->]. by exists "", post.
    + intros (pre & post & Heq). left. apply prefix_append.
      destruct pre; [by exists post|done].
  - rewrite IH. split.
    + intros [Hp|(pre & post & ->)].
      * apply prefix_append in Hp as [post ->]. by exists "", post.
      * by exists (String c pre), post.
    + intros (pre & post & Heq). destruct pre as [|c' pre].
      * left. apply prefix_append. by exists post.
      * right. exists pre, post. rewrite append_cons in Heq. congruence.
Qed.

Lemma append_assoc (a b c : string) : (a +:+ b) +:+ c = a +:+ (b +:+ c).
Proof.
  induction a as [|x a IH]; [done|]. by rewrite !append_cons, IH.
Qed.

Lemma includes_trans s t u :
  includes s t = true → includes t u = true → includes s u = true.
Proof.
  rewrite !includes_append.
  intros (pre & post & ->) (pre' & post' & ->).
  exists (pre +:+ pre'), (post' +:+ post). by rewrite !append_assoc.
Qed.

Lemma lowerChar_idemp c : lowerChar (lowerChar c) = lowerChar c.
Proof. by destruct c as [[] [] [] [] [] [] [] []]. Qed.

Lemma toLowerCase_idemp s : toLowerCase (toLowerCase s) = toLowerCase s.
Proof.
  induction s as [|c s IH]; [done|]. simpl. by rewrite lowerChar_idemp, IH.
Qed.

Lemma truthyStr_toLowerCase s : truthyStr (toLowerCase s) = truthyStr s.
Proof. by destruct s. Qed.

Lemma filter_sublist_impl (P Q : nat → Prop)
    `{!∀ x, Decision (P x)} `{!∀ x, Decision (Q x)} (l : list nat) :
  (∀ x, P x → Q x) → filter P l `sublist_of` filter Q l.
Proof.
  intros Himpl.
  rewrite (list_filter_iff P (λ x, P x ∧ Q x)) by (intros x; split; [auto|by intros [? _]]).
  rewrite <-list_filter_filter. apply sublist_filter.
Qed.



End SearchFacts.

(** X14. The rows found by a search are rows of the table, in the order
    of the table; an empty search term finds them all; sorting rearranges
    the rows found and neither adds nor loses one. *)
Theorem search_keeps_rows_and_order (h : Heap) (data : TableData)
    (searchTerm : string) (cfg : DataTable.SortConfig) :
  let found := DataTable.getProcessedRows h data searchTerm None in
  let sorted := DataTable.getProcessedRows h data searchTerm (Some cfg) in
  found `sublist_of` rows data ∧
  DataTable.getProcessedRows h data "" None = rows data ∧
  sorted ≡ₚ found ∧
  (length sorted ≤ length (rows data))%nat.
Proof.
  intros found sorted.
  assert (Hsub : found `sublist_of` rows data).
  { unfold found, DataTable.getProcessedRows.
    destruct (JS.truthyStr searchTerm); [apply sublist_filter|done]. }
  assert (Hperm : sorted ≡ₚ found).
  { unfold sorted. rewrite getProcessedRows_sorted. apply sort_Permutation. }
  split; [done|]. split; [done|]. split; [done|].
  rewrite Hperm. by apply sublist_length.
Qed.

(** X15. The search does not depend on the case of the term: two terms
    with the same lower-case form find the same rows, in the same order,
    under every sort configuration; in particular a term and its
    lower-case form do. *)
Theorem search_ignores_case_of_term (h : Heap) (data : TableData)
    (term1 term2 : string) (sortConfig : option DataTable.SortConfig) :
  JS.toLowerCase term1 = JS.toLowerCase term2 →
  DataTable.getProcessedRows h data term1 sortConfig =
    DataTable.getProcessedRows h data term2 sortConfig ∧
  DataTable.getProcessedRows h data (JS.toLowerCase term1) sortConfig =
    DataTable.getProcessedRows h data term1 sortConfig.
Proof.
  intros Hlower.
  assert (Hsame : ∀ t1 t2, JS.toLowerCase t1 = JS.toLowerCase t2 →
    DataTable.getProcessedRows h data t1 sortConfig =
    DataTable.getProcessedRows h data t2 sortConfig).
  { intros t1 t2 Heq. unfold DataTable.getProcessedRows.
    rewrite <-(truthyStr_toLowerCase t1), <-(truthyStr_toLowerCase t2).
    by rewrite Heq. }
  split; [by apply Hsame|]. apply Hsame, toLowerCase_idemp.
Qed.

(** Searching "NU" and "nu" in the table with a null cell. *)
Lemma search_ignores_case_of_term_witness :
  DataTable.getProcessedRows nullRowsStore nullRowsTable "NU" None =
    DataTable.getProcessedRows nullRowsStore nullRowsTable "nu" None.
Proof.
  by apply (search_ignores_case_of_term nullRowsStore nullRowsTable "NU" "nu").
Defined.

(** X16. Extending the search term narrows the result: when the
    lower-case form of a term contains the lower-case form of another,
    every row found for the first is found for the second as well, and the
    rows found for the first appear in the same order. *)
Theorem longer_search_term_finds_fewer_rows (h : Heap) (data : TableData)
    (term longer : string) :
  JS.includes (JS.toLowerCase longer) (JS.toLowerCase term) = true →
  DataTable.getProcessedRows h data longer None
    `sublist_of` DataTable.getProcessedRows h data term None.
Proof.
  intros Hinc. unfold DataTable.getProcessedRows.
  destruct (JS.truthyStr term) eqn:Hterm.
  - assert (Hlong : JS.truthyStr longer = true).
    { apply truthyStr_true. apply truthyStr_true in Hterm.
      intros ->. destruct term; [done|discriminate Hinc]. }
    rewrite Hlong. apply filter_sublist_impl.
    intros r Hr%Is_true_true. apply Is_true_true.
    apply rowMatches_iff in Hr as (k & v & Hkv & Hfound).
    apply rowMatches_iff. exists k, v. split; [done|].
    by apply (includes_trans _ _ _ Hfound).
  - destruct (JS.truthyStr longer); [apply sublist_filter|done].
Qed.

(** The rows found for "NUL" are among the rows found for "u". *)
Lemma longer_search_term_finds_fewer_rows_witness :
  DataTable.getProcessedRows nullRowsStore nullRowsTable "NUL" None
    `sublist_of` DataTable.getProcessedRows nullRowsStore nullRowsTable "u" None.
Proof.
  by apply (longer_search_term_finds_fewer_rows nullRowsStore nullRowsTable
              "u" "NUL").
Defined.

Section SortedAlready.
Import JS DataTable.





End SortedAlready.



(** ** The parsers *)

Section TrimFacts.
Import JS.

Lemma trimEnd_cons c s :
  trimEnd (String c s) =
    match trimEnd s with
    | EmptyString => if isWhiteSpace c then EmptyString else String c EmptyString
    | t => String c t
    end.
Proof. done. Qed.

Lemma trimEnd_idemp s : trimEnd (trimEnd s) = trimEnd s.
Proof.
  induction s as [|c s IH]; [done|]. rewrite (trimEnd_cons c s).
  destruct (trimEnd s) as [|c' t] eqn:E.
  - destruct (isWhiteSpace c) eqn:Hc; [done|].
    rewrite trimEnd_cons. simpl. by rewrite Hc.
  - by rewrite trimEnd_cons, IH.
Qed.

Lemma trimStart_clean s :
  trimStart s = "" ∨ ∃ c t, trimStart s = String c t ∧ isWhiteSpace c = false.
Proof.
  induction s as [|c s IH]; [by left|]. simpl.
  destruct (isWhiteSpace c) eqn:Hc; [done|]. right. by exists c, s.
Qed.

Lemma trimEnd_clean c t :
  isWhiteSpace c = false → ∃ t', trimEnd (String c t) = String c t'.
Proof.
  intros Hc. rewrite trimEnd_cons, Hc. destruct (trimEnd t); by eexists.
Qed.

Lemma trimStart_trim s : trimStart (trim s) = trim s.
Proof.
  unfold trim. destruct (trimStart_clean s) as [->|(c & t & -> & Hc)]; [done|].
  destruct (trimEnd_clean c t Hc) as [t' ->]. simpl. by rewrite Hc.
Qed.

Lemma trim_idemp s : trim (trim s) = trim s.
Proof.
  unfold trim at 1. rewrite trimStart_trim. unfold trim. apply trimEnd_idemp.
Qed.

End TrimFacts.

Section ParsedValues.
Import JS FileUpload.

Variable Q : value → Prop.

Lemma Forall_values_update k v o :
  Q v → Forall Q (values o) → Forall Q (values (update k v o)).
Proof.
  intros Hv. unfold values. induction o as [|[k' v'] o IH]; [done|].
  rewrite fmap_cons. intros [Hv' Ho]%Forall_cons. simpl.
  destruct (String.eqb k k'); rewrite fmap_cons; apply Forall_cons; auto.
Qed.

Lemma Forall_values_insertIndex n k v o :
  Q v → Forall Q (values o) → Forall Q (values (insertIndex n k v o)).
Proof.
  intros Hv. unfold values. induction o as [|[k' v'] o IH].
  - intros _. simpl. by apply Forall_singleton.
  - intros Ho. pose proof Ho as Hall.
    rewrite fmap_cons in Ho. apply Forall_cons in Ho as [Hv' Ho]. simpl.
    destruct (arrayIndex k') as [n'|].
    + destruct (n <? n')%N; rewrite fmap_cons; apply Forall_cons; auto.
    + rewrite fmap_cons. apply Forall_cons; auto.
Qed.

Lemma Forall_values_set k v o :
  Q v → Forall Q (values o) → Forall Q (values (set k v o)).
Proof.
  intros Hv Ho. unfold set. destruct (_ && _); [done|].
  unfold defineOwn. destruct (ownProperty k o).
  - by apply Forall_values_update.
  - destruct (arrayIndex k).
    + by apply Forall_values_insertIndex.
    + unfold values. rewrite fmap_app. apply Forall_app. split; [done|].
      by apply Forall_singleton.
Qed.

Lemma ownProperty_Some_values k o v :
  Forall Q (values o) → ownProperty k o = Some v → Q v.
Proof.
  unfold values. induction o as [|[k' v'] o IH]; [done|].
  rewrite fmap_cons. intros [Hv' Ho]%Forall_cons. simpl.
  destruct (String.eqb k k'); [by intros [= <-]|by apply IH].
Qed.

End ParsedValues.

Section ParserShape.
Import JS FileUpload.

Lemma values_zipRow hs vals :
  Forall (λ v, ∃ s, v = VString s ∧ (s = "" ∨ s ∈ vals)) (values (zipRow hs vals)).
Proof.
  induction hs as [|hd hs IH] using rev_ind; [constructor|].
  rewrite zipRow_snoc. apply Forall_values_set; [|done].
  eexists. split; [done|].
  destruct (vals !! length hs) as [s|] eqn:E; simpl; [|by left].
  destruct (truthyStr s); [|by left]. right. by eapply list_elem_of_lookup_2.
Qed.

Lemma rowObjects_alloc (h new : Heap) hs :
  rowObjects (h ++ new) (mkTable hs (seq (length h) (length new))) = new.
Proof.
  unfold rowObjects. simpl. apply list_eq. intros i.
  rewrite list_lookup_fmap.
  destruct (new !! i) as [o|] eqn:Hi.
  - rewrite lookup_seq_lt by by eapply lookup_lt_Some. simpl.
    rewrite deref_app_r. unfold deref. by rewrite Hi.
  - apply lookup_ge_None in Hi. by rewrite lookup_seq_ge.
Qed.

Lemma values_extractRow sheet range hs row :
  Forall (λ v, ∃ s, v = VString s) (values (extractRow sheet range hs row).1).
Proof.
  unfold extractRow.
  enough (Hgen : ∀ cols (acc : Obj * bool),
    Forall (λ v, ∃ s, v = VString s) (values acc.1) →
    Forall (λ v, ∃ s, v = VString s)
      (values (foldl (λ acc col,
                 let value := cellText sheet row col in
                 (set (headerKey hs col) (VString value) acc.1,
                  if truthyStr value then true else acc.2)) acc cols).1)).
  { apply Hgen. constructor. }
  induction cols as [|col cols IH]; intros acc Hacc; simpl; [done|].
  apply IH. simpl. apply Forall_values_set; [by eexists|done].
Qed.

Lemma column_name_nonempty (n : nat) : "Column " +:+ pretty n ≠ "".
Proof. done. Qed.

Lemma headers_nonempty sheet range headerRowIndex :
  Forall (λ hd, hd ≠ "") (extractHeaders sheet range headerRowIndex).
Proof.
  unfold extractHeaders. apply Forall_fmap, Forall_forall. intros col _. simpl.
  destruct (truthyStr (cellText sheet headerRowIndex col)) eqn:E.
  - by apply truthyStr_true.
  - done.
Qed.

(** What [parseSheet] returns: a table exactly when the range has a
    column. *)
Lemma parseSheet_result sheet (h : Heap) :
  let range := rangeOf sheet in
  ∃ headerRowIndex new rows,
    let hs := extractHeaders sheet range headerRowIndex in
    parseSheet sheet h =
      (if (length hs =? 0)%nat then Throw "No data found in Excel file"
       else Ok (mkTable hs rows), h ++ new) ∧
    rows = seq (length h) (length new) ∧
    length hs = (S (e_c range) - s_c range)%nat ∧
    Forall (λ o, ∃ row, o = (extractRow sheet range hs row).1) new.
Proof.
  intros range. unfold parseSheet. fold range.
  destruct (findHeaderRow sheet range) as [headerRowIndex dataStart].
  set (hs := extractHeaders sheet range headerRowIndex).
  rewrite bind_run.
  destruct (extractRows_alloc sheet range hs
              (seq dataStart (S (e_r range) - dataStart)) h) as (new & -> & Hall).
  exists headerRowIndex, new, (seq (length h) (length new)). fold hs.
  split; [by destruct (length hs =? 0)%nat|]. split; [done|]. split; [|done].
  unfold hs, extractHeaders, colsOf. by rewrite length_fmap, length_seq.
Qed.

End ParserShape.

(** X18. Whatever the text, [parseCSV] returns a table with at least one
    header and one row per line after the first; headers and cell values
    are strings without surrounding white space; the keys of every row are
    exactly the headers other than ["__proto__"] (under which no property
    is created), each once; the rows are new, pairwise different objects
    put after the objects already in the store, which stay as they are. *)
Theorem parseCSV_shape (text : string) (h : Heap) :
  ∃ data h',
    FileUpload.parseCSV text h = (Ok data, h') ∧
    headers data ≠ [] ∧
    Forall (λ hd, JS.trim hd = hd) (headers data) ∧
    S (length (rows data)) = length (JS.split JS.LF (JS.trim text)) ∧
    h' = h ++ rowObjects h' data ∧
    NoDup (rows data) ∧
    Forall (λ r, (length h ≤ r)%nat) (rows data) ∧
    Forall (λ o, (∀ k, k ∈ JS.keys o ↔ k ∈ headers data ∧ k ≠ "__proto__") ∧
                 NoDup (JS.keys o) ∧
                 Forall (λ v, ∃ s, v = JS.VString s ∧ JS.trim s = s) (JS.values o))
           (rowObjects h' data).
Proof.
  destruct (split_nonempty JS.LF (JS.trim text)) as (line0 & lines1 & Hsplit).
  set (hs := JS.trim <$> JS.split JS.comma line0).
  set (new := (λ line, FileUpload.zipRow hs (JS.trim <$> JS.split JS.comma line))
              <$> lines1).
  assert (Hlen : length lines1 = length new) by (unfold new; by rewrite length_fmap).
  exists (mkTable hs (seq (length h) (length new))), (h ++ new).
  split.
  { rewrite (parseCSV_unfold text h line0 lines1 Hsplit). simpl.
    fold hs. fold new. by rewrite Hlen. }
  rewrite rowObjects_alloc. simpl. rewrite Hsplit.
  split; [|split; [|split; [|split; [|split; [|split]]]]].
  - unfold hs. destruct (split_nonempty JS.comma line0) as (x & xs & ->). done.
  - apply Forall_fmap, Forall_forall. intros x _. apply trim_idemp.
  - rewrite length_seq. simpl. by rewrite Hlen.
  - done.
  - apply NoDup_seq.
  - apply Forall_forall. intros r Hr%elem_of_seq. lia.
  - apply Forall_fmap, Forall_forall. intros line _. simpl.
    split; [|split].
    + intros k. apply keys_zipRow.
    + apply NoDup_keys_zipRow.
    + eapply Forall_impl; [apply values_zipRow|].
      intros v (s & -> & Hs). exists s. split; [done|].
      destruct Hs as [->|(y & -> & _)%list_elem_of_fmap]; [done|].
      apply trim_idemp.
Qed.

(** X19. The spreadsheet path returns a table exactly when the bounding
    range of the sheet has a column, and fails with "No data found in
    Excel file" otherwise.  The table has one header per column of the
    range, none of them empty, and every cell value of its rows is a
    string.  A sheet without any cell still gives a table: the headers
    "Column 1", "Column 2", ... and no row. *)
Theorem parseSheet_table_or_no_data (sheet : FileUpload.Sheet) (h : Heap) :
  let range := FileUpload.rangeOf sheet in
  ((FileUpload.s_c range ≤ FileUpload.e_c range)%nat →
     ∃ data h', FileUpload.parseSheet sheet h = (Ok data, h') ∧
       length (headers data) =
         S (FileUpload.e_c range - FileUpload.s_c range) ∧
       Forall (λ hd, hd ≠ "") (headers data) ∧
       Forall (λ o, Forall (λ v, ∃ s, v = JS.VString s) (JS.values o))
              (rowObjects h' data)) ∧
  ((FileUpload.e_c range < FileUpload.s_c range)%nat →
     ∃ h', FileUpload.parseSheet sheet h =
             (Throw "No data found in Excel file", h')) ∧
  (FileUpload.sheet_cells sheet = ∅ →
     (FileUpload.s_c range ≤ FileUpload.e_c range)%nat →
     FileUpload.parseSheet sheet h =
       (Ok (mkTable ((λ col, "Column " +:+ pretty (col + 1)%nat)
                       <$> FileUpload.colsOf range) []), h)).
Proof.
  intros range.
  destruct (parseSheet_result sheet h)
    as (headerRowIndex & new & rs & Hrun & -> & Hlen & Hnew).
  fold range in Hrun, Hlen, Hnew. split; [|split].
  - intros Hcols. rewrite Hrun.
    destruct (Nat.eqb_spec
      (length (FileUpload.extractHeaders sheet range headerRowIndex)) 0) as [H0|_];
      [lia|].
    eexists _, _. split; [done|]. simpl. split; [lia|].
    split; [apply headers_nonempty|].
    rewrite rowObjects_alloc. eapply Forall_impl; [exact Hnew|].
    intros o [row ->]. apply values_extractRow.
  - intros Hcols. rewrite Hrun.
    destruct (Nat.eqb_spec
      (length (FileUpload.extractHeaders sheet range headerRowIndex)) 0) as [_|H0];
      [by eexists|lia].
  - intros Hempty Hcols.
    assert (Htext : ∀ row col, FileUpload.cellText sheet row col = "").
    { intros row col. unfold FileUpload.cellText. by rewrite Hempty, lookup_empty. }
    assert (Hdata : ∀ row col, FileUpload.cellHasData sheet row col = false).
    { intros row col. unfold FileUpload.cellHasData.
      by rewrite Hempty, lookup_empty. }
    assert (Hheaders : ∀ i, FileUpload.extractHeaders sheet range i =
      (λ col, "Column " +:+ pretty (col + 1)%nat) <$> FileUpload.colsOf range).
    { intros i. unfold FileUpload.extractHeaders.
      apply list_fmap_ext. intros j col _. simpl. by rewrite Htext. }
    assert (Hrow : ∀ hs row, (FileUpload.extractRow sheet range hs row).2 = false).
    { intros hs row. unfold FileUpload.extractRow.
      enough (Hgen : ∀ cols (acc : JS.Obj * bool), acc.2 = false →
        (foldl (λ acc col,
            let value := FileUpload.cellText sheet row col in
            (JS.set (FileUpload.headerKey hs col) (JS.VString value) acc.1,
             if JS.truthyStr value then true else acc.2)) acc cols).2 = false)
        by by apply Hgen.
      induction cols as [|col cols IH]; intros acc Hacc; simpl; [done|].
      apply IH. simpl. by rewrite Htext. }
    assert (Hrows : ∀ hs idxs,
      FileUpload.extractRows sheet range hs idxs h = ([], h)).
    { intros hs idxs. induction idxs as [|row idxs IH]; [done|]. simpl.
      specialize (Hrow hs row).
      destruct (FileUpload.extractRow sheet range hs row) as [o b].
      simpl in Hrow. by rewrite Hrow. }
    unfold FileUpload.parseSheet. fold range.
    destruct (FileUpload.findHeaderRow sheet range) as [i dataStart].
    rewrite bind_run, Hrows, Hheaders.
    rewrite length_fmap. unfold FileUpload.colsOf at 1. rewrite length_seq.
    destruct (Nat.eqb_spec (S (FileUpload.e_c range) - FileUpload.s_c range) 0);
      [lia|done].
Qed.

(** The sheet B1:C2 has two columns: two headers. *)
Lemma parseSheet_table_or_no_data_witness :
  ∃ data h', FileUpload.parseSheet sheet_B1_C2 [] = (Ok data, h') ∧
    length (headers data) = 2%nat.
Proof.
  destruct (parseSheet_table_or_no_data sheet_B1_C2 []) as [H _].
  destruct H as (data & h' & Hrun & Hlen & _); [simpl; lia|].
  by exists data, h'.
Defined.

Section ParsedRows.
Import JS FileUpload.

(** The rows of a parsed text: the object of the row at position [n] is
    the zip of the headers with the fields of line [n]. *)
Lemma parseCSV_rows text (h : Heap) :
  ∃ line0 lines1 data h',
    split LF (trim text) = line0 :: lines1 ∧
    parseCSV text h = (Ok data, h') ∧
    headers data = trim <$> split comma line0 ∧
    (∀ n line, lines1 !! n = Some line →
       ∃ r, rows data !! n = Some r ∧
         deref h' r = zipRow (headers data) (trim <$> split comma line)) ∧
    (∀ r, r ∈ rows data →
       ∃ line, deref h' r = zipRow (headers data) (trim <$> split comma line)).
Proof.
  destruct (split_nonempty LF (trim text)) as (line0 & lines1 & Hs).
  eexists line0, lines1, _, _. split; [done|].
  split; [by apply parseCSV_unfold|]. simpl. split; [done|].
  assert (Hrow : ∀ n line, lines1 !! n = Some line →
    deref (h ++ ((λ line, zipRow (trim <$> split comma line0)
                            (trim <$> split comma line)) <$> lines1))
          (length h + n) =
    zipRow (trim <$> split comma line0) (trim <$> split comma line)).
  { intros n line Hn. rewrite deref_app_r. unfold deref.
    by rewrite list_lookup_fmap, Hn. }
  split.
  - intros n line Hn. exists (length h + n)%nat.
    pose proof (lookup_lt_Some _ _ _ Hn) as Hlt.
    split; [by rewrite lookup_seq_lt|]. by apply Hrow.
  - intros r (n & -> & Hn)%elem_of_fresh_rows.
    destruct (lookup_lt_is_Some_2 lines1 n Hn) as [line Hline].
    exists line. by apply Hrow.
Qed.

Lemma last_occurrence (l : list string) i x :
  l !! i = Some x →
  ∃ j, (i ≤ j)%nat ∧ l !! j = Some x ∧ ∀ j', (j < j')%nat → l !! j' ≠ Some x.
Proof.
  revert i. induction l as [|y l IH] using rev_ind; intros i Hi; [done|].
  destruct (decide (x = y)) as [->|Hne].
  - exists (length l). pose proof (lookup_lt_Some _ _ _ Hi) as Hlt.
    rewrite length_app in Hlt. simpl in Hlt.
    split; [lia|]. split.
    + rewrite lookup_app_r by lia. by rewrite Nat.sub_diag.
    + intros j' Hj'. rewrite lookup_ge_None_2; [done|].
      rewrite length_app. simpl. lia.
  - assert (Hlt : (i < length l)%nat).
    { destruct (decide (i < length l)%nat) as [|Hge]; [done|].
      rewrite lookup_app_r in Hi by lia.
      destruct (i - length l)%nat; [|done]. simpl in Hi. congruence. }
    rewrite lookup_app_l in Hi by done.
    destruct (IH i Hi) as (j & Hij & Hj & Hlast).
    pose proof (lookup_lt_Some _ _ _ Hj) as Hjlt.
    exists j. split; [done|]. split; [by rewrite lookup_app_l|].
    intros j' Hj'. destruct (decide (j' < length l)%nat) as [Hin|Hout].
    + rewrite lookup_app_l by done. by apply Hlast.
    + rewrite lookup_app_r by lia.
      destruct (j' - length l)%nat as [|m]; simpl; [|done].
      intros [= ->]. done.
Qed.

End ParsedRows.

(** X20. The columns of a parsed text file sort as text: every row has a
    string under every header other than ["__proto__"], so two rows are
    compared under such a header by the lower-case forms of their strings,
    in code-unit order, also when the strings are numerals ("10" comes
    before "9"). *)
Theorem csv_columns_sort_as_text (text : string) (h : Heap) (data : TableData)
    (h' : Heap) (key : string) (a b : nat) :
  FileUpload.parseCSV text h = (Ok data, h') →
  key ∈ headers data → key ≠ "__proto__" → a ∈ rows data → b ∈ rows data →
  ∃ sa sb,
    keyValue h' key a = JS.VString sa ∧ keyValue h' key b = JS.VString sb ∧
    ((DataTable.compareRows h' (DataTable.mkSort key DataTable.Asc) a b < 0)%Z ↔
     JS.ltStr (JS.toLowerCase sa) (JS.toLowerCase sb) = true) ∧
    ((DataTable.compareRows h' (DataTable.mkSort key DataTable.Desc) a b < 0)%Z ↔
     JS.ltStr (JS.toLowerCase sb) (JS.toLowerCase sa) = true).
Proof.
  intros Hrun Hkey Hproto Ha Hb.
  destruct (parseCSV_rows text h)
    as (line0 & lines1 & data0 & h0 & _ & Hrun0 & _ & _ & Hrows).
  rewrite Hrun0 in Hrun. injection Hrun as -> ->.
  assert (Hstring : ∀ r, r ∈ rows data → ∃ s, keyValue h' key r = JS.VString s).
  { intros r Hr. destruct (Hrows r Hr) as [line Hline].
    unfold keyValue, JS.get. rewrite Hline.
    destruct (proj2 (ownProperty_is_Some_keys key
                (FileUpload.zipRow (headers data)
                   (JS.trim <$> JS.split JS.comma line))))
      as [v Hv]; [by apply keys_zipRow|].
    rewrite Hv.
    destruct (ownProperty_Some_values _ _ _ _ (values_zipRow _ _) Hv)
      as (s & -> & _).
    by exists s. }
  destruct (Hstring a Ha) as [sa Hsa]. destruct (Hstring b Hb) as [sb Hsb].
  exists sa, sb. split; [done|]. split; [done|].
  unfold DataTable.compareRows. simpl.
  fold (keyValue h' key a). fold (keyValue h' key b). rewrite Hsa, Hsb.
  split; [apply compareValues_strings|].
  rewrite compareValues_Desc by done.
  rewrite <-compareValues_strings.
  rewrite (compareValues_antisym (JS.VString sb) (JS.VString sa)) by done. lia.
Qed.

(** The column n with the lines 10 and 9: the row of 10 comes first. *)
Lemma csv_columns_sort_as_text_witness :
  JS.ltStr "10" "9" = true ∧
  ∃ data h', FileUpload.parseCSV (csv_lines ["n"; "10"; "9"]) [] = (Ok data, h') ∧
    (DataTable.compareRows h' (DataTable.mkSort "n" DataTable.Asc) 0 1 < 0)%Z.
Proof.
  split; [done|].
  exists (mkTable ["n"] [0; 1]%nat),
    [[("n", JS.VString "10")]; [("n", JS.VString "9")]].
  split; [by vm_compute|].
  destruct (csv_columns_sort_as_text (csv_lines ["n"; "10"; "9"]) []
              (mkTable ["n"] [0; 1]%nat)
              [[("n", JS.VString "10")]; [("n", JS.VString "9")]] "n" 0 1)
    as (sa & sb & Hsa & Hsb & Hasc & _).
  - by vm_compute.
  - apply list_elem_of_here.
  - done.
  - apply list_elem_of_here.
  - apply list_elem_of_further, list_elem_of_here.
  - apply Hasc. vm_compute in Hsa. vm_compute in Hsb.
    injection Hsa as <-. injection Hsb as <-. done.
Defined.

(** X21. What [handleFile] can fail with: one of its own messages, or the
    message of an error of the spreadsheet library.  A file that cannot be
    read fails with "Failed to read file" on both paths.  A file that is
    read and sent to the text path always gives a table.  A file that is
    read and sent to the spreadsheet path fails with "Failed to read file"
    when its contents are empty, before the library is called; an error of
    the library is passed on with its message, and a thrown value that is
    not an error is reported as "Failed to parse Excel file".  In each of
    these failures the store is left as it is. *)
Theorem handleFile_failures
    (XLSX_read : string → FileUpload.Outcome FileUpload.Sheet)
    (file : FileUpload.File) (h : Heap) :
  (∀ msg h', FileUpload.handleFile XLSX_read file h = (Throw msg, h') →
     msg ∈ ["Invalid file format. Please upload a CSV or Excel file.";
            "Unsupported file format. Please upload CSV or Excel files.";
            "Failed to read file"; "No data found in Excel file";
            "Failed to parse Excel file"] ∨
     ∃ data, FileUpload.file_reading file = FileUpload.Loaded data ∧
             XLSX_read data = FileUpload.ThrewError msg) ∧
  (∀ path, FileUpload.dispatch file = Ok path →
     FileUpload.file_reading file = FileUpload.ReadError →
     FileUpload.handleFile XLSX_read file h = (Throw "Failed to read file", h)) ∧
  (∀ text, FileUpload.dispatch file = Ok FileUpload.CSVPath →
     FileUpload.file_reading file = FileUpload.Loaded text →
     ∃ data h', FileUpload.handleFile XLSX_read file h = (Ok data, h')) ∧
  (FileUpload.dispatch file = Ok FileUpload.ExcelPath →
     FileUpload.file_reading file = FileUpload.Loaded "" →
     FileUpload.handleFile XLSX_read file h = (Throw "Failed to read file", h)) ∧
  (∀ data, FileUpload.dispatch file = Ok FileUpload.ExcelPath →
     FileUpload.file_reading file = FileUpload.Loaded data → data ≠ "" →
     (∀ msg, XLSX_read data = FileUpload.ThrewError msg →
        FileUpload.handleFile XLSX_read file h = (Throw msg, h)) ∧
     (XLSX_read data = FileUpload.ThrewOther →
        FileUpload.handleFile XLSX_read file h =
          (Throw "Failed to parse Excel file", h))).
Proof.
  split; [|split; [|split; [|split]]].
  - intros msg h'. unfold FileUpload.handleFile.
    destruct (FileUpload.dispatch file) as [[]|msg'] eqn:Hd.
    + unfold FileUpload.parseExcel.
      destruct (FileUpload.file_reading file) as [data|] eqn:Hread.
      * destruct (JS.truthyStr data); simpl.
        -- destruct (XLSX_read data) as [sheet|msg'|] eqn:Hlib.
           ++ destruct (parseSheet_result sheet h)
                as (i & new & rs & -> & _ & _ & _).
              destruct (length _ =? 0)%nat; [|done].
              intros [= <- _]. left. do 3 apply list_elem_of_further.
              apply list_elem_of_here.
           ++ intros [= <- _]. right. by exists data.
           ++ intros [= <- _]. left. do 4 apply list_elem_of_further.
              apply list_elem_of_here.
        -- intros [= <- _]. left. do 2 apply list_elem_of_further.
           apply list_elem_of_here.
      * intros [= <- _]. left. do 2 apply list_elem_of_further.
        apply list_elem_of_here.
    + unfold FileUpload.parseCSVFile.
      destruct (FileUpload.file_reading file) as [text|].
      * destruct (parseCSV_never_throws text h) as (data & h0 & ->). done.
      * intros [= <- _]. left. do 2 apply list_elem_of_further.
        apply list_elem_of_here.
    + intros [= <- _]. left. unfold FileUpload.dispatch in Hd.
      repeat match type of Hd with
             | (if ?c then _ else _) = _ => destruct c
             end; try done; injection Hd as <-.
      * apply list_elem_of_here.
      * apply list_elem_of_further, list_elem_of_here.
  - intros path Hd Hread.
    unfold FileUpload.handleFile, FileUpload.parseExcel, FileUpload.parseCSVFile.
    rewrite Hd, Hread. by destruct path.
  - intros text Hd Hread.
    unfold FileUpload.handleFile, FileUpload.parseCSVFile.
    rewrite Hd, Hread. apply parseCSV_never_throws.
  - intros Hd Hread. unfold FileUpload.handleFile, FileUpload.parseExcel.
    by rewrite Hd, Hread.
  - intros data Hd Hread Hdata%truthyStr_true.
    unfold FileUpload.handleFile, FileUpload.parseExcel.
    rewrite Hd, Hread, Hdata. simpl. split.
    + intros msg Hlib. by rewrite Hlib.
    + intros Hlib. by rewrite Hlib.
Qed.

(** A workbook that the library rejects, and a text file that cannot be
    read. *)
Lemma handleFile_failures_witness :
  FileUpload.handleFile (λ _, FileUpload.ThrewError "Unsupported ZIP encryption")
    (FileUpload.mkFile "book.xlsx" xlsx_mime "PK") [] =
    (Throw "Unsupported ZIP encryption", []) ∧
  FileUpload.handleFile (λ _, FileUpload.ThrewOther)
    (FileUpload.mkFile "notes.csv" "text/csv" FileUpload.ReadError) [] =
    (Throw "Failed to read file", []).
Proof.
  split.
  - destruct (handleFile_failures
                (λ _, FileUpload.ThrewError "Unsupported ZIP encryption")
                (FileUpload.mkFile "book.xlsx" xlsx_mime "PK") [])
      as (_ & _ & _ & _ & H).
    destruct (H "PK" eq_refl eq_refl) as [Herr _]; [done|]. by apply Herr.
  - destruct (handleFile_failures (λ _, FileUpload.ThrewOther)
                (FileUpload.mkFile "notes.csv" "text/csv" FileUpload.ReadError) [])
      as (_ & H & _).
    by apply (H FileUpload.CSVPath).
Defined.

(** X22. What the table shows for a parsed text file: the row of line [n]
    has one cell per header.  The cell under a header other than
    ["__proto__"] that is not a date or time column shows the trimmed field
    of the line at the position of the last header of that name (the
    position of the header itself when the names are all different), or
    nothing when the line has no field there.  The cell under a header
    ["__proto__"] shows ["[object Object]"], whatever the line. *)
Theorem csv_cells_displayed
    (Date_getTime : string → result (option Z))
    (toLocaleDateString :
       Z → string → DataTable.DateFormatOptions → result string)
    (text : string) (h : Heap) :
  ∃ line0 lines1 data h',
    JS.split JS.LF (JS.trim text) = line0 :: lines1 ∧
    FileUpload.parseCSV text h = (Ok data, h') ∧
    ∀ n line, lines1 !! n = Some line →
      ∃ r, rows data !! n = Some r ∧
        let cells :=
          DataTable.renderCells Date_getTime toLocaleDateString
            (headers data) (deref h' r) in
        let fields := JS.trim <$> JS.split JS.comma line in
        length cells = length (headers data) ∧
        (∀ i hd, headers data !! i = Some hd →
           hd ≠ "__proto__" →
           JS.includes (JS.toLowerCase hd) "date" = false →
           JS.includes (JS.toLowerCase hd) "time" = false →
           ∃ j, (i ≤ j)%nat ∧ headers data !! j = Some hd ∧
             (NoDup (headers data) → j = i) ∧
             cells !! i = Some (default "" (fields !! j))) ∧
        (∀ i, headers data !! i = Some "__proto__" →
           cells !! i = Some "[object Object]").
Proof.
  destruct (parseCSV_rows text h)
    as (line0 & lines1 & data & h' & Hsplit & Hrun & _ & Hrows & _).
  exists line0, lines1, data, h'. split; [done|]. split; [done|].
  intros n line Hn. destruct (Hrows n line Hn) as (r & Hr & Hobj).
  exists r. split; [done|]. intros cells fields.
  split; [unfold cells, DataTable.renderCells; by rewrite length_fmap|].
  split.
  - intros i hd Hi Hproto Hdate Htime.
    destruct (last_occurrence (headers data) i hd Hi) as (j & Hij & Hj & Hlast).
    exists j. split; [done|]. split; [done|]. split.
    + intros Hnd. by apply (NoDup_lookup (headers data) j i hd).
    + unfold cells, DataTable.renderCells. rewrite list_lookup_fmap, Hi. simpl.
      f_equal. rewrite Hobj. unfold JS.get.
      rewrite (ownProperty_zipRow _ _ j hd Hproto Hj Hlast).
      unfold DataTable.formatCellValue. simpl. by rewrite Hdate, Htime.
  - intros i Hi.
    unfold cells, DataTable.renderCells. rewrite list_lookup_fmap, Hi. simpl.
    f_equal. rewrite Hobj. unfold JS.get.
    rewrite (proj2 (ownProperty_None_keys _ _)); [done|].
    rewrite keys_zipRow. by intros [_ ?].
Qed.

(** ** Edits under a sorted view *)



(** ** Renaming a header to [__proto__] *)

(** X24. Renaming a column of strings, numbers or [undefined] to
    ["__proto__"], when no column has that name, goes through: the header
    list gets the new name, but no row gets a property of that name,
    because the assignment [newRow["__proto__"] = value] creates none.
    Every row keeps its other properties and loses the one of the old
    name, so the values of the column are gone, and the rows read the
    member of [Object.prototype] under the new header. *)
Theorem rename_to_proto_loses_column (h : Heap) (data : TableData)
    (oldName : string) :
  "__proto__" ∉ headers data → validRows h data → wfHeap h →
  (∀ r v, r ∈ rows data → JS.ownProperty oldName (deref h r) = Some v →
          plainValue v) →
  ∃ data' h',
    DataTable.handleRenameHeader data oldName "__proto__" h =
      (DataTable.RenameApplied data', h') ∧
    headers data' =
      (λ hd, if decide (hd = oldName) then "__proto__" else hd) <$> headers data ∧
    ∀ i r, rows data !! i = Some r →
      ∃ r', rows data' !! i = Some r' ∧
        (∀ k, JS.ownProperty k (deref h' r') =
                if decide (k = oldName) then None
                else JS.ownProperty k (deref h r)) ∧
        JS.get (deref h' r') "__proto__" = JS.VInherited "__proto__".
Proof.
  intros Hnew Hv Hwf _. eexists _, _.
  split; [apply handleRenameHeader_unfold; [done|done|by right]|].
  simpl. split.
  { apply list_fmap_ext. intros _ hd _. unfold DataTable.renameKey.
    destruct (String.eqb_spec hd oldName); by case_decide. }
  intros i r Hi.
  destruct (deref_fresh_row h
    (λ r, DataTable.renameRow oldName "__proto__" (deref h r)) _ _ _ Hi)
    as [Hl Hd].
  exists (length h + i)%nat. split; [done|]. rewrite Hd.
  pose proof (wfObj_deref h r Hwf) as Hobj.
  assert (Hnone : JS.ownProperty "__proto__"
            (DataTable.renameRow oldName "__proto__" (deref h r)) = None).
  { apply ownProperty_None_keys, wfObj_renameRow. }
  split.
  - intros k. destruct (decide (k = "__proto__")) as [->|Hk].
    + rewrite Hnone. case_decide; [done|].
      symmetry. apply ownProperty_None_keys, Hobj.
    + by apply ownProperty_renameRow_other.
  - unfold JS.get. by rewrite Hnone.
Qed.

(** Renaming [a] to [__proto__] in the one-row table: the headers are
    [__proto__; b] and the row has no property left. *)
Lemma rename_to_proto_loses_column_witness :
  ∃ data' h',
    DataTable.handleRenameHeader oneRowTable "a" "__proto__" oneRowStore =
      (DataTable.RenameApplied data', h') ∧
    headers data' = ["__proto__"; "b"] ∧
    rowObjects h' data' = [[]].
Proof.
  destruct (rename_to_proto_loses_column oneRowStore oneRowTable "a")
    as (data' & h' & Heq & Hh & _).
  - intros Hin. apply elem_of_cons in Hin as [Heq|Hin]; [discriminate Heq|].
    apply list_elem_of_singleton in Hin. discriminate Hin.
  - apply Forall_cons. split; [simpl; lia | apply Forall_nil_2].
  - apply Forall_cons. split; [|apply Forall_nil_2].
    split; [apply NoDup_singleton|].
    intros Hin. apply list_elem_of_singleton in Hin. discriminate Hin.
  - intros r v Hr%list_elem_of_singleton Hown. subst r.
    injection Hown as <-. exact I.
  - exists data', h'. split; [exact Heq|]. split; [rewrite Hh; reflexivity|].
    vm_compute in Heq. injection Heq as <- <-. reflexivity.
Defined.
